(** * craft-llms: the Markdown transformation pipeline

    A shallow embedding of [src/markdown.ts] (include expansion,
    frontmatter stripping, directive and component rewriting, link
    normalisation, title and summary extraction) and of the file
    collection and the page and index assembly of [src/build.ts], with
    the properties the specification states about them and further
    properties of the code.

    Text is modelled by [string]: one [ascii] per UTF-16 code unit, for
    code units below 256 (the ISO-8859-1 range).  Within that range
    [String.prototype.trim], the regular-expression class [\s] and
    [toLowerCase] are modelled exactly. *)

From Stdlib Require Import Ascii String List Arith ZArith Lia Bool.
From stdpp Require Import base option list gmap strings sorting.


(** ** Characters *)

Module Char.

Definition code (c : ascii) : nat := nat_of_ascii c.

Definition same (a c : ascii) : bool := Ascii.eqb a c.

Definition between (lo hi c : ascii) : bool :=
  (code lo <=? code c) && (code c <=? code hi).

(** [\s] and the characters removed by [trim]: TAB, LF, VT, FF, CR,
    SPACE and NBSP. *)
Definition space (c : ascii) : bool :=
  between "009" "013" c || same " " c || same "160" c.

(** Line terminators, which [.] does not match. *)
Definition newline (c : ascii) : bool := same "010" c || same "013" c.

Definition upper (c : ascii) : bool := between "A" "Z" c.
Definition lower (c : ascii) : bool := between "a" "z" c.
Definition alpha (c : ascii) : bool := upper c || lower c.
Definition digit (c : ascii) : bool := between "0" "9" c.

Definition any (c : ascii) : bool := true.
Definition non (p : ascii → bool) (c : ascii) : bool := negb (p c).
Definition either (p q : ascii → bool) (c : ascii) : bool := p c || q c.
Definition oneOf (cs : string) (c : ascii) : bool :=
  existsb (same c) (list_ascii_of_string cs).

(** [toLowerCase] on one code unit: A-Z and the Latin-1 capitals
    U+00C0-U+00DE (U+00D7, the multiplication sign, excepted). *)
Definition toLower (c : ascii) : ascii :=
  if upper c || (between "192" "222" c && negb (same "215" c))
  then ascii_of_nat (code c + 32) else c.

End Char.

(** ** String primitives of the JavaScript runtime *)

Module Str.

Abbreviation len := String.length.

Fixpoint take (n : nat) (s : string) : string :=
  match n, s with
  | S n', String a s' => String a (take n' s')
  | _, _ => ""
  end.

Fixpoint drop (n : nat) (s : string) : string :=
  match n, s with
  | S n', String _ s' => drop n' s'
  | _, _ => s
  end.

(** [s.slice(i, j)] for indices [0 <= i], [0 <= j]. *)
Definition slice (i j : nat) (s : string) : string := take (j - i) (drop i s).

(** [s.slice(i)]. *)
Definition sliceFrom (i : nat) (s : string) : string := drop i s.

Fixpoint startsWith (p s : string) : bool :=
  match p, s with
  | "", _ => true
  | String a p', String b s' => Char.same a b && startsWith p' s'
  | _, "" => false
  end.

Fixpoint rev_onto (s acc : string) : string :=
  match s with
  | "" => acc
  | String a s' => rev_onto s' (String a acc)
  end.

Definition rev (s : string) : string := rev_onto s "".

(** [s.endsWith(p)]: the last [len p] characters of [s] are [p]. *)
Definition endsWith (p s : string) : bool :=
  (len p <=? len s) && String.eqb (drop (len s - len p) s) p.

Fixpoint dropWhile (p : ascii → bool) (s : string) : string :=
  match s with
  | String a s' => if p a then dropWhile p s' else s
  | "" => ""
  end.

Definition isEmpty (s : string) : bool :=
  match s with "" => true | _ => false end.

Definition trimStart (s : string) : string := dropWhile Char.space s.

(** [s.trimEnd()]: a character goes when it is white space and nothing
    is left of what follows it. *)
Fixpoint trimEnd (s : string) : string :=
  match s with
  | "" => ""
  | String a s' =>
      let t := trimEnd s' in
      if isEmpty t && Char.space a then "" else String a t
  end.

Definition trim (s : string) : string := trimEnd (trimStart s).

Fixpoint mapChars (f : ascii → ascii) (s : string) : string :=
  match s with
  | "" => ""
  | String a s' => String (f a) (mapChars f s')
  end.

Definition toLowerCase (s : string) : string := mapChars Char.toLower s.

Fixpoint allChars (p : ascii → bool) (s : string) : bool :=
  match s with
  | "" => true
  | String a s' => p a && allChars p s'
  end.

Fixpoint takeWhile (p : ascii → bool) (s : string) : string :=
  match s with
  | String a s' => if p a then String a (takeWhile p s') else ""
  | "" => ""
  end.

(** [s.indexOf(c)] for a one-character needle; [None] stands for -1. *)
Fixpoint indexOf (c : ascii) (s : string) : option nat :=
  match s with
  | "" => None
  | String a s' => if Char.same c a then Some 0 else S <$> indexOf c s'
  end.

(** [s.includes(p)]. *)
Fixpoint includes (p s : string) : bool :=
  startsWith p s ||
  match s with
  | "" => false
  | String _ s' => includes p s'
  end.

(** [s.split(sep)] for a one-character separator: never empty. *)
Fixpoint splitOn (sep : ascii) (s : string) : list string :=
  match s with
  | "" => [""]
  | String a s' =>
      if Char.same sep a then "" :: splitOn sep s'
      else match splitOn sep s' with
           | l :: ls => String a l :: ls
           | [] => [String a ""]
           end
  end.

(** [xs.join(sep)]. *)
Fixpoint join (sep : string) (xs : list string) : string :=
  match xs with
  | [] => ""
  | [x] => x
  | x :: xs' => x +:+ sep +:+ join sep xs'
  end.

Definition lines (s : string) : list string := splitOn "010" s.
Definition unlines (xs : list string) : string := join (String "010" "") xs.

Fixpoint last (s : string) (d : option ascii) : option ascii :=
  match s with
  | "" => d
  | String a s' => last s' (Some a)
  end.

End Str.

(** ** Regular expressions

    The regular-expression literals of the source are kept as data and
    run by one backtracking matcher with the priorities of the
    ECMAScript matcher: greedy repetitions try the longest run first,
    lazy ones the shortest, alternatives go left to right.  Every
    repetition in the source ranges over a single character class,
    which is what [Many] covers. *)

Module Rx.

Inductive regex : Type :=
| Eps
| Cls (p : ascii → bool)
| Many (greedy : bool) (lo : nat) (hi : option nat) (p : ascii → bool)
| Seq (r1 r2 : regex)
| Alt (r1 r2 : regex)
| Opt (r : regex)
| Cap (i : nat) (r : regex)
| Bol
| Eol
| NotAfter (p : ascii → bool).

(** Captures found so far, most recent first. *)
Definition caps := list (nat * string).

Fixpoint group (i : nat) (c : caps) : option string :=
  match c with
  | [] => None
  | (j, v) :: c' => if Nat.eqb i j then Some v else group i c'
  end.

(** A continuation receives the character before the position, the
    rest of the input and the captures. *)
Definition cont (R : Type) := option ascii → string → caps → option R.

Definition exhausted (hi : option nat) : bool :=
  match hi with Some 0 => true | _ => false end.

Fixpoint many {R} (greedy : bool) (p : ascii → bool) (lo : nat) (hi : option nat)
    (prev : option ascii) (s : string) (c : caps) (k : cont R) {struct s} : option R :=
  let stop (_ : unit) := match lo with 0 => k prev s c | S _ => None end in
  let more (_ : unit) :=
    match s with
    | String a s' =>
        if p a && negb (exhausted hi)
        then many greedy p (Nat.pred lo) (Nat.pred <$> hi) (Some a) s' c k
        else None
    | "" => None
    end in
  if greedy
  then match more tt with Some r => Some r | None => stop tt end
  else match stop tt with Some r => Some r | None => more tt end.

Fixpoint run {R} (r : regex) (prev : option ascii) (s : string) (c : caps)
    (k : cont R) {struct r} : option R :=
  match r with
  | Eps => k prev s c
  | Cls p =>
      match s with
      | String a s' => if p a then k (Some a) s' c else None
      | "" => None
      end
  | Many g lo hi p => many g p lo hi prev s c k
  | Seq r1 r2 => run r1 prev s c (λ prev' s' c', run r2 prev' s' c' k)
  | Alt r1 r2 =>
      match run r1 prev s c k with
      | Some x => Some x
      | None => run r2 prev s c k
      end
  | Opt r1 =>
      match run r1 prev s c k with
      | Some x => Some x
      | None => k prev s c
      end
  | Cap i r1 =>
      run r1 prev s c
        (λ prev' s' c', k prev' s' ((i, Str.take (Str.len s - Str.len s') s) :: c'))
  | Bol => match prev with None => k prev s c | Some _ => None end
  | Eol => match s with "" => k prev s c | String _ _ => None end
  | NotAfter p =>
      match prev with
      | Some a => if p a then None else k prev s c
      | None => k prev s c
      end
  end.

(** One match: the text before it, the matched text, its captures and
    the text after it. *)
Record found := Found { pre : string; text : string; groups : caps; post : string }.

Definition index (m : found) : nat := Str.len (pre m).

Definition matchAt (r : regex) (prev : option ascii) (s : string) : option found :=
  run r prev s [] (λ _ s' c, Some (Found "" (Str.take (Str.len s - Str.len s') s) c s')).

Definition shift (a : ascii) (m : found) : found :=
  Found (String a (pre m)) (text m) (groups m) (post m).

(** Leftmost match at or after the current position. *)
Fixpoint search (r : regex) (prev : option ascii) (s : string) : option found :=
  match matchAt r prev s with
  | Some m => Some m
  | None =>
      match s with
      | String a s' => shift a <$> search r (Some a) s'
      | "" => None
      end
  end.

(** [re.test(s)], [s.match(re)] and [re.exec(s)] for a regular
    expression without the global flag. *)
Definition exec (r : regex) (s : string) : option found := search r None s.
Definition test (r : regex) (s : string) : bool := bool_decide (is_Some (exec r s)).

(** [s.replace(re, f)] without the global flag: the first match only. *)
Definition replaceFirst (r : regex) (f : found → string) (s : string) : string :=
  match exec r s with
  | Some m => pre m +:+ f m +:+ post m
  | None => s
  end.

(** All matches, left to right, as [s.matchAll(re)] and a global
    [replace] visit them; after an empty match the scan moves on by
    one character.  [n] bounds the number of matches by the length of
    the input. *)
Fixpoint scan (n : nat) (r : regex) (prev : option ascii) (s : string)
    : list found * string :=
  match n with
  | 0 => ([], s)
  | S n' =>
      match search r prev s with
      | None => ([], s)
      | Some m =>
          let prev' := Str.last (pre m +:+ text m) prev in
          match text m with
          | "" =>
              match post m with
              | "" => ([m], "")
              | String a rest =>
                  let '(ms, tl) := scan n' r (Some a) rest in
                  (m :: match ms with
                        | m' :: ms' => shift a m' :: ms'
                        | [] => []
                        end,
                   match ms with [] => String a tl | _ => tl end)
              end
          | _ =>
              let '(ms, tl) := scan n' r prev' (post m) in (m :: ms, tl)
          end
      end
  end.

Definition pieces (r : regex) (s : string) : list found * string :=
  scan (S (Str.len s)) r None s.

(** [s.matchAll(re)]: each match with its [index] in [s]. *)
Fixpoint locate (offset : nat) (ms : list found) : list (nat * found) :=
  match ms with
  | [] => []
  | m :: ms' =>
      let i := offset + Str.len (pre m) in
      (i, m) :: locate (i + Str.len (text m)) ms'
  end.

Definition matchAll (r : regex) (s : string) : list (nat * found) :=
  locate 0 (fst (pieces r s)).

(** [s.replace(re, f)] with the global flag. *)
Definition replaceAll (r : regex) (f : found → string) (s : string) : string :=
  let '(ms, tl) := pieces r s in
  foldr (λ m acc, pre m +:+ f m +:+ acc) tl ms.

(** A pattern without [$]: its matches do not depend on where the
    input ends. *)
Fixpoint endFree (r : regex) : bool :=
  match r with
  | Eol => false
  | Seq r1 r2 | Alt r1 r2 => endFree r1 && endFree r2
  | Opt r1 | Cap _ r1 => endFree r1
  | Eps | Cls _ | Many _ _ _ _ | Bol | NotAfter _ => true
  end.

(** A pattern every match of which takes at least one character, and a
    pattern that does not look at the character before the position. *)
Fixpoint consuming (r : regex) : bool :=
  match r with
  | Cls _ => true
  | Many _ lo _ _ => 0 <? lo
  | Seq r1 r2 => consuming r1 || consuming r2
  | Alt r1 r2 => consuming r1 && consuming r2
  | Cap _ r1 => consuming r1
  | Eps | Opt _ | Bol | Eol | NotAfter _ => false
  end.

Fixpoint prevFree (r : regex) : bool :=
  match r with
  | Bol | NotAfter _ => false
  | Seq r1 r2 | Alt r1 r2 => prevFree r1 && prevFree r2
  | Opt r1 | Cap _ r1 => prevFree r1
  | Eps | Cls _ | Many _ _ _ _ | Eol => true
  end.

(** Derived forms. *)
Definition star (p : ascii → bool) : regex := Many true 0 None p.
Definition plus (p : ascii → bool) : regex := Many true 1 None p.
Definition lazyStar (p : ascii → bool) : regex := Many false 0 None p.
Definition lazyPlus (p : ascii → bool) : regex := Many false 1 None p.
Definition chr (a : ascii) : regex := Cls (Char.same a).

Fixpoint lit (s : string) : regex :=
  match s with
  | "" => Eps
  | String a "" => chr a
  | String a s' => Seq (chr a) (lit s')
  end.

Fixpoint seq (rs : list regex) : regex :=
  match rs with
  | [] => Eps
  | [r] => r
  | r :: rs' => Seq r (seq rs')
  end.

(** *** Vocabulary of the matcher's properties *)

(** What a continuation is called with lies further on in the input. *)
Definition ahead (strict : bool) (s s' : string) : Prop :=
  ∃ u, s = u +:+ s' ∧ (strict = true → u ≠ "").

(** A continuation that does not look at the preceding character. *)
Definition blind {R} (k : cont R) : Prop := ∀ p1 p2 s c, k p1 s c = k p2 s c.

(** [k'] accepts, on the input extended by [t], whatever [k] accepts. *)
Definition extends {R R'} (t : string) (k : cont R) (k' : cont R') : Prop :=
  ∀ prev s c y, k prev s c = Some y → ∀ c', ∃ y', k' prev (s +:+ t) c' = Some y'.

(** The text a global replacement assembles from the matches. *)
Definition stitch (f : found → string) (p : list found * string) : string :=
  foldr (λ m acc, pre m +:+ f m +:+ acc) p.2 p.1.

End Rx.

(** ** The regular expressions of [markdown.ts]

    Each definition quotes its literal; in these comments a blank is put
    between a star and a closing parenthesis that follows it. *)

Module Re.
Import Rx Char.

Definition quote : ascii := "034".

(** [/(?<!!)\[([^\]]+)\]\(([^)]+)\)/g] *)
Definition INLINE_LINK_RE : regex :=
  seq [NotAfter (same "!"); chr "["; Cap 1 (plus (non (same "]"))); chr "]";
       chr "("; Cap 2 (plus (non (same ")"))); chr ")"].

(** [/^#{1,6}\s+/] *)
Definition HEADING_RE : regex :=
  seq [Bol; Many true 1 (Some 6) (same "#"); plus space].

(** [/^\s*([-*+]|\d+\.)\s+/] *)
Definition LIST_RE : regex :=
  seq [Bol; star space; Cap 1 (Alt (Cls (oneOf "-*+")) (Seq (plus digit) (chr ".")));
       plus space].

(** [/!!!include\(([^)]+)\)!!!/g] *)
Definition INCLUDE_DIRECTIVE_RE : regex :=
  seq [lit "!!!include("; Cap 1 (plus (non (same ")"))); lit ")!!!"].

(** [/<\/?([A-Za-z][^\s/>]* )(\s[^>]* )?>/g] *)
Definition COMPONENT_TAG_RE : regex :=
  seq [chr "<"; Opt (chr "/");
       Cap 1 (Seq (Cls alpha) (star (non (either space (oneOf "/>")))));
       Opt (Cap 2 (Seq (Cls space) (star (non (same ">")))));
       chr ">"].

(** [/^<[^>]+>$/] *)
Definition HTML_TAG_ONLY_RE : regex :=
  seq [Bol; chr "<"; plus (non (same ">")); chr ">"; Eol].

(** [/^#\s+(.+?)\s*#*\s*$/] in [extractTitle] *)
Definition TITLE_RE : regex :=
  seq [Bol; chr "#"; plus space; Cap 1 (lazyPlus (non newline));
       star space; star (same "#"); star space; Eol].

(** [/\\/g] and [/^\//] in [docPathToUrl] *)
Definition BACKSLASH_RE : regex := chr "\".
Definition LEADING_SLASH_RE : regex := Seq Bol (chr "/").

(** [/^(\s*\[[^\]]+\]:\s* )(\S+)([\s\S]* )$/] in [normalizeReferenceDefinition] *)
Definition REFERENCE_RE : regex :=
  seq [Bol;
       Cap 1 (seq [star space; chr "["; plus (non (same "]")); chr "]"; chr ":";
                   star space]);
       Cap 2 (plus (non space)); Cap 3 (star any); Eol].

(** [/^\s*/], [/\s*$/] and [/^(\S+)([\s\S]* )$/] in [normalizeLinkDestination] *)
Definition LEADING_WS_RE : regex := Seq Bol (star space).
Definition TRAILING_WS_RE : regex := Seq (star space) Eol.
Definition URL_REST_RE : regex :=
  seq [Bol; Cap 1 (plus (non space)); Cap 2 (star any); Eol].

(** [/^[a-zA-Z][a-zA-Z0-9+.-]*:/], [/^\/docs\/5\.x\//] and [/^\/+/] in
    [normalizeDocLink] *)
Definition SCHEME_RE : regex :=
  seq [Bol; Cls alpha; star (either alpha (either digit (oneOf "+.-"))); chr ":"].
Definition DOCS_ROOT_RE : regex := Seq Bol (lit "/docs/5.x/").
Definition LEADING_SLASHES_RE : regex := Seq Bol (plus (same "/")).

(** [/\.md$/i] in [mapDocPath] *)
Definition MD_EXT_RE : regex :=
  seq [chr "."; Cls (oneOf "mM"); Cls (oneOf "dD"); Eol].

(** The patterns of [cleanSummaryText], in the order they are applied:
    [/!\[([^\]]* )\]\([^)]*\)/g], [/\[([^\]]+)\]\([^)]*\)/g], [/<[^>]+>/g],
    [/`([^`]* )`/g], [/^>+\s*/g] and [/\s+/g]. *)
Definition IMAGE_RE : regex :=
  seq [chr "!"; chr "["; Cap 1 (star (non (same "]"))); chr "]";
       chr "("; star (non (same ")")); chr ")"].
Definition LINK_RE : regex :=
  seq [chr "["; Cap 1 (plus (non (same "]"))); chr "]";
       chr "("; star (non (same ")")); chr ")"].
Definition TAG_RE : regex := seq [chr "<"; plus (non (same ">")); chr ">"].
Definition CODE_RE : regex :=
  seq [chr "`"; Cap 1 (star (non (same "`"))); chr "`"].
Definition QUOTE_RE : regex := seq [Bol; plus (same ">"); star space].
Definition SPACES_RE : regex := plus space.

(** [/<!--[\s\S]*?-->/g] in [stripHtmlComments] *)
Definition COMMENT_RE : regex := seq [lit "<!--"; lazyStar any; lit "-->"].

(** [/([A-Za-z0-9:_-]+)\s*=\s*Q([^Q]* )Q/g] in [parseAttributes], where [Q] stands
    for the double quote *)
Definition ATTRIBUTE_RE : regex :=
  seq [Cap 1 (plus (either alpha (either digit (oneOf ":_-"))));
       star space; chr "="; star space;
       chr quote; Cap 2 (star (non (same quote))); chr quote].

(** [/^[A-Z]/] in [replaceComponentTags] *)
Definition CAPITAL_RE : regex := Seq Bol (Cls upper).

(** The replacement pattern ['$1']. *)
Definition dollar1 (m : found) : string := default "" (group 1 (groups m)).

End Re.

(** ** The syntax the summary cleaner removes, after the specification

    Recognisers for the constructs at the start of a text: an image
    [![alt](dest)] with its alt text, a link [[text](dest)] with its
    text, an HTML tag, an inline code span with its content.  Each
    gives what it keeps and the text after the construct. *)

Module SummarySyntax.

Definition notChar (a : ascii) : ascii → bool := Char.non (Char.same a).

(** [(...)] at the start of [s]: the text after the closing
    parenthesis. *)
Definition afterDestination (s : string) : option string :=
  match s with
  | String c s2 =>
      if Char.same "(" c
      then match Str.dropWhile (notChar ")") s2 with
           | String _ rest => Some rest
           | "" => None
           end
      else None
  | "" => None
  end.

(** [[label]] followed by a destination: the label and the text after
    the destination. *)
Definition bracketed (s : string) : option (string * string) :=
  match s with
  | String b s1 =>
      if Char.same "[" b
      then match Str.dropWhile (notChar "]") s1 with
           | String _ s2 =>
               (λ rest, (Str.takeWhile (notChar "]") s1, rest)) <$> afterDestination s2
           | "" => None
           end
      else None
  | "" => None
  end.

Definition imageAt (s : string) : option (string * string) :=
  match s with
  | String a s' => if Char.same "!" a then bracketed s' else None
  | "" => None
  end.

(** A link needs a label that is not empty. *)
Definition linkAt (s : string) : option (string * string) :=
  match bracketed s with
  | Some (label, rest) => if Str.isEmpty label then None else Some (label, rest)
  | None => None
  end.

Definition tagAt (s : string) : option string :=
  match s with
  | String a s1 =>
      if Char.same "<" a && negb (Str.isEmpty (Str.takeWhile (notChar ">") s1))
      then match Str.dropWhile (notChar ">") s1 with
           | String _ rest => Some rest
           | "" => None
           end
      else None
  | "" => None
  end.

Definition codeAt (s : string) : option (string * string) :=
  match s with
  | String a s1 =>
      if Char.same "`" a
      then match Str.dropWhile (notChar "`") s1 with
           | String _ rest => Some (Str.takeWhile (notChar "`") s1, rest)
           | "" => None
           end
      else None
  | "" => None
  end.

(** Leading blockquote markers with the whitespace after them: the
    text that follows. *)
Definition quoteAt (s : string) : option string :=
  if Str.startsWith ">" s
  then Some (Str.dropWhile Char.space (Str.dropWhile (Char.same ">") s))
  else None.

(** A run of whitespace stands for one space. *)
Definition spacesAt (s : string) : option (string * string) :=
  match s with
  | String a s' =>
      if Char.space a then Some (" ", Str.dropWhile Char.space s') else None
  | "" => None
  end.

(** A construct of which nothing is kept. *)
Definition removed (at_ : string → option string) (s : string)
    : option (string * string) :=
  (λ rest, ("", rest)) <$> at_ s.

(** [f] goes through its input from left to right; where a construct
    starts it puts what the construct keeps and goes on after the
    construct, and it copies every other character. *)
Definition replacesEach (at_ : string → option (string * string))
    (f : string → string) : Prop :=
  f "" = ""
  ∧ ∀ a s, f (String a s)
           = match at_ (String a s) with
             | Some (kept, rest) => kept +:+ f rest
             | None => String a (f s)
             end.

End SummarySyntax.

(** ** Doc-path mapping, after the specification

    The mapping of a documentation path as the specification words it,
    on the segments between slashes: a final segment [readme.md] or
    [index.md], whatever its case, gives the [index.html] of the
    directory before it; another path that ends in [.md] has its last
    three characters replaced by [.html]; any other path is kept. *)

Module DocPathSpec.

Definition isIndexName (file : string) : bool :=
  let f := Str.toLowerCase file in
  bool_decide (f = "readme.md") || bool_decide (f = "index.md").

Definition finalSegment (p : string) : string := List.last (Str.splitOn "/" p) "".

Definition directorySegments (p : string) : list string :=
  removelast (Str.splitOn "/" p).

End DocPathSpec.

(** ** [node:path], POSIX flavour

    The functions of Node's [path.posix] that the source calls, after
    [lib/path.js]; [path.sep] is the slash.  [normalizeString] walks the
    slash-separated segments as the library's character loop does: empty
    and [.] segments are skipped, [..] removes the segment before it, or
    is kept when there is none to remove and the path is relative. *)

Module Path.

Definition sep : string := "/".

Definition isAbsolute (p : string) : bool := Str.startsWith "/" p.

Definition normStep (allowAboveRoot : bool) (res : list string) (seg : string)
    : list string :=
  if bool_decide (seg = "") || bool_decide (seg = ".") then res
  else if bool_decide (seg = "..") then
    match res with
    | top :: below =>
        if bool_decide (top = "..")
        then (if allowAboveRoot then ".." :: res else res)
        else below
    | [] => if allowAboveRoot then [".."] else []
    end
  else seg :: res.

(** The segments kept, innermost first. *)
Definition normSegments (allowAboveRoot : bool) (p : string) : list string :=
  fold_left (normStep allowAboveRoot) (Str.splitOn "/" p) [].

Definition normalizeString (p : string) (allowAboveRoot : bool) : string :=
  Str.join "/" (rev (normSegments allowAboveRoot p)).

Definition normalize (p : string) : string :=
  if Str.isEmpty p then "."
  else
    let absolute := isAbsolute p in
    let trailingSeparator := Str.endsWith "/" p in
    let q := normalizeString p (negb absolute) in
    if Str.isEmpty q then
      (if absolute then "/" else if trailingSeparator then "./" else ".")
    else
      let q' := if trailingSeparator then q +:+ "/" else q in
      if absolute then "/" +:+ q' else q'.

(** [path.join(...args)]. *)
Definition join (args : list string) : string :=
  match filter (λ a, a ≠ "") args with
  | [] => "."
  | parts => normalize (Str.join "/" parts)
  end.

(** [path.dirname(p)]: the scan from the end stops at index 1, so the
    first character is never looked at. *)
Definition dirname (p : string) : string :=
  match p with
  | "" => "."
  | String c body =>
      let hasRoot := Char.same "/" c in
      let r := Str.dropWhile (Char.non (Char.same "/"))
                 (Str.dropWhile (Char.same "/") (Str.rev body)) in
      match r with
      | "" => if hasRoot then "/" else "."
      | String _ r' =>
          if hasRoot && Str.isEmpty r' then "//" else String c (Str.rev r')
      end
  end.

Fixpoint resolveGo (args : list string) (resolved : string) : string * bool :=
  match args with
  | [] => (resolved, false)
  | p :: rest =>
      if Str.isEmpty p then resolveGo rest resolved
      else
        let resolved' := p +:+ "/" +:+ resolved in
        if isAbsolute p then (resolved', true) else resolveGo rest resolved'
  end.

(** [path.resolve(...args)] in the working directory [cwd]: the
    arguments are taken right to left, then [cwd], until the path is
    absolute. *)
Definition resolve (cwd : string) (args : list string) : string :=
  let '(resolved, absolute) := resolveGo (rev args ++ [cwd]) "" in
  let q := normalizeString resolved (negb absolute) in
  if absolute then "/" +:+ q
  else if Str.isEmpty q then "." else q.

End Path.

(** ** [src/markdown.ts] *)

Module Markdown.
Import Rx Re.

(** *** Fence tracking *)

Inductive Marker := Backticks | Tildes | NoMarker.

Record FenceState := Fence { inFence : bool; fenceMarker : Marker }.

Definition outside : FenceState := Fence false NoMarker.

Global Instance Marker_eq_dec : EqDecision Marker.
Proof. solve_decision. Defined.

Definition markerOf (line : string) : Marker :=
  let trimmed := Str.trim line in
  if Str.startsWith "```" trimmed then Backticks
  else if Str.startsWith "~~~" trimmed then Tildes
  else NoMarker.

Definition updateFenceState (line : string) (state : FenceState) : FenceState :=
  let marker := markerOf line in
  match marker with
  | NoMarker => state
  | _ =>
      if negb (inFence state) then Fence true marker
      else if bool_decide (fenceMarker state = marker) then Fence false NoMarker
      else state
  end.

(** A line opens a fence when the scanner is outside one and the line
    starts with a marker; it closes the fence when it starts with the
    marker that opened it. *)
Definition opens (state : FenceState) (line : string) : Prop :=
  inFence state = false ∧ markerOf line ≠ NoMarker.

Definition closes (state : FenceState) (line : string) : Prop :=
  inFence state = true ∧ markerOf line ≠ NoMarker ∧ fenceMarker state = markerOf line.

(** The fence state after a run of lines. *)
Definition fenceAfter (state : FenceState) (lines : list string) : FenceState :=
  fold_left (λ st line, updateFenceState line st) lines state.

(** *** Frontmatter *)

Fixpoint afterDelimiter (rest : list string) : option (list string) :=
  match rest with
  | [] => None
  | l :: rest' =>
      if bool_decide (Str.trim l = "---") then Some rest' else afterDelimiter rest'
  end.

Definition stripFrontmatter (content : string) : string :=
  match Str.lines content with
  | [] => content
  | first :: rest =>
      if negb (bool_decide (Str.trim first = "---")) then content
      else match afterDelimiter rest with
           | Some body => Str.unlines body
           | None => content
           end
  end.

(** *** Component tags *)

Definition INLINE_COMPONENT_TAGS : gset string :=
  list_to_set ["badge"; "cloud"; "journey"; "see"; "since"; "todo"].

Definition DROP_COMPONENT_TAGS : gset string :=
  list_to_set ["block"; "browsershot"; "codeplaceholder"; "column"; "columns";
               "tab"; "tabs"].

Definition STANDARD_HTML_TAGS : gset string :=
  list_to_set
    ["a"; "abbr"; "address"; "article"; "aside"; "audio"; "b"; "blockquote";
     "br"; "button"; "caption"; "cite"; "code"; "col"; "colgroup"; "data";
     "datalist"; "dd"; "del"; "details"; "dfn"; "div"; "dl"; "dt"; "em";
     "figcaption"; "figure"; "footer"; "form"; "h1"; "h2"; "h3"; "h4"; "h5";
     "h6"; "header"; "hr"; "i"; "img"; "input"; "ins"; "kbd"; "label"; "li";
     "main"; "mark"; "nav"; "ol"; "p"; "pre"; "q"; "s"; "samp"; "section";
     "small"; "span"; "strong"; "sub"; "summary"; "sup"; "table"; "tbody";
     "td"; "textarea"; "tfoot"; "th"; "thead"; "time"; "tr"; "u"; "ul"; "var"].

Definition stripHtmlComments (line : string) : string :=
  replaceAll COMMENT_RE (λ _, "") line.

(** The attribute object.  Assigning a string to the key [__proto__] of
    an object literal goes to the prototype setter, which ignores it:
    no property is created. *)
Definition setAttr (attrs : gmap string string) (m : found) : gmap string string :=
  let key := Str.toLowerCase (default "" (group 1 (groups m))) in
  let value := default "" (group 2 (groups m)) in
  if bool_decide (key = "__proto__") then attrs else <[key := value]> attrs.

Definition parseAttributes (raw : string) : gmap string string :=
  fold_left setAttr (fst (pieces ATTRIBUTE_RE raw)) ∅.

(** [attrs.a ?? attrs.b ?? ... ?? '']: the first attribute that is
    present, even when its value is empty. *)
Fixpoint firstOf (attrs : gmap string string) (keys : list string) : string :=
  match keys with
  | [] => ""
  | k :: keys' =>
      match attrs !! k with
      | Some v => v
      | None => firstOf attrs keys'
      end
  end.

Definition truthy (s : string) : bool := negb (Str.isEmpty s).

Definition componentText (tagName : string) (attrs : gmap string string) : string :=
  let name := Str.toLowerCase tagName in
  if bool_decide (name = "since") then
    let ver := firstOf attrs ["ver"; "version"] in
    let feature := firstOf attrs ["feature"; "text"; "label"] in
    if truthy ver && truthy feature then "Since " +:+ ver +:+ ": " +:+ feature
    else if truthy ver then "Since " +:+ ver
    else if truthy feature then "Since: " +:+ feature
    else "Since"
  else if bool_decide (name = "badge") then
    firstOf attrs ["text"; "label"; "title"]
  else if bool_decide (name = "todo") then
    let notes := firstOf attrs ["notes"; "text"; "label"] in
    if truthy notes then "TODO: " +:+ notes else "TODO"
  else if bool_decide (name = "journey") then
    let pathValue := firstOf attrs ["path"; "label"; "text"] in
    if truthy pathValue then "Journey: " +:+ pathValue else "Journey"
  else if bool_decide (name = "see") then
    let label := firstOf attrs ["label"; "text"; "title"] in
    let description := firstOf attrs ["description"; "desc"] in
    let target := firstOf attrs ["path"; "url"] in
    let parts := List.filter truthy [label; description; target] in
    match parts with
    | [] => "See"
    | _ => Str.join " - " parts
    end
  else if bool_decide (name = "cloud") then ""
  else firstOf attrs ["text"; "label"; "title"].

Definition tagNameOf (m : found) : string := default "" (group 1 (groups m)).

(** The callback of [replaceComponentTags]: [text m] is the whole tag,
    group 1 the tag name, group 2 the attribute part (empty when the
    group did not take part). *)
Definition rewriteTag (m : found) : string :=
  let tagName := tagNameOf m in
  let attrPart := default "" (group 2 (groups m)) in
  let isClosing := Str.startsWith "</" (text m) in
  let isSelfClosing := Str.endsWith "/>" (text m) in
  let lowerName := Str.toLowerCase tagName in
  if bool_decide (lowerName ∈ STANDARD_HTML_TAGS) then text m
  else if bool_decide (lowerName ∈ DROP_COMPONENT_TAGS) then ""
  else if isClosing then ""
  else if Str.includes ":" tagName then tagName
  else
    let attrs := parseAttributes attrPart in
    if bool_decide (lowerName ∈ INLINE_COMPONENT_TAGS) || isSelfClosing then
      let t := componentText tagName attrs in
      if truthy t then t else tagName
    else if negb (bool_decide (attrs = ∅)) then ""
    else if test CAPITAL_RE tagName then ""
    else tagName.

Definition replaceComponentTags (line : string) : string :=
  replaceAll COMPONENT_TAG_RE rewriteTag line.

(** *** Directives *)

Definition isDirectiveLine (line : string) : bool :=
  let trimmed := Str.trim line in
  Str.startsWith ":::" trimmed || Str.startsWith "!!!" trimmed.

Fixpoint stripLoop (state : FenceState) (lines : list string) : list string :=
  match lines with
  | [] => []
  | line :: rest =>
      let state := updateFenceState line state in
      if inFence state then line :: stripLoop state rest
      else if isDirectiveLine line then stripLoop state rest
      else replaceComponentTags (stripHtmlComments line) :: stripLoop state rest
  end.

Definition stripVuePressDirectives (content : string) : string :=
  Str.unlines (stripLoop outside (Str.lines content)).

(** *** Title and summary *)

Fixpoint titleLoop (state : FenceState) (lines : list string) (fallback : string)
    : string :=
  match lines with
  | [] => fallback
  | line :: rest =>
      let state := updateFenceState line state in
      if inFence state then titleLoop state rest fallback
      else match exec TITLE_RE line with
           | Some m => Str.trim (default "" (group 1 (groups m)))
           | None => titleLoop state rest fallback
           end
  end.

Definition extractTitle (content fallback : string) : string :=
  titleLoop outside (Str.lines content) fallback.

(** The six replacements of [cleanSummaryText], one per line of the
    source. *)
Definition imageToAlt (s : string) : string := replaceAll IMAGE_RE dollar1 s.
Definition linkToText (s : string) : string := replaceAll LINK_RE dollar1 s.
Definition dropTags (s : string) : string := replaceAll TAG_RE (λ _, "") s.
Definition unwrapCode (s : string) : string := replaceAll CODE_RE dollar1 s.
Definition dropQuoteMarkers (s : string) : string := replaceAll QUOTE_RE (λ _, "") s.
Definition collapseSpaces (s : string) : string := replaceAll SPACES_RE (λ _, " ") s.

Definition cleanSummaryText (text : string) : string :=
  let cleaned := text in
  let cleaned := imageToAlt cleaned in
  let cleaned := linkToText cleaned in
  let cleaned := dropTags cleaned in
  let cleaned := unwrapCode cleaned in
  let cleaned := dropQuoteMarkers cleaned in
  let cleaned := Str.trim (collapseSpaces cleaned) in
  cleaned.

(** The loop of [extractSummary]; [paragraph] holds the lines pushed so
    far, and a blank line after the first of them leaves the loop. *)
Fixpoint summaryLoop (state : FenceState) (paragraph : list string)
    (lines : list string) : list string :=
  match lines with
  | [] => paragraph
  | line :: rest =>
      let state := updateFenceState line state in
      if inFence state then summaryLoop state paragraph rest
      else
        let trimmed := Str.trim line in
        if Str.isEmpty trimmed then
          (if 0 <? length paragraph then paragraph
           else summaryLoop state paragraph rest)
        else if test HEADING_RE trimmed || test LIST_RE trimmed then
          summaryLoop state paragraph rest
        else if test HTML_TAG_ONLY_RE trimmed then
          summaryLoop state paragraph rest
        else summaryLoop state (paragraph ++ [trimmed]) rest
  end.

Definition extractSummary (content : string) : string :=
  cleanSummaryText (Str.join " " (summaryLoop outside [] (Str.lines content))).

(** *** Links *)

Definition ensureTrailingSlash (baseUrl : string) : string :=
  if Str.endsWith "/" baseUrl then baseUrl else baseUrl +:+ "/".

Definition stripLeadingSlash (p : string) : string :=
  replaceFirst LEADING_SLASH_RE (λ _, "") p.

Definition mapDocPath (docPath : string) : string :=
  let lowerPath := Str.toLowerCase docPath in
  if bool_decide (lowerPath = "readme.md") || Str.endsWith "/readme.md" lowerPath then
    Path.join [Path.dirname docPath; "index.html"]
  else if bool_decide (lowerPath = "index.md") || Str.endsWith "/index.md" lowerPath then
    Path.join [Path.dirname docPath; "index.html"]
  else if Str.endsWith ".md" lowerPath then
    replaceFirst MD_EXT_RE (λ _, ".html") docPath
  else docPath.

Definition docPathToUrl (relativePath baseUrl : string) : string :=
  let normalizedBase := ensureTrailingSlash baseUrl in
  let posixPath := stripLeadingSlash (replaceAll BACKSLASH_RE (λ _, "/") relativePath) in
  let mapped := mapDocPath posixPath in
  normalizedBase +:+ stripLeadingSlash mapped.

(** [s.indexOf(c)] followed by the two slices taken at it. *)
Definition cutAt (c : ascii) (s : string) : string * string :=
  match Str.indexOf c s with
  | Some i => (Str.slice 0 i s, Str.sliceFrom i s)
  | None => (s, "")
  end.

Definition normalizeDocLink (url currentFilePath baseUrl : string) : string :=
  if Str.isEmpty url || Str.startsWith "#" url then url
  else if Str.startsWith "//" url || test SCHEME_RE url then url
  else
    let '(pathPart, hash) := cutAt "#" url in
    let '(pathPart, query) := cutAt "?" pathPart in
    let isRoot := Str.startsWith "/" pathPart in
    let pathPart :=
      if isRoot
      then replaceFirst LEADING_SLASHES_RE (λ _, "")
             (replaceFirst DOCS_ROOT_RE (λ _, "") pathPart)
      else pathPart in
    if Str.isEmpty pathPart then url
    else
      let resolvedPath :=
        if negb isRoot
        then Path.normalize (Path.join [Path.dirname currentFilePath; pathPart])
        else pathPart in
      let mappedPath := mapDocPath resolvedPath in
      let normalizedBase := ensureTrailingSlash baseUrl in
      normalizedBase +:+ stripLeadingSlash mappedPath +:+ query +:+ hash.

Definition matched (r : regex) (s : string) : string :=
  match exec r s with Some m => text m | None => "" end.

Definition normalizeLinkDestination (rawDestination currentFilePath baseUrl : string)
    : string :=
  let leading := matched LEADING_WS_RE rawDestination in
  let trailing := matched TRAILING_WS_RE rawDestination in
  let inner :=
    Str.slice (Str.len leading) (Str.len rawDestination - Str.len trailing)
      rawDestination in
  if Str.isEmpty inner then rawDestination
  else
    let plain (_ : unit) :=
      match exec URL_REST_RE inner with
      | None => rawDestination
      | Some m =>
          let url := default "" (group 1 (groups m)) in
          let rest := default "" (group 2 (groups m)) in
          leading +:+ normalizeDocLink url currentFilePath baseUrl +:+ rest +:+ trailing
      end in
    if Str.startsWith "<" inner then
      match Str.indexOf ">" inner with
      | Some e =>
          let url := Str.slice 1 e inner in
          let rest := Str.sliceFrom (e + 1) inner in
          leading +:+ "<" +:+ normalizeDocLink url currentFilePath baseUrl +:+ ">"
            +:+ rest +:+ trailing
      | None => plain tt
      end
    else plain tt.

Definition normalizeReferenceDefinition (line currentFilePath baseUrl : string)
    : string :=
  match exec REFERENCE_RE line with
  | None => line
  | Some m =>
      let prefix := default "" (group 1 (groups m)) in
      let destination := default "" (group 2 (groups m)) in
      let rest := default "" (group 3 (groups m)) in
      prefix +:+ normalizeLinkDestination destination currentFilePath baseUrl +:+ rest
  end.

Definition rewriteInlineLink (currentFilePath baseUrl : string) (m : found) : string :=
  let text := default "" (group 1 (groups m)) in
  let destination := default "" (group 2 (groups m)) in
  "[" +:+ text +:+ "](" +:+
    normalizeLinkDestination destination currentFilePath baseUrl +:+ ")".

Definition normalizeLine (currentFilePath baseUrl : string) (line : string) : string :=
  let normalizedInline :=
    replaceAll INLINE_LINK_RE (rewriteInlineLink currentFilePath baseUrl) line in
  normalizeReferenceDefinition normalizedInline currentFilePath baseUrl.

Fixpoint linksLoop (currentFilePath baseUrl : string) (state : FenceState)
    (lines : list string) : list string :=
  match lines with
  | [] => []
  | line :: rest =>
      let state := updateFenceState line state in
      if inFence state then line :: linksLoop currentFilePath baseUrl state rest
      else normalizeLine currentFilePath baseUrl line
             :: linksLoop currentFilePath baseUrl state rest
  end.

(** [options] is [{ baseUrl, currentFilePath }]. *)
Definition normalizeLinks (content : string) (baseUrl currentFilePath : string)
    : string :=
  Str.unlines (linksLoop currentFilePath baseUrl outside (Str.lines content)).

End Markdown.

(** The mapping of [DocPathSpec], completed with the normal form of the
    directory path. *)

Module DocPathMapping.
Import DocPathSpec.

Definition mapDocPathSpec (p : string) : string :=
  if isIndexName (finalSegment p) then
    match directorySegments p with
    | [] => "index.html"
    | segments => Path.normalize (Str.join "/" segments +:+ "/index.html")
    end
  else if Str.endsWith ".md" (Str.toLowerCase p) then
    Str.take (Str.len p - 3) p +:+ ".html"
  else p.

End DocPathMapping.

(** ** Include expansion ([expandIncludeDirectives])

    The storage is a partial map from absolute paths to file contents;
    [fs.readFile] rejects where it is undefined.  One call owns a cache
    and an expansion stack, which the source mutates in place: they are
    threaded as state, together with the log of the paths handed to
    [fs.readFile]. *)

Module Include.
Import Rx Re.

Inductive IncludeError :=
| DepthExceeded (maxDepth : Z) (filePath : string)
| Cycle (resolvedPath : string)
| PathEscape (includePath : string)
| ReadFailed (resolvedPath : string).

Record Storage := { cwd : string; readFile : string → option string }.

Record St := mkSt {
  cache : gmap string string;
  stack : gset string;
  reads : list string
}.

Definition fresh : St := mkSt ∅ ∅ [].

Definition M (A : Type) : Type := St → (IncludeError + A) * St.

Definition ret {A} (a : A) : M A := λ st, (inr a, st).
Definition throw {A} (e : IncludeError) : M A := λ st, (inl e, st).
Definition bind {A B} (m : M A) (f : A → M B) : M B :=
  λ st, match m st with
        | (inr a, st') => f a st'
        | (inl e, st') => (inl e, st')
        end.
Definition get : M St := λ st, (inr st, st).
Definition modify (f : St → St) : M unit := λ st, (inr tt, f st).

Local Notation "'let*' x ':=' m 'in' k" := (bind m (λ x, k))
  (at level 10, x pattern, m at level 100, k at level 200).

Section WithStorage.
Variable fs : Storage.

(** The [normalizedPath] of [resolveIncludePath]. *)
Definition includeTarget (includePath repoRoot currentFilePath : string) : string :=
  let resolvedPath :=
    if Str.startsWith "/" includePath then
      Path.join [repoRoot; replaceFirst LEADING_SLASHES_RE (λ _, "") includePath]
    else if Str.startsWith "." includePath then
      Path.resolve (cwd fs) [Path.dirname currentFilePath; includePath]
    else Path.join [repoRoot; includePath] in
  Path.resolve (cwd fs) [resolvedPath].

(** The test of [resolveIncludePath]: the root itself, or a path that
    starts with the root followed by the separator. *)
Definition insideRoot (repoRoot normalizedPath : string) : bool :=
  let normalizedRoot := Path.resolve (cwd fs) [repoRoot] in
  bool_decide (normalizedPath = normalizedRoot)
  || Str.startsWith (normalizedRoot +:+ Path.sep) normalizedPath.

(** [resolveIncludePath]; [inl] is the thrown error. *)
Definition resolveIncludePath (includePath repoRoot currentFilePath : string)
    : IncludeError + string :=
  let normalizedPath := includeTarget includePath repoRoot currentFilePath in
  if negb (insideRoot repoRoot normalizedPath)
  then inl (PathEscape includePath)
  else inr normalizedPath.

(** [cache.get(p)], and on a miss [fs.readFile(p)] then [cache.set]. *)
Definition load (resolvedPath : string) : M string :=
  let* st := get in
  match cache st !! resolvedPath with
  | Some included => ret included
  | None =>
      let* _ := modify (λ st, mkSt (cache st) (stack st) (resolvedPath :: reads st)) in
      match readFile fs resolvedPath with
      | None => throw (ReadFailed resolvedPath)
      | Some included =>
          let* _ := modify (λ st, mkSt (<[resolvedPath := included]> (cache st))
                             (stack st) (reads st)) in
          ret included
      end
  end.

Section Expand.
Variables (repoRoot : string) (maxDepth : Z).

(** The [for (const match of matches)] loop of [expand], with the
    recursive call abstracted as [expand]. *)
Fixpoint expandLoop (expand : string → string → nat → M string)
    (input filePath : string) (depth : nat)
    (matches : list (nat * found)) (result : string) (lastIndex : nat)
    : M string :=
  match matches with
  | [] => ret (result +:+ Str.sliceFrom lastIndex input)
  | (matchIndex, m) :: rest =>
      let result := result +:+ Str.slice lastIndex matchIndex input in
      let lastIndex := matchIndex + Str.len (text m) in
      let includePath := Str.trim (default "" (group 1 (groups m))) in
      match resolveIncludePath includePath repoRoot filePath with
      | inl e => throw e
      | inr resolvedPath =>
          let* st := get in
          if bool_decide (resolvedPath ∈ stack st)
          then throw (Cycle resolvedPath)
          else
            let* included := load resolvedPath in
            let* _ := modify (λ st, mkSt (cache st) ({[resolvedPath]} ∪ stack st)
                                       (reads st)) in
            let* expanded := expand included resolvedPath (depth + 1) in
            let* _ := modify (λ st, mkSt (cache st) (stack st ∖ {[resolvedPath]})
                                       (reads st)) in
            expandLoop expand input filePath depth rest
              (result +:+ expanded) lastIndex
      end
  end.

(** The closure [expand].  [depth] counts the calls from 0 and
    [maxDepth] is the limit as given, an integer of either sign; the
    check [depth > maxDepth] comes first.  Each call is one level
    deeper, so at most [maxDepth + 1 - depth] levels remain before the
    check throws; [fuel] counts them. *)
Fixpoint expand (fuel : nat) (input filePath : string) (depth : nat) : M string :=
  if (maxDepth <? Z.of_nat depth)%Z then throw (DepthExceeded maxDepth filePath)
  else
    match fuel with
    | 0 => throw (DepthExceeded maxDepth filePath)
    | S fuel' =>
        match matchAll INCLUDE_DIRECTIVE_RE input with
        | [] => ret input
        | matches =>
            expandLoop (expand fuel') input filePath depth matches "" 0
        end
    end.

End Expand.

(** [options] is [{ repoRoot, currentFilePath, maxDepth? }]; the limit
    is an integer, negative ones included (a limit that is not an
    integer is outside the model). *)
Definition expandIncludeDirectives (content : string)
    (repoRoot currentFilePath : string) (maxDepth : option Z)
    : (IncludeError + string) * St :=
  let repoRoot := Path.resolve (cwd fs) [repoRoot] in
  let maxDepth := default 5%Z maxDepth in
  expand repoRoot maxDepth (S (Z.to_nat maxDepth)) content currentFilePath 0 fresh.

(** *** Vocabulary of the properties: include chains

    The directives of a text are the matches of the directive pattern,
    in the order of the text.  A directive leads to a file when its
    path resolves inside the root to a file the storage holds.  An
    include chain is a sequence of files, each named by a directive, in
    any position, of the text before it. *)

Definition includePathOf (m : found) : string :=
  Str.trim (default "" (group 1 (groups m))).

Definition directives (input : string) : list (nat * found) :=
  matchAll INCLUDE_DIRECTIVE_RE input.

Record Link := { lPath : string; lText : string }.

Definition leadsTo (repoRoot filePath : string) (m : found) (l : Link) : Prop :=
  resolveIncludePath (includePathOf m) repoRoot filePath = inr (lPath l)
  ∧ readFile fs (lPath l) = Some (lText l).

Fixpoint Chain (repoRoot input filePath : string) (c : list Link) : Prop :=
  match c with
  | [] => True
  | l :: c' =>
      (∃ im, im ∈ directives input ∧ leadsTo repoRoot filePath im.2 l)
      ∧ Chain repoRoot (lText l) (lPath l) c'
  end.

(** Where a chain ends: the text and the path of its last file. *)
Fixpoint chainEnd (input filePath : string) (c : list Link) : string * string :=
  match c with
  | [] => (input, filePath)
  | l :: c' => chainEnd (lText l) (lPath l) c'
  end.

(** The files a chain has opened, the last one first. *)
Definition opened (c : list Link) : list string := rev (map lPath c).

(** [k] rounds of a chain that comes back to where it started. *)
Fixpoint rounds (k : nat) (s : list Link) : list Link :=
  match k with
  | 0 => []
  | S k' => s ++ rounds k' s
  end.

(** The file at which a chain passes the depth [limit]: the starting
    file when the limit is negative. *)
Definition boundary (limit : Z) (input filePath : string) (c : list Link) : string :=
  (chainEnd input filePath (take (Z.to_nat (limit + 1)) c)).2.

(** Every directive met along a chain leads to a file. *)
Definition resolvable (repoRoot content currentFilePath : string) : Prop :=
  ∀ c im, Chain repoRoot content currentFilePath c →
    im ∈ directives (chainEnd content currentFilePath c).1 →
    ∃ l, leadsTo repoRoot (chainEnd content currentFilePath c).2 im.2 l.

(** The text with every directive replaced by the text of the file it
    leads to, itself treated the same way, [levels] files deep; [None]
    when a directive leads nowhere or the levels do not suffice. *)
Section Substitute.
Variable repoRoot : string.

Fixpoint substituteLoop (substitute : string → string → option string)
    (input filePath : string) (matches : list (nat * found))
    (result : string) (lastIndex : nat) : option string :=
  match matches with
  | [] => Some (result +:+ Str.sliceFrom lastIndex input)
  | (matchIndex, m) :: rest =>
      match resolveIncludePath (includePathOf m) repoRoot filePath with
      | inl _ => None
      | inr p =>
          match readFile fs p with
          | None => None
          | Some included =>
              match substitute included p with
              | None => None
              | Some expanded =>
                  substituteLoop substitute input filePath rest
                    ((result +:+ Str.slice lastIndex matchIndex input) +:+ expanded)
                    (matchIndex + Str.len (text m))
              end
          end
      end
  end.

Fixpoint substitute (levels : nat) (input filePath : string) : option string :=
  match levels with
  | 0 => None
  | S levels' =>
      match directives input with
      | [] => Some input
      | matches => substituteLoop (substitute levels') input filePath matches "" 0
      end
  end.

End Substitute.

(** With the files of [open] being expanded, the innermost first, and
    [limit] the depth limit: a text is sound when it lies within the
    limit and each of its directives leads to a file that is not open
    and whose text is sound in turn. *)
Section Limit.
Variables (repoRoot : string) (limit : Z).

Unset Elimination Schemes.
Inductive Sound : list string → string → string → Prop :=
| sound (open : list string) (input filePath : string) :
    (Z.of_nat (length open) ≤ limit)%Z →
    Forall (λ im, ∃ l, leadsTo repoRoot filePath im.2 l ∧ (lPath l ∉ open)
                       ∧ Sound (lPath l :: open) (lText l) (lPath l))
           (directives input) →
    Sound open input filePath.
Set Elimination Schemes.

(** The directive expands without an error. *)
Definition expands (open : list string) (filePath : string) (im : nat * found) : Prop :=
  ∃ l, leadsTo repoRoot filePath im.2 l ∧ (lPath l ∉ open)
       ∧ Sound (lPath l :: open) (lText l) (lPath l).

(** The expansion of a text comes to one of its directives when the
    directives before it expand. *)
Definition comesTo (open : list string) (input filePath : string)
    (im : nat * found) : Prop :=
  ∃ before after,
    directives input = before ++ im :: after ∧ Forall (expands open filePath) before.

(** A chain the expansion follows: it comes to the directive of each
    link, and the file of the link is not open. *)
Fixpoint Follows (open : list string) (input filePath : string) (c : list Link)
    : Prop :=
  match c with
  | [] => True
  | l :: c' =>
      (∃ im, comesTo open input filePath im ∧ leadsTo repoRoot filePath im.2 l)
      ∧ (lPath l ∉ open)
      ∧ Follows (lPath l :: open) (lText l) (lPath l) c'
  end.

(** What an error goes back to, [c] being an include chain from the
    text: the file at the end of [c] lies beyond the limit, or one of
    its directives points outside the root, names an open file or
    names a file the storage does not hold. *)
Definition cause (open : list string) (input filePath : string) (c : list Link)
    (e : IncludeError) : Prop :=
  let last := chainEnd input filePath c in
  let here := opened c ++ open in
  ((limit < Z.of_nat (length here))%Z
   ∧ (c = [] ∨ Z.of_nat (length here) = (limit + 1)%Z)
   ∧ e = DepthExceeded limit last.2)
  ∨ ∃ im, im ∈ directives last.1 ∧ (Z.of_nat (length here) ≤ limit)%Z
          ∧ match resolveIncludePath (includePathOf im.2) repoRoot last.2 with
            | inl e' => e = e'
            | inr p => (p ∈ here ∧ e = Cycle p)
                       ∨ (readFile fs p = None ∧ e = ReadFailed p)
            end.

End Limit.

(** The cache holds what the storage holds. *)
Definition cacheOK (st : St) : Prop :=
  ∀ p v, cache st !! p = Some v → readFile fs p = Some v.

(** Whatever was handed to [fs.readFile] passed the test of
    [resolveIncludePath]. *)
Definition readsInside (repoRoot : string) (st : St) : Prop :=
  Forall (λ p, insideRoot repoRoot p = true) (reads st).

End WithStorage.

Definition withStack (f : gset string → gset string) (st : St) : St :=
  mkSt (cache st) (f (stack st)) (reads st).

(** A repository at [/repo]: [a.md] and [b.md] include each other,
    [c.md] includes [d.md], which includes nothing. *)
Definition sampleStorage : Storage :=
  {| cwd := "/work";
     readFile := λ p,
       if bool_decide (p = "/repo/a.md") then Some "A[!!!include(b.md)!!!]"
       else if bool_decide (p = "/repo/b.md") then Some "B[!!!include(/a.md)!!!]"
       else if bool_decide (p = "/repo/c.md") then Some "C[!!!include(./d.md)!!!]"
       else if bool_decide (p = "/repo/d.md") then Some "D"
       else None |}.

Definition sampleRoot : string := Path.resolve (cwd sampleStorage) ["/repo"].

Definition fileA : Link := {| lPath := "/repo/a.md"; lText := "A[!!!include(b.md)!!!]" |}.
Definition fileB : Link := {| lPath := "/repo/b.md"; lText := "B[!!!include(/a.md)!!!]" |}.
Definition fileC : Link := {| lPath := "/repo/c.md"; lText := "C[!!!include(./d.md)!!!]" |}.
Definition fileD : Link := {| lPath := "/repo/d.md"; lText := "D" |}.

(** The match of a directive at index [i], between [before] and
    [after], that names [path]. *)
Definition directiveAt (i : nat) (before path after : string) : nat * found :=
  (i, Found before ("!!!include(" +:+ path +:+ ")!!!") [(1, path)] after).

(** A page whose second directive starts the chain [c.md], [d.md]; one
    that enters the cycle of [a.md] and [b.md] through its second
    directive; one whose second directive points outside the root. *)
Definition chainPage : string := "top !!!include(d.md)!!! and !!!include(c.md)!!!".
Definition cyclePage : string := "top !!!include(d.md)!!! and !!!include(a.md)!!!".
Definition escapePage : string := "x !!!include(d.md)!!! y !!!include(../etc/passwd)!!!".

End Include.

(** ** Page and index assembly ([build])

    The part of [build] between reading the files and writing the two
    artifacts.  A document is one collected file: its path relative to
    the documentation root (POSIX separators), its raw text and the
    fallback title [path.basename(filePath, path.extname(filePath))].
    [localeCompare] is the comparison of the JavaScript runtime, taken
    as a parameter; [Array.prototype.sort] is stable. *)

Module Build.
Import Markdown.

Record Document := { docPath : string; raw : string; fallbackTitle : string }.

Record IndexEntry := {
  title : string;
  url : string;
  summary : string;
  relPath : string
}.

(** The separator of an index entry and its summary, blank, em dash
    (U+2014, outside the modelled range: its UTF-8 bytes) and blank. *)
Definition dash : string := " — ".

(** *** One page *)

Definition cleanedOf (d : Document) : string :=
  stripVuePressDirectives (stripFrontmatter (raw d)).

Definition titleOf (d : Document) : string :=
  extractTitle (cleanedOf d) (fallbackTitle d).

Definition normalizedContent (baseUrl : string) (d : Document) : string :=
  Str.trimEnd (normalizeLinks (cleanedOf d) baseUrl (docPath d)).

Definition pageChunk (baseUrl : string) (d : Document) : list string :=
  ["---"; "# " +:+ titleOf d; normalizedContent baseUrl d; ""].

Definition entryOf (baseUrl : string) (d : Document) : IndexEntry :=
  {| title := titleOf d;
     url := docPathToUrl (docPath d) baseUrl;
     summary := extractSummary (cleanedOf d);
     relPath := docPath d |}.

Definition groupOf (relPath : string) : string :=
  if Str.includes "/" relPath
  then default "" (head (Str.splitOn "/" relPath))
  else "root".

(** *** The index groups, a [Map] in insertion order *)

Definition Groups := list (string * list IndexEntry).

Fixpoint getGroup (groups : Groups) (group : string) : option (list IndexEntry) :=
  match groups with
  | [] => None
  | (g, es) :: groups' =>
      if bool_decide (g = group) then Some es else getGroup groups' group
  end.

Fixpoint setGroup (groups : Groups) (group : string) (entries : list IndexEntry)
    : Groups :=
  match groups with
  | [] => [(group, entries)]
  | (g, es) :: groups' =>
      if bool_decide (g = group) then (g, entries) :: groups'
      else (g, es) :: setGroup groups' group entries
  end.

Definition addEntry (groups : Groups) (e : IndexEntry) : Groups :=
  let group := groupOf (relPath e) in
  let entries := default [] (getGroup groups group) in
  setGroup groups group (entries ++ [e]).

Definition indexGroups (baseUrl : string) (files : list Document) : Groups :=
  fold_left (λ groups d, addEntry groups (entryOf baseUrl d)) files [].

Section Sorting.
Variable localeCompare : string → string → Z.

(** [xs.sort((a, b) => key(a).localeCompare(key(b)))]: a stable sort,
    an element going before the first one it does not follow. *)
Fixpoint insertBy {A} (key : A → string) (x : A) (xs : list A) : list A :=
  match xs with
  | [] => [x]
  | y :: xs' =>
      if (localeCompare (key x) (key y) <=? 0)%Z then x :: y :: xs'
      else y :: insertBy key x xs'
  end.

Definition sortBy {A} (key : A → string) (xs : list A) : list A :=
  foldr (insertBy key) [] xs.

(** The sections of the index, in the order they are written. *)
Definition indexSections (groups : Groups) : Groups :=
  map (λ group, (group, sortBy relPath (default [] (getGroup groups group))))
      (sortBy id (map fst groups)).

Definition entryLine (e : IndexEntry) : string :=
  let summary := if truthy (summary e) then dash +:+ summary e else "" in
  "- [" +:+ title e +:+ "](" +:+ url e +:+ ")" +:+ summary.

Definition sectionLines (section : string * list IndexEntry) : list string :=
  ("## " +:+ section.1) :: map entryLine section.2 ++ [""].

Definition provenance (timestamp commit : string) : string :=
  "Last updated: " +:+ timestamp +:+ " (commit " +:+ commit +:+ ")".

Definition indexText (baseUrl timestamp commit : string) (files : list Document)
    : string :=
  let indexLines :=
    ["# Craft CMS Documentation Index"; provenance timestamp commit; ""]
    ++ concat (map sectionLines (indexSections (indexGroups baseUrl files))) in
  Str.trimEnd (Str.unlines indexLines) +:+ String "010" "".

Definition fullText (baseUrl timestamp commit : string) (files : list Document)
    : string :=
  let headerLines :=
    ["# Craft CMS Documentation";
     "Craft CMS 5.x documentation covering installation, configuration, templating, and extension points.";
     provenance timestamp commit; ""] in
  let pageChunks := concat (map (pageChunk baseUrl) files) in
  Str.unlines headerLines +:+ String "010" "" +:+
    Str.trimEnd (Str.unlines pageChunks) +:+ String "010" "".

(** [configBaseUrl] is [config.baseUrl]; the result is the pair of
    the full document and the index. *)
Definition build (configBaseUrl timestamp commit : string) (files : list Document)
    : string * string :=
  let baseUrl := ensureTrailingSlash configBaseUrl in
  (fullText baseUrl timestamp commit files, indexText baseUrl timestamp commit files).

End Sorting.

(** *** Vocabulary of the ordering property *)

(** [a] does not come after [b]. *)
Definition precedes (localeCompare : string → string → Z) (a b : string) : Prop :=
  (localeCompare a b <= 0)%Z.

Definition byKey {A} (localeCompare : string → string → Z) (key : A → string)
    (x y : A) : Prop :=
  precedes localeCompare (key x) (key y).

Definition keys (groups : Groups) : list string := map fst groups.

(** Every entry of a section belongs to the section's group. *)
Definition inItsGroup (section : string * list IndexEntry) : Prop :=
  Forall (λ e, groupOf (relPath e) = section.1) section.2.

(** Comparison by code units, a consistent comparator to run the
    assembly with. *)
Definition codeUnitCompare (a b : string) : Z :=
  match String.compare a b with
  | Lt => (-1)%Z
  | Eq => 0%Z
  | Gt => 1%Z
  end.


Definition includeLinePage : Document :=
  {| docPath := "z.md";
     raw := Str.unlines ["Intro"; "!!!include(c.md)!!!"; "Outro"];
     fallbackTitle := "z" |}.

(** Two top-level directories and two root-level files. *)
Definition sampleFiles : list Document :=
  [ {| docPath := "z.md"; raw := "# Zed"; fallbackTitle := "z" |};
    {| docPath := "system/b.md"; raw := "# B"; fallbackTitle := "b" |};
    {| docPath := "guides/index.md"; raw := "Guides."; fallbackTitle := "index" |};
    {| docPath := "system/a.md"; raw := "First."; fallbackTitle := "a" |};
    {| docPath := "a.md"; raw := "# A"; fallbackTitle := "a" |} ].

End Build.

(** ** [stripLeadingH1]

    The exported scanner that drops the first level-one heading. *)

Module Heading.
Import Rx Re Markdown.

(** [/^#\s+/] *)
Definition H1_RE : regex := seq [Bol; chr "#"; plus Char.space].

(** The loop of [stripLeadingH1]; [removed] is its flag. *)
Fixpoint h1Loop (state : FenceState) (removed : bool) (lines : list string)
    : list string :=
  match lines with
  | [] => []
  | line :: rest =>
      let state := updateFenceState line state in
      if negb (inFence state) && negb removed && test H1_RE line
      then h1Loop state true rest
      else line :: h1Loop state removed rest
  end.

Definition stripLeadingH1 (content : string) : string :=
  Str.unlines (h1Loop outside false (Str.lines content)).

(** *** Vocabulary of its property *)

(** The position of the first line that is outside a fence and starts
    as a level-one heading. *)
Fixpoint firstH1 (state : FenceState) (lines : list string) : option nat :=
  match lines with
  | [] => None
  | line :: rest =>
      let state := updateFenceState line state in
      if negb (inFence state) && test H1_RE line then Some 0
      else S <$> firstH1 state rest
  end.

(** A text without a line break. *)
Definition oneLine (s : string) : Prop :=
  Str.allChars (Char.non (Char.same "010")) s = true.

End Heading.

(** ** Characters a pattern cannot do without *)

Module Needs.
Import Rx.

(** A test on all 256 characters. *)
Definition everyChar (P : ascii → bool) : bool :=
  forallb (λ n, P (ascii_of_nat n)) (List.seq 0 256).

(** The class [p] lies within the class [q]. *)
Definition within (p q : ascii → bool) : bool :=
  everyChar (λ a, implb (p a) (q a)).

(** Every text the pattern matches holds a character of the class
    [q], by the shape of the pattern. *)
Fixpoint demands (q : ascii → bool) (r : regex) : bool :=
  match r with
  | Cls p => within p q
  | Many _ lo _ p => (0 <? lo) && within p q
  | Seq r1 r2 => demands q r1 || demands q r2
  | Alt r1 r2 => demands q r1 && demands q r2
  | Cap _ r1 => demands q r1
  | Eps | Opt _ | Bol | Eol | NotAfter _ => false
  end.

(** The text has no character of the class [q]. *)
Definition free (q : ascii → bool) (s : string) : bool :=
  Str.allChars (Char.non q) s.

(** What lies between [s] and its suffix [s'] holds a character of
    [q], when [strict]. *)
Definition spends (q : ascii → bool) (strict : bool) (s s' : string) : Prop :=
  ∃ u, s = u +:+ s' ∧ (strict = true → free q u = false).

End Needs.

(** ** The cache of the include expansion *)

Module IncludeCache.
Import Include.

(** The files read are distinct, they are the files the cache holds,
    and the cache holds them as the storage does. *)
Definition readOnce (fs : Storage) (st : St) : Prop :=
  NoDup (reads st)
  ∧ (∀ p, p ∈ reads st ↔ is_Some (cache st !! p))
  ∧ cacheOK fs st.

(** The outcome of a step started in [st0]: a step that succeeds keeps
    [readOnce] and leaves the stack as it was; one that fails has still
    read no file twice. *)
Definition outcome {A} (fs : Storage) (st0 : St) (x : (IncludeError + A) * St) : Prop :=
  match x with
  | (inr _, st) => readOnce fs st ∧ stack st = stack st0
  | (inl _, st) => NoDup (reads st)
  end.

End IncludeCache.

(** ** The line of the title *)

Module TitleLine.
Import Rx Re Markdown.

(** The title a line gives, when it is a title line. *)
Definition titleOfLine (line : string) : option string :=
  (λ m, Str.trim (default "" (group 1 (groups m)))) <$> exec TITLE_RE line.

(** The position of the first line outside a fence that gives a
    title. *)
Fixpoint titleLine (state : FenceState) (lines : list string) : option nat :=
  match lines with
  | [] => None
  | line :: rest =>
      let state := updateFenceState line state in
      if negb (inFence state) && bool_decide (is_Some (titleOfLine line)) then Some 0
      else S <$> titleLine state rest
  end.

End TitleLine.

(** ** Vocabulary of the component tags *)

Module Components.
Import Rx Re Markdown.

(** The inline components whose text is never empty. *)
Definition labelled : list string := ["since"; "todo"; "journey"; "see"].

(** The names of the tags [replaceComponentTags] finds in a line. *)
Definition tagsOf (line : string) : list string :=
  map tagNameOf (pieces COMPONENT_TAG_RE line).1.

End Components.

(** ** Collecting the files ([build.ts])

    [resolveDocsRoot], [collectMarkdownFiles] and [toPosixPath].  The
    file system below the documentation root is a tree of directory
    entries, as [fs.readdir] with [withFileTypes] lists them; a directory
    that cannot be read has no listing, and [readdir] then rejects. *)

Module Collect.
Import Build.

Unset Elimination Schemes.
Inductive Dirent :=
| File (name : string)
| Directory (name : string) (listing : option (list Dirent))
| Other (name : string).
Set Elimination Schemes.

Definition name (entry : Dirent) : string :=
  match entry with
  | File n | Directory n _ | Other n => n
  end.

Definition isDirectory (entry : Dirent) : bool :=
  match entry with Directory _ _ => true | _ => false end.

Definition isFile (entry : Dirent) : bool :=
  match entry with File _ => true | _ => false end.

Definition listingOf (entry : Dirent) : option (list Dirent) :=
  match entry with Directory _ listing => listing | _ => None end.

(** [entry.isFile() && entry.name.toLowerCase().endsWith('.md')] *)
Definition isMarkdownFile (entry : Dirent) : bool :=
  isFile entry && Str.endsWith ".md" (Str.toLowerCase (name entry)).

(** The number of directory levels below a listing. *)
Fixpoint depthOf (entry : Dirent) : nat :=
  match entry with
  | Directory _ (Some entries) => S (list_max (map depthOf entries))
  | _ => 0
  end.

Definition depth (listing : option (list Dirent)) : nat :=
  match listing with
  | Some entries => S (list_max (map depthOf entries))
  | None => 0
  end.

Section WithOrder.
Variable localeCompare : string → string → Z.

(** The [for (const dir of dirs)] loop, with the recursive call
    abstracted as [collect]; [None] is a rejected promise. *)
Fixpoint collectLoop (collect : string → option (list Dirent) → option (list string))
    (rootDir : string) (dirs : list Dirent) (files : list string)
    : option (list string) :=
  match dirs with
  | [] => Some files
  | dir :: dirs' =>
      let childPath := Path.join [rootDir; name dir] in
      match collect childPath (listingOf dir) with
      | None => None
      | Some childFiles => collectLoop collect rootDir dirs' (files ++ childFiles)
      end
  end.

(** [collectMarkdownFiles(rootDir)], where [listing] is what
    [fs.readdir(rootDir)] gives.  Each call goes one directory level
    down; [fuel] counts the levels. *)
Fixpoint collectFiles (fuel : nat) (rootDir : string) (listing : option (list Dirent))
    : option (list string) :=
  match fuel with
  | 0 => None
  | S fuel' =>
      match listing with
      | None => None
      | Some entries =>
          let dirs := sortBy localeCompare name (List.filter isDirectory entries) in
          let mdFiles := sortBy localeCompare name (List.filter isMarkdownFile entries) in
          let files := map (λ file, Path.join [rootDir; name file]) mdFiles in
          collectLoop (collectFiles fuel') rootDir dirs files
      end
  end.

Definition collectMarkdownFiles (rootDir : string) (listing : option (list Dirent))
    : option (list string) :=
  collectFiles (S (depth listing)) rootDir listing.

End WithOrder.

(** [resolveDocsRoot]: [access] tells whether [fs.access] resolves;
    [inl] is the message of the error thrown. *)
Fixpoint firstAccessible (access : string → bool) (candidates : list string)
    : option string :=
  match candidates with
  | [] => None
  | candidate :: rest =>
      if access candidate then Some candidate else firstAccessible access rest
  end.

Definition resolveDocsRoot (access : string → bool) (candidates : list string)
    : string + string :=
  match firstAccessible access candidates with
  | Some candidate => inr candidate
  | None => inl ("Docs path not found. Checked: " +:+ Str.join ", " candidates)
  end.

(** [toPosixPath], for the separator [sep] of the platform. *)
Definition toPosixPath (sep : ascii) (filePath : string) : string :=
  Str.join "/" (Str.splitOn sep filePath).

(** *** Vocabulary of the properties *)

(** Every directory of the tree can be read. *)
Fixpoint readableEntry (entry : Dirent) : bool :=
  match entry with
  | Directory _ (Some entries) => forallb readableEntry entries
  | Directory _ None => false
  | _ => true
  end.

Definition readable (listing : option (list Dirent)) : bool :=
  match listing with
  | Some entries => forallb readableEntry entries
  | None => false
  end.

(** The Markdown files of the tree, in the order of the listings. *)
Fixpoint markdownUnder (dir : string) (entry : Dirent) : list string :=
  match entry with
  | File n =>
      if isMarkdownFile entry then [Path.join [dir; n]] else []
  | Directory n (Some entries) =>
      concat (map (markdownUnder (Path.join [dir; n])) entries)
  | _ => []
  end.

Definition markdownIn (rootDir : string) (entries : list Dirent) : list string :=
  concat (map (markdownUnder rootDir) entries).

(** A separator becomes a slash. *)
Definition slashFor (sep : ascii) (c : ascii) : ascii :=
  if Char.same sep c then "/"%char else c.

End Collect.

(** ** Vocabulary of the parts of a link *)

Module LinkParts.

(** What follows the path of a link: nothing, a query string or a
    fragment. *)
Definition tail_marked (rest : string) : Prop :=
  rest = "" ∨ Str.startsWith "?" rest = true ∨ Str.startsWith "#" rest = true.

(** The characters of a URI scheme after its first letter, and the
    test that a text starts with a scheme. *)
Definition schemeChar : ascii → bool :=
  Char.either Char.alpha (Char.either Char.digit (Char.oneOf "+.-")).

Definition schemeAt (s : string) : bool :=
  match s with
  | String a s1 => Char.alpha a && Str.startsWith ":" (Str.dropWhile schemeChar s1)
  | "" => false
  end.

(** [path], [query] and [hash] are the three parts of a link:
    the query starts at the first question mark before any number sign,
    the fragment at the first number sign. *)
Definition parts (path query hash : string) : Prop :=
  Str.allChars (Char.non (Char.same "?")) path = true
  ∧ Str.allChars (Char.non (Char.same "#")) (path +:+ query) = true
  ∧ (query = "" ∨ Str.startsWith "?" query = true)
  ∧ (hash = "" ∨ Str.startsWith "#" hash = true).

End LinkParts.

(** ** Vocabulary of the link destination *)

Module Destination.
Import Markdown.

Definition nonSpace : ascii → bool := Char.non Char.space.

(** The white space a text ends with. *)
Definition wsTail (s : string) : string := Str.drop (Str.len (Str.trimEnd s)) s.

(** The destination without the white space around it, rewritten: the
    URL is what stands between angle brackets, or else what comes before
    the first white space. *)
Definition plainCore (currentFilePath baseUrl inner : string) : string :=
  normalizeDocLink (Str.takeWhile nonSpace inner) currentFilePath baseUrl
    +:+ Str.dropWhile nonSpace inner.

Definition core (currentFilePath baseUrl inner : string) : string :=
  if Str.startsWith "<" inner then
    match Str.indexOf ">" inner with
    | Some e =>
        "<" +:+ normalizeDocLink (Str.slice 1 e inner) currentFilePath baseUrl
          +:+ ">" +:+ Str.sliceFrom (e + 1) inner
    | None => plainCore currentFilePath baseUrl inner
    end
  else plainCore currentFilePath baseUrl inner.

End Destination.

(** ** Vocabulary of one-line texts *)

Module Spacing.

Definition startsWithSpace (s : string) : bool :=
  match s with
  | String b _ => Char.space b
  | "" => false
  end.

(** Every white-space character of the text is a blank, and no white
    space follows it. *)
Fixpoint spaced (s : string) : bool :=
  match s with
  | "" => true
  | String a s' =>
      (if Char.space a then Char.same " " a && negb (startsWithSpace s') else true)
      && spaced s'
  end.

(** A text without a line feed or a carriage return. *)
Definition unbroken (s : string) : bool := Str.allChars (Char.non Char.newline) s.

End Spacing.

(** * Properties *)

(** ** Strings *)

Module StrFacts.
Import Str.

Lemma sapp_cons a s t : String a s +:+ t = String a (s +:+ t).
Proof. reflexivity. Qed.

Lemma sapp_nil_l s : "" +:+ s = s.
Proof. reflexivity. Qed.

Lemma sapp_nil_r s : s +:+ "" = s.
Proof. induction s as [|a s IH]; [done|]. by rewrite sapp_cons, IH. Qed.

Lemma sapp_assoc s t u : (s +:+ t) +:+ u = s +:+ t +:+ u.
Proof. induction s as [|a s IH]; [done|]. by rewrite !sapp_cons, IH. Qed.

Lemma len_app s t : len (s +:+ t) = len s + len t.
Proof. induction s as [|a s IH]; [done|]. rewrite sapp_cons. simpl. by rewrite IH. Qed.

Lemma same_true a b : Char.same a b = true ↔ a = b.
Proof. unfold Char.same. apply Ascii.eqb_eq. Qed.

Lemma same_false a b : Char.same a b = false ↔ a ≠ b.
Proof. unfold Char.same. apply Ascii.eqb_neq. Qed.

Lemma same_refl a : Char.same a a = true.
Proof. by apply same_true. Qed.

Lemma startsWith_app p s : Str.startsWith p s = true → ∃ t, s = p +:+ t.
Proof.
  revert s. induction p as [|a p IH]; intros s; simpl.
  - by exists s.
  - destruct s as [|b s]; [done|]. intros [->%same_true H]%andb_true_iff.
    destruct (IH _ H) as [t ->]. by exists t.
Qed.


Abbreviation noSlash := (Str.allChars (Char.non (Char.same "/"))).

Ltac sapp_norm := repeat first [rewrite sapp_cons | rewrite sapp_nil_l].
Ltac sapp_norm_in H := repeat first [rewrite sapp_cons in H | rewrite sapp_nil_l in H].

Lemma str_take_drop n s : take n s +:+ drop n s = s.
Proof.
  revert s. induction n as [|n IH]; intros [|a s]; simpl; try done.
  by rewrite sapp_cons, IH.
Qed.

Lemma len_take n s : len (take n s) = Nat.min n (len s).
Proof. revert s. induction n as [|n IH]; intros [|a s]; simpl; auto. Qed.

Lemma len_drop n s : len (drop n s) = len s - n.
Proof. revert s. induction n as [|n IH]; intros [|a s]; simpl; auto. Qed.

Lemma str_take_app s t : take (len s) (s +:+ t) = s.
Proof. induction s as [|a s IH]; [by destruct t|]. rewrite sapp_cons. simpl. by rewrite IH. Qed.

Lemma str_drop_app s t : drop (len s) (s +:+ t) = t.
Proof. induction s as [|a s IH]; [by destruct t|]. by rewrite sapp_cons. Qed.

Lemma app_inv_len s1 s2 t1 t2 :
  s1 +:+ t1 = s2 +:+ t2 → len s1 = len s2 → s1 = s2 ∧ t1 = t2.
Proof.
  revert s2. induction s1 as [|a s1 IH]; intros [|b s2]; simpl; try done.
  rewrite !sapp_cons. intros [= -> H] [= Hl]. destruct (IH _ H Hl) as [-> ->]. done.
Qed.

Lemma endsWith_spec x s : endsWith x s = true ↔ ∃ s0, s = s0 +:+ x.
Proof.
  unfold endsWith. rewrite andb_true_iff, Nat.leb_le, String.eqb_eq. split.
  - intros [Hl Hd]. exists (take (len s - len x) s).
    rewrite <- Hd at 2. by rewrite str_take_drop.
  - intros [s0 ->]. rewrite len_app. split; [lia|].
    replace (len s0 + len x - len x) with (len s0) by lia. apply str_drop_app.
Qed.

Lemma mapChars_app f s t : mapChars f (s +:+ t) = mapChars f s +:+ mapChars f t.
Proof. induction s as [|a s IH]; [done|]. rewrite sapp_cons. simpl. by rewrite IH. Qed.

Lemma len_mapChars f s : len (mapChars f s) = len s.
Proof. induction s as [|a s IH]; simpl; auto. Qed.

Lemma mapChars_split f p u v :
  mapChars f p = u +:+ v →
  ∃ p1 p2, p = p1 +:+ p2 ∧ mapChars f p1 = u ∧ mapChars f p2 = v.
Proof.
  revert p. induction u as [|a u IH]; intros p H.
  - exists "", p. done.
  - destruct p as [|b p]; [done|]. rewrite sapp_cons in H. simpl in H.
    injection H as Ha H. destruct (IH _ H) as (p1 & p2 & -> & <- & <-).
    exists (String b p1), p2. by rewrite <- Ha.
Qed.

Lemma allChars_app q s t : allChars q (s +:+ t) = allChars q s && allChars q t.
Proof. induction s as [|a s IH]; [done|]. rewrite sapp_cons. simpl. by rewrite IH, andb_assoc. Qed.

Lemma splitOn_nonempty sep s : splitOn sep s ≠ [].
Proof.
  destruct s as [|a s]; simpl; [done|].
  destruct (Char.same sep a); [done|]. by destruct (splitOn sep s).
Qed.

Lemma join_cons sep x y ys : join sep (x :: y :: ys) = x +:+ sep +:+ join sep (y :: ys).
Proof. reflexivity. Qed.

Lemma splitOn_join sep s : join (String sep "") (splitOn sep s) = s.
Proof.
  induction s as [|a s IH]; [done|]. simpl.
  destruct (Char.same sep a) eqn:Ha.
  - apply same_true in Ha as <-.
    pose proof (splitOn_nonempty sep s) as Hne.
    destruct (splitOn sep s) as [|y ys]; [done|].
    rewrite join_cons, IH. done.
  - pose proof (splitOn_nonempty sep s) as Hne.
    destruct (splitOn sep s) as [|y ys]; [done|].
    destruct ys as [|z zs].
    + simpl in *. by rewrite IH.
    + rewrite join_cons in *. rewrite sapp_cons. by rewrite IH.
Qed.

Lemma splitOn_segments sep s :
  Forall (λ seg, allChars (Char.non (Char.same sep)) seg = true) (splitOn sep s).
Proof.
  induction s as [|a s IH]; simpl; [by repeat constructor|].
  destruct (Char.same sep a) eqn:Ha; [by constructor|].
  destruct (splitOn sep s) as [|y ys].
  { constructor; [|done]. simpl. unfold Char.non. by rewrite Ha. }
  apply Forall_cons in IH as [Hy Hys]. constructor; [|done].
  simpl. unfold Char.non at 1. by rewrite Ha.
Qed.

Lemma join_snoc sep xs x :
  xs ≠ [] → join sep (xs ++ [x]) = join sep xs +:+ sep +:+ x.
Proof.
  induction xs as [|y ys IH]; [done|]. intros _.
  destruct ys as [|z zs]; [done|].
  change ((y :: z :: zs) ++ [x]) with (y :: (z :: zs) ++ [x]).
  simpl ((z :: zs) ++ [x]). rewrite !join_cons.
  change (z :: zs ++ [x]) with ((z :: zs) ++ [x]). rewrite IH by done.
  by rewrite !sapp_assoc.
Qed.

Lemma srev_onto_app s acc : rev_onto s acc = rev s +:+ acc.
Proof.
  unfold rev. revert acc. induction s as [|a s IH]; intros acc; simpl; [done|].
  rewrite (IH (String a acc)), (IH (String a "")). by rewrite sapp_assoc.
Qed.

Lemma srev_cons a s : rev (String a s) = rev s +:+ String a "".
Proof. unfold rev at 1. simpl. apply srev_onto_app. Qed.

Lemma srev_app s t : rev (s +:+ t) = rev t +:+ rev s.
Proof.
  induction s as [|a s IH]; [by rewrite sapp_nil_l, sapp_nil_r|].
  by rewrite sapp_cons, !srev_cons, IH, sapp_assoc.
Qed.

Lemma srev_involutive s : rev (rev s) = s.
Proof. induction s as [|a s IH]; [done|]. by rewrite srev_cons, srev_app, IH. Qed.

Lemma allChars_rev q s : allChars q (rev s) = allChars q s.
Proof.
  induction s as [|a s IH]; [done|]. rewrite srev_cons, allChars_app, IH. simpl.
  by rewrite andb_true_r, andb_comm.
Qed.

Lemma srev_empty s : isEmpty (rev s) = isEmpty s.
Proof. destruct s as [|a s]; [done|]. rewrite srev_cons. by destruct (rev s). Qed.

Lemma dropWhile_all q s : allChars q s = true → dropWhile q s = "".
Proof.
  induction s as [|a s IH]; [done|]. simpl. intros [-> H]%andb_true_iff. auto.
Qed.

Lemma dropWhile_none q s : allChars (Char.non q) s = true → dropWhile q s = s.
Proof.
  destruct s as [|a s]; [done|]. simpl. unfold Char.non at 1.
  intros [Ha _]%andb_true_iff. by destruct (q a).
Qed.

Lemma dropWhile_head q a s : q a = false → dropWhile q (String a s) = String a s.
Proof. simpl. by intros ->. Qed.

Lemma dropWhile_stop q s a t :
  allChars q s = true → q a = false → dropWhile q (s +:+ String a t) = String a t.
Proof.
  intros Hs Ha. induction s as [|b s IH]; sapp_norm; simpl.
  - by rewrite Ha.
  - simpl in Hs. apply andb_true_iff in Hs as [-> Hs]. auto.
Qed.

Lemma take_takeWhile p s : take (len s - len (dropWhile p s)) s = takeWhile p s.
Proof.
  induction s as [|a s IH]; [done|]. cbn [takeWhile dropWhile]. destruct (p a).
  - assert (len (dropWhile p s) ≤ len s).
    { clear. induction s as [|b s IH]; simpl; [done|]. destruct (p b); simpl; lia. }
    cbn [len]. replace (S (len s) - len (dropWhile p s))
      with (S (len s - len (dropWhile p s))) by lia.
    simpl. by rewrite IH.
  - by rewrite Nat.sub_diag.
Qed.

Lemma dropWhile_shape p s :
  dropWhile p s = "" ∨ ∃ b rest, dropWhile p s = String b rest ∧ p b = false.
Proof.
  induction s as [|a s IH]; simpl; [by left|].
  destruct (p a) eqn:Hp; [done|]. right. eauto.
Qed.

Lemma last_nonempty t d : t ≠ "" → ∃ a, Str.last t d = Some a.
Proof.
  revert d. induction t as [|a t IH]; intros d Ht; [done|]. simpl.
  destruct t as [|b t]; [by exists a|]. by apply IH.
Qed.

Lemma startsWith_run a s :
  Str.startsWith (String a "") s = (1 <=? len (takeWhile (Char.same a) s)).
Proof.
  destruct s as [|b s]; [done|]. cbn [takeWhile Str.startsWith].
  destruct (Char.same a b); [|done]. by destruct s.
Qed.

End StrFacts.

(** ** The matcher *)

Module RxFacts.
Import Rx StrFacts Str.

Lemma search_bol r a s : search (Seq Bol r) (Some a) s = None.
Proof.
  revert a. induction s as [|b s IH]; intros a; simpl; [done|].
  unfold matchAt. simpl. by rewrite IH.
Qed.

Lemma exec_bol r s : exec (Seq Bol r) s = matchAt (Seq Bol r) None s.
Proof.
  unfold exec. destruct s as [|a s]; simpl.
  - by destruct (matchAt _ _ _).
  - destruct (matchAt _ _ _); [done|]. by rewrite search_bol.
Qed.

(** *** Progress: a match lies at the start of the input *)

Lemma ahead_refl s : ahead false s s.
Proof. exists "". done. Qed.

Lemma ahead_cons strict a s s' : ahead false s s' → ahead strict (String a s) s'.
Proof. intros (u & -> & _). exists (String a u). done. Qed.

Lemma ahead_trans b1 b2 s1 s2 s3 :
  ahead b1 s1 s2 → ahead b2 s2 s3 → ahead (b1 || b2) s1 s3.
Proof.
  intros (u & -> & Hu) (v & -> & Hv). exists (u +:+ v). rewrite sapp_assoc. split; [done|].
  intros [->| ->]%orb_true_iff.
  - destruct u; [by destruct Hu|done].
  - destruct v; [by destruct Hv|]. by destruct u.
Qed.

Lemma ahead_weaken b s s' : ahead b s s' → ahead false s s'.
Proof. intros (u & -> & _). by exists u. Qed.

Lemma many_progress {R} greedy p (k : cont R) :
  ∀ s lo hi prev c x,
    many greedy p lo hi prev s c k = Some x →
    ∃ prev' s' c', k prev' s' c' = Some x ∧ ahead (0 <? lo) s s'.
Proof.
  induction s as [|a s IH]; intros lo hi prev c x H.
  - simpl in H. destruct lo; [|by destruct greedy].
    exists prev, "", c. split; [|apply ahead_refl].
    destruct greedy; [done|]. by destruct (k prev "" c).
  - cbn [many] in H.
    set (more := if p a && negb (exhausted hi)
                 then many greedy p (Nat.pred lo) (Nat.pred <$> hi) (Some a) s c k
                 else None) in *.
    assert (Hmore : ∀ y, more = Some y →
              ∃ prev' s' c', k prev' s' c' = Some y ∧ ahead (0 <? lo) (String a s) s').
    { subst more. destruct (p a && negb (exhausted hi)); [|done]. intros y Hy.
      destruct (IH _ _ _ _ _ Hy) as (prev' & s' & c' & Hk & Ha).
      exists prev', s', c'. split; [done|]. apply ahead_cons. by eapply ahead_weaken. }
    assert (Hstop : ∀ y, match lo with 0 => k prev (String a s) c | S _ => None end = Some y →
              ∃ prev' s' c', k prev' s' c' = Some y ∧ ahead (0 <? lo) (String a s) s').
    { destruct lo; [|done]. intros y Hy. exists prev, (String a s), c.
      split; [done|apply ahead_refl]. }
    destruct greedy.
    + destruct more as [y|]; [injection H as ->; by apply Hmore|by apply Hstop].
    + destruct (match lo with 0 => _ | S _ => None end) as [y|];
        [injection H as ->; by apply Hstop|by apply Hmore].
Qed.

Lemma run_progress {R} r : ∀ (k : cont R) prev s c x,
  run r prev s c k = Some x →
  ∃ prev' s' c', k prev' s' c' = Some x ∧ ahead (consuming r) s s'.
Proof.
  induction r as [|p|g lo hi p|r1 IH1 r2 IH2|r1 IH1 r2 IH2|r1 IH1|i r1 IH1| | |p];
    intros k prev s c x H; simpl in H.
  - exists prev, s, c. split; [done|apply ahead_refl].
  - destruct s as [|a s]; [done|]. destruct (p a); [|done].
    exists (Some a), s, c. split; [done|]. exists (String a ""). done.
  - simpl. eapply many_progress. exact H.
  - destruct (IH1 _ _ _ _ _ H) as (p1 & s1 & c1 & H1 & A1).
    destruct (IH2 _ _ _ _ _ H1) as (p2 & s2 & c2 & H2 & A2).
    exists p2, s2, c2. split; [done|]. by eapply ahead_trans.
  - destruct (run r1 prev s c k) as [y|] eqn:H1.
    + injection H as ->. destruct (IH1 _ _ _ _ _ H1) as (p1 & s1 & c1 & Hk & A1).
      exists p1, s1, c1. split; [done|]. simpl.
      destruct A1 as (u & -> & Hu). exists u. split; [done|].
      intros [? _]%andb_true_iff. auto.
    + destruct (IH2 _ _ _ _ _ H) as (p1 & s1 & c1 & Hk & A1).
      exists p1, s1, c1. split; [done|]. simpl.
      destruct A1 as (u & -> & Hu). exists u. split; [done|].
      intros [_ ?]%andb_true_iff. auto.
  - destruct (run r1 prev s c k) as [y|] eqn:H1.
    + injection H as ->. destruct (IH1 _ _ _ _ _ H1) as (p1 & s1 & c1 & Hk & A1).
      exists p1, s1, c1. split; [done|]. by eapply ahead_weaken.
    + exists prev, s, c. split; [done|apply ahead_refl].
  - destruct (IH1 _ _ _ _ _ H) as (p1 & s1 & c1 & Hk & A1). eauto.
  - destruct prev; [done|]. exists None, s, c. split; [done|apply ahead_refl].
  - destruct s; [|done]. exists prev, "", c. split; [done|apply ahead_refl].
  - exists prev, s, c. split; [|apply ahead_refl].
    destruct prev as [a|]; [|done]. by destruct (p a).
Qed.

Lemma matchAt_spec r prev s m :
  matchAt r prev s = Some m →
  pre m = "" ∧ s = text m +:+ post m ∧ (consuming r = true → text m ≠ "").
Proof.
  unfold matchAt. intros H.
  destruct (run_progress _ _ _ _ _ _ H) as (p' & s' & c' & Hk & u & -> & Hu).
  injection Hk as <-. simpl. rewrite len_app.
  replace (len u + len s' - len s') with (len u) by lia.
  rewrite str_take_app. auto.
Qed.

Lemma search_spec r : ∀ s prev m,
  search r prev s = Some m →
  s = pre m +:+ text m +:+ post m ∧ (consuming r = true → text m ≠ "").
Proof.
  induction s as [|a s IH]; intros prev m H; simpl in H.
  - destruct (matchAt r prev "") as [m0|] eqn:Hm; [|done]. injection H as ->.
    destruct (matchAt_spec _ _ _ _ Hm) as (-> & ? & ?). done.
  - destruct (matchAt r prev (String a s)) as [m0|] eqn:Hm.
    + injection H as ->. destruct (matchAt_spec _ _ _ _ Hm) as (-> & ? & ?). done.
    + destruct (search r (Some a) s) as [m1|] eqn:Hs; [|done]. injection H as <-.
      destruct (IH _ _ Hs) as [Heq Hne]. simpl. split; [|done].
      rewrite sapp_cons. by f_equal.
Qed.

(** *** Patterns that do not look behind *)

Lemma many_prev {R} greedy p (k : cont R) :
  blind k → ∀ s lo hi p1 p2 c,
    many greedy p lo hi p1 s c k = many greedy p lo hi p2 s c k.
Proof.
  intros Hk. destruct s as [|a s]; intros lo hi p1 p2 c; cbn [many];
    by rewrite (Hk p1 p2).
Qed.

Lemma run_prev {R} r :
  prevFree r = true → ∀ (k : cont R), blind k → blind (λ prev s c, run r prev s c k).
Proof.
  induction r as [|p|g lo hi p|r1 IH1 r2 IH2|r1 IH1 r2 IH2|r1 IH1|i r1 IH1| | |p];
    intros Hr k Hk p1 p2 s c; simpl in *.
  - apply Hk.
  - done.
  - by apply many_prev.
  - apply andb_true_iff in Hr as [Hr1 Hr2]. apply (IH1 Hr1). by apply IH2.
  - apply andb_true_iff in Hr as [Hr1 Hr2].
    rewrite (IH1 Hr1 k Hk p1 p2), (IH2 Hr2 k Hk p1 p2). done.
  - rewrite (IH1 Hr k Hk p1 p2), (Hk p1 p2). done.
  - apply (IH1 Hr). intros q1 q2 s' c'. apply Hk.
  - done.
  - by rewrite (Hk p1 p2).
  - done.
Qed.

Lemma matchAt_prev r p1 p2 s : prevFree r = true → matchAt r p1 s = matchAt r p2 s.
Proof. intros Hr. unfold matchAt. by apply (run_prev r Hr). Qed.

Lemma search_prev r : prevFree r = true → ∀ s p1 p2, search r p1 s = search r p2 s.
Proof.
  intros Hr. destruct s as [|a s]; intros p1 p2; simpl;
    by rewrite (matchAt_prev r p1 p2).
Qed.

(** *** Global replacement *)

Lemma scan_step n r prev s :
  consuming r = true →
  scan (S n) r prev s
  = match search r prev s with
    | None => ([], s)
    | Some m =>
        let '(ms, tl) := scan n r (Str.last (pre m +:+ text m) prev) (post m) in
        (m :: ms, tl)
    end.
Proof.
  intros Hr. cbn [scan]. destruct (search r prev s) as [m|] eqn:Hs; [|done].
  destruct (search_spec _ _ _ _ Hs) as [_ Hne].
  destruct (text m); [by destruct (Hne Hr)|done].
Qed.

Lemma scan_prev r : consuming r = true → prevFree r = true →
  ∀ n s p1 p2, scan n r p1 s = scan n r p2 s.
Proof.
  intros Hc Hr. induction n as [|n IH]; intros s p1 p2; [done|].
  rewrite !scan_step by done. rewrite (search_prev r Hr s p1 p2).
  destruct (search r p2 s) as [m|]; [|done].
  by rewrite (IH _ (Str.last (pre m +:+ text m) p1) (Str.last (pre m +:+ text m) p2)).
Qed.

Lemma scan_fuel r : consuming r = true →
  ∀ n n' s prev, len s < n → len s < n' → scan n r prev s = scan n' r prev s.
Proof.
  intros Hc. induction n as [|n IH]; intros n' s prev Hn Hn'; [lia|].
  destruct n' as [|n']; [lia|]. rewrite !scan_step by done.
  destruct (search r prev s) as [m|] eqn:Hs; [|done].
  destruct (search_spec _ _ _ _ Hs) as [Heq Hne]. specialize (Hne Hc).
  assert (len (post m) < len s).
  { apply (f_equal len) in Heq. rewrite !len_app in Heq.
    destruct (text m); [done|]. simpl in Heq. lia. }
  rewrite (IH n'); [done|lia|lia].
Qed.

Lemma replaceAll_stitch r f s : replaceAll r f s = stitch f (pieces r s).
Proof. unfold replaceAll, stitch. by destruct (pieces r s). Qed.

Lemma stitch_from r f n prev s :
  consuming r = true → prevFree r = true → len s < n →
  stitch f (scan n r prev s) = replaceAll r f s.
Proof.
  intros Hc Hr Hn. rewrite replaceAll_stitch. unfold pieces.
  rewrite (scan_prev r Hc Hr n s prev None).
  by rewrite (scan_fuel r Hc n (S (len s))) by lia.
Qed.

(** The scan of a global replacement, one position at a time: a match at
    the position is replaced and the scan goes on after it; without one,
    the character stays. *)
Lemma replaceAll_unfold r f :
  consuming r = true → prevFree r = true → (∀ a m, f (shift a m) = f m) →
  replaceAll r f "" = ""
  ∧ ∀ a s, replaceAll r f (String a s)
           = match matchAt r None (String a s) with
             | Some m => f m +:+ replaceAll r f (post m)
             | None => String a (replaceAll r f s)
             end.
Proof.
  intros Hc Hr Hf. split.
  - rewrite replaceAll_stitch. unfold pieces. rewrite scan_step by done. simpl.
    destruct (matchAt r None "") as [m|] eqn:Hm; [|done].
    destruct (matchAt_spec _ _ _ _ Hm) as (_ & Heq & Hne).
    destruct (text m); [by destruct (Hne Hc)|done].
  - intros a s. rewrite replaceAll_stitch at 1. unfold pieces.
    rewrite scan_step by done. cbn [search].
    destruct (matchAt r None (String a s)) as [m|] eqn:Hm.
    + destruct (matchAt_spec _ _ _ _ Hm) as (Hpre & Heq & Hne). specialize (Hne Hc).
      assert (len (post m) < len (String a s)).
      { apply (f_equal len) in Heq. rewrite !len_app in Heq.
        destruct (text m); [done|]. simpl in *. lia. }
      pose proof (stitch_from r f (len (String a s))
                    (Str.last (pre m +:+ text m) None) (post m) Hc Hr H) as Hst.
      destruct (scan _ r _ (post m)) as [ms tl]. unfold stitch in *. simpl in *.
      by rewrite Hst, Hpre.
    + rewrite (search_prev r Hr s (Some a) None).
      rewrite (replaceAll_stitch r f s). unfold pieces. rewrite scan_step by done.
      destruct (search r None s) as [m|] eqn:Hs; [|done]. simpl.
      destruct (search_spec _ _ _ _ Hs) as [Heq Hne]. specialize (Hne Hc).
      assert (len (post m) < len s).
      { apply (f_equal len) in Heq. rewrite !len_app in Heq.
        destruct (text m); [done|]. simpl in Heq. lia. }
      pose proof (scan_fuel r Hc (len (String a s)) (len s) (post m)
                    (Str.last (pre m +:+ text m) None)) as Hfu.
      pose proof (scan_prev r Hc Hr (len (String a s)) (post m)
                    (Str.last (String a (pre m) +:+ text m) None)
                    (Str.last (pre m +:+ text m) None)) as Hpr.
      simpl in Hfu, Hpr. rewrite Hpr, Hfu by lia.
      destruct (scan (len s) r _ (post m)) as [ms tl]. unfold stitch. simpl.
      by rewrite Hf.
Qed.

(** *** Greedy runs *)

Lemma many_longest {R} p (k : cont R) :
  (∀ prev a s c, p a = true → k prev (String a s) c = None) →
  ∀ s lo prev c,
    many true p lo None prev s c k
    = if lo <=? len (takeWhile p s)
      then k (Str.last (takeWhile p s) prev) (dropWhile p s) c
      else None.
Proof.
  intros Hk. induction s as [|a s IH]; intros lo prev c.
  - simpl. by destruct lo.
  - cbn [many takeWhile dropWhile]. destruct (p a) eqn:Hp.
    + simpl. rewrite IH. cbn [len Str.last].
      replace (lo <=? S (len (takeWhile p s)))
        with (Nat.pred lo <=? len (takeWhile p s)).
      2:{ destruct lo; simpl; [by destruct (len _)|done]. }
      destruct (Nat.pred lo <=? len (takeWhile p s)).
      * destruct (k _ _ _); [done|]. destruct lo; [by apply Hk|done].
      * destruct lo; [by apply Hk|done].
    + simpl. by destruct lo.
Qed.

Lemma many_first {R} p (k : cont R) :
  ∀ s lo prev c x,
    lo ≤ len (takeWhile p s) →
    k (Str.last (takeWhile p s) prev) (dropWhile p s) c = Some x →
    many true p lo None prev s c k = Some x.
Proof.
  induction s as [|a s IH]; intros lo prev c x Hlo Hk.
  - simpl in *. replace lo with 0 by lia. by rewrite Hk.
  - cbn [many takeWhile dropWhile] in *. destruct (p a) eqn:Hp.
    + simpl in *. rewrite (IH (Nat.pred lo) (Some a) c x); [done|lia|done].
    + simpl in *. replace lo with 0 by lia. by rewrite Hk.
Qed.

Lemma many_total {R} p (k : cont R) :
  (∀ prev s c, is_Some (k prev s c)) →
  ∀ s lo prev c,
    many true p lo None prev s c k
    = if lo <=? len (takeWhile p s)
      then k (Str.last (takeWhile p s) prev) (dropWhile p s) c
      else None.
Proof.
  intros Hk. induction s as [|a s IH]; intros lo prev c.
  - simpl. by destruct lo.
  - cbn [many takeWhile dropWhile]. destruct (p a) eqn:Hp.
    + simpl. rewrite IH. cbn [len Str.last].
      replace (lo <=? S (len (takeWhile p s)))
        with (Nat.pred lo <=? len (takeWhile p s)).
      2:{ destruct lo; simpl; [by destruct (len _)|done]. }
      destruct (Nat.pred lo <=? len (takeWhile p s)) eqn:Hlo.
      * destruct (Hk (Str.last (takeWhile p s) (Some a)) (dropWhile p s) c) as [x ->].
        done.
      * destruct lo; [|done]. simpl in Hlo. by destruct (len _).
    + simpl. by destruct lo.
Qed.

(** *** Anchored patterns *)

Lemma search_none_bol r s :
  matchAt (Seq Bol r) None s = None → search (Seq Bol r) None s = None.
Proof.
  intros H. destruct s as [|a s]; simpl; rewrite H; [done|]. by rewrite search_bol.
Qed.

(** An anchored pattern is replaced at the start of the input only. *)
Lemma replaceAll_bol r f s :
  consuming (Seq Bol r) = true →
  replaceAll (Seq Bol r) f s
  = match matchAt (Seq Bol r) None s with
    | Some m => f m +:+ post m
    | None => s
    end.
Proof.
  intros Hc. rewrite replaceAll_stitch. unfold pieces. rewrite scan_step by done.
  destruct (matchAt (Seq Bol r) None s) as [m|] eqn:Hm.
  - assert (search (Seq Bol r) None s = Some m) as ->.
    { destruct s; simpl; by rewrite Hm. }
    destruct (matchAt_spec _ _ _ _ Hm) as (Hpre & Heq & Hne). specialize (Hne Hc).
    rewrite Hpre. sapp_norm.
    destruct (last_nonempty (text m) None Hne) as [a ->].
    assert (scan (len s) (Seq Bol r) (Some a) (post m) = ([], post m)) as ->.
    { destruct (len s); [done|]. rewrite scan_step by done. by rewrite search_bol. }
    unfold stitch. simpl. rewrite Hpre. by sapp_norm.
  - by rewrite search_none_bol.
Qed.

(** *** Longer inputs *)

Lemma many_extend {R R'} t greedy p (k : cont R) (k' : cont R') :
  extends t k k' →
  ∀ s lo hi prev c c' x,
    many greedy p lo hi prev s c k = Some x →
    ∃ x', many greedy p lo hi prev (s +:+ t) c' k' = Some x'.
Proof.
  intros Hk. induction s as [|a s IH]; intros lo hi prev c c' x H.
  - rewrite sapp_nil_l. simpl in H.
    assert (Hstop : lo = 0 ∧ k prev "" c = Some x).
    { destruct greedy, lo; try done; split; try done.
      by destruct (k prev "" c). }
    destruct Hstop as [-> Hstop].
    destruct (Hk _ _ _ _ Hstop c') as [y' Hy']. rewrite sapp_nil_l in Hy'.
    destruct t as [|b t]; simpl.
    + rewrite Hy'. destruct greedy; eauto.
    + destruct greedy.
      * destruct (if p b && negb (exhausted hi) then _ else None); eauto.
      * rewrite Hy'. eauto.
  - rewrite sapp_cons. cbn [many] in *.
    set (more := if p a && negb (exhausted hi)
                 then many greedy p (Nat.pred lo) (Nat.pred <$> hi) (Some a) s c k
                 else None) in *.
    set (more' := if p a && negb (exhausted hi)
                  then many greedy p (Nat.pred lo) (Nat.pred <$> hi) (Some a) (s +:+ t) c' k'
                  else None).
    assert (Hmore : ∀ y, more = Some y → ∃ y', more' = Some y').
    { subst more more'. destruct (p a && negb (exhausted hi)); [|done].
      intros y Hy. by eapply IH. }
    assert (Hstop : ∀ y, match lo with 0 => k prev (String a s) c | S _ => None end = Some y →
                         ∃ y', match lo with 0 => k' prev (String a (s +:+ t)) c'
                                     | S _ => None end = Some y').
    { destruct lo; [|done]. intros y Hy. rewrite <- sapp_cons. by eapply Hk. }
    destruct greedy.
    + destruct more as [y|] eqn:Hm.
      * destruct (Hmore y eq_refl) as [y' ->]. eauto.
      * destruct more'; eauto.
    + destruct (match lo with 0 => k prev (String a s) c | S _ => None end) as [y|] eqn:Hs.
      * destruct (Hstop y eq_refl) as [y' ->]. eauto.
      * destruct (match lo with 0 => k' prev (String a (s +:+ t)) c' | S _ => None end);
          eauto.
Qed.

Lemma run_extend {R R'} t r :
  endFree r = true →
  ∀ (k : cont R) (k' : cont R'), extends t k k' →
  ∀ prev s c c' x,
    run r prev s c k = Some x → ∃ x', run r prev (s +:+ t) c' k' = Some x'.
Proof.
  induction r as [|p|g lo hi p|r1 IH1 r2 IH2|r1 IH1 r2 IH2|r1 IH1|i r1 IH1| | |p];
    intros Hr k k' Hk prev s c c' x H; simpl in Hr.
  - by eapply Hk.
  - destruct s as [|a s]; [done|]. rewrite sapp_cons. simpl in *.
    destruct (p a); [|done]. by eapply Hk.
  - by eapply many_extend.
  - apply andb_true_iff in Hr as [Hr1 Hr2]. simpl in *.
    eapply (IH1 Hr1); [|exact H].
    intros prev1 s1 c1 y Hy c1'. by eapply (IH2 Hr2).
  - apply andb_true_iff in Hr as [Hr1 Hr2]. simpl in *.
    destruct (run r1 prev s c k) as [y|] eqn:H1.
    + destruct (IH1 Hr1 _ _ Hk _ _ _ c' _ H1) as [y' ->]. eauto.
    + destruct (run r1 prev (s +:+ t) c' k'); eauto.
  - simpl in *. destruct (run r1 prev s c k) as [y|] eqn:H1.
    + destruct (IH1 Hr _ _ Hk _ _ _ c' _ H1) as [y' ->]. eauto.
    + destruct (run r1 prev (s +:+ t) c' k'); [eauto|by eapply Hk].
  - simpl in *. eapply (IH1 Hr); [|exact H].
    intros prev1 s1 c1 y Hy c1'. by eapply Hk.
  - simpl in *. destruct prev; [done|]. by eapply Hk.
  - done.
  - simpl in *. destruct prev as [a|]; [destruct (p a); [done|]|]; by eapply Hk.
Qed.

Lemma matchAt_extend t r prev s m :
  endFree r = true → matchAt r prev s = Some m →
  ∃ m', matchAt r prev (s +:+ t) = Some m'.
Proof.
  intros Hr H. unfold matchAt in *. eapply (run_extend t r Hr); [|exact H].
  intros prev1 s1 c1 y _ c1'. eauto.
Qed.

Lemma search_extend t r :
  endFree r = true →
  ∀ s prev m, search r prev s = Some m → ∃ m', search r prev (s +:+ t) = Some m'.
Proof.
  intros Hr. induction s as [|a s IH]; intros prev m H.
  - rewrite sapp_nil_l. simpl in H.
    destruct (matchAt r prev "") as [m0|] eqn:Hm; [|done].
    destruct (matchAt_extend t r prev "" m0 Hr Hm) as [m' Hm'].
    rewrite sapp_nil_l in Hm'. destruct t; simpl; rewrite Hm'; eauto.
  - rewrite sapp_cons. simpl in *.
    destruct (matchAt r prev (String a s)) as [m0|] eqn:Hm.
    + destruct (matchAt_extend t r prev _ m0 Hr Hm) as [m' Hm'].
      rewrite sapp_cons in Hm'. rewrite Hm'. eauto.
    + destruct (matchAt r prev (String a (s +:+ t))); [eauto|].
      destruct (search r (Some a) s) as [m1|] eqn:Hs; [|done].
      destruct (IH _ _ Hs) as [m' ->]. simpl. eauto.
Qed.

Lemma test_extend t r s : endFree r = true → test r s = true → test r (s +:+ t) = true.
Proof.
  intros Hr H. unfold test, exec in *. apply bool_decide_eq_true in H as [m Hm].
  apply bool_decide_eq_true. destruct (search_extend t r Hr _ _ _ Hm) as [m' ->]. eauto.
Qed.

End RxFacts.

(** ** Component tags: the [cloud] tag *)

Module CloudTag.
Import Rx Re Markdown StrFacts.

Lemma toLower_other a b :
  Char.toLower a = b → Char.toLower ":" ≠ b → Char.same ":" a = false.
Proof. intros H Hne. apply same_false. intros <-. contradiction. Qed.

Lemma cloud_no_colon t : Str.toLowerCase t = "cloud" → Str.includes ":" t = false.
Proof.
  destruct t as [|a1 [|a2 [|a3 [|a4 [|a5 [|a6 t]]]]]]; try discriminate.
  unfold Str.toLowerCase. intros H. simpl in H. injection H as H1 H2 H3 H4 H5.
  cbn [Str.includes Str.startsWith].
  rewrite !(toLower_other _ _ H1), !(toLower_other _ _ H2), !(toLower_other _ _ H3),
    !(toLower_other _ _ H4), !(toLower_other _ _ H5); done.
Qed.

Lemma componentText_cloud t attrs :
  Str.toLowerCase t = "cloud" → componentText t attrs = "".
Proof. intros H. unfold componentText. rewrite H. reflexivity. Qed.

(** C5, as the code has it.  The text computed for a [cloud] tag is
    always empty, whatever its attributes; [replaceComponentTags] then
    falls back to the tag name as written, so an open or self-closing
    [cloud] tag is rewritten to its bare name, and only the closing tag
    is rewritten to empty text. *)
Theorem cloud_tag_rewritten_to_its_name (m : found) (attrs : gmap string string) :
  Str.toLowerCase (tagNameOf m) = "cloud" →
  componentText (tagNameOf m) attrs = ""
  ∧ rewriteTag m = (if Str.startsWith "</" (text m) then "" else tagNameOf m).
Proof.
  intros H. split; [by apply componentText_cloud|].
  unfold rewriteTag. rewrite H.
  replace (bool_decide ("cloud" ∈ STANDARD_HTML_TAGS)) with false
    by (vm_compute; reflexivity).
  replace (bool_decide ("cloud" ∈ DROP_COMPONENT_TAGS)) with false
    by (vm_compute; reflexivity).
  replace (bool_decide ("cloud" ∈ INLINE_COMPONENT_TAGS)) with true
    by (vm_compute; reflexivity).
  destruct (Str.startsWith "</" (text m)); [done|].
  rewrite (cloud_no_colon _ H), (componentText_cloud _ _ H). reflexivity.
Qed.

(** The tag [<Cloud />] as [COMPONENT_TAG_RE] finds it. *)
Lemma cloud_tag_rewritten_to_its_name_witness :
  componentText "Cloud" ∅ = ""
  ∧ rewriteTag (Found "" "<Cloud />" [(2, " /"); (1, "Cloud")] "") = "Cloud".
Proof.
  exact (cloud_tag_rewritten_to_its_name
           (Found "" "<Cloud />" [(2, " /"); (1, "Cloud")] "") ∅ eq_refl).
Defined.

(** C5 as stated fails: outside a fence the open tag and the
    self-closing tag both leave the tag name in the line. *)
Lemma cloud_tag_not_dropped :
  stripVuePressDirectives "<cloud>" = "cloud"
  ∧ stripVuePressDirectives "a <Cloud /> b" = "a Cloud b"
  ∧ replaceComponentTags "<cloud>" ≠ "".
Proof. split; [|split]; [vm_compute; reflexivity..|vm_compute; discriminate]. Qed.

End CloudTag.

(** ** The order of the index *)

Module IndexFacts.
Import Markdown Build.

Section SortFacts.
Variable cmp : string → string → Z.
Hypothesis cmp_total : ∀ a b, precedes cmp a b ∨ precedes cmp b a.
Hypothesis cmp_trans : ∀ a b c, precedes cmp a b → precedes cmp b c → precedes cmp a c.

Context {A : Type} (key : A → string).

Lemma insertBy_perm x xs : insertBy cmp key x xs ≡ₚ x :: xs.
Proof.
  induction xs as [|y xs IH]; simpl; [done|].
  destruct (Z.leb_spec (cmp (key x) (key y)) 0); [done|].
  rewrite IH. apply Permutation_swap.
Qed.

Lemma sortBy_perm xs : sortBy cmp key xs ≡ₚ xs.
Proof.
  induction xs as [|x xs IH]; simpl; [done|].
  unfold sortBy in *. simpl. rewrite insertBy_perm. by rewrite IH.
Qed.

Lemma insertBy_sorted x xs :
  StronglySorted (byKey cmp key) xs → StronglySorted (byKey cmp key) (insertBy cmp key x xs).
Proof.
  induction 1 as [|y xs Hs IH Hy]; simpl.
  - repeat constructor.
  - destruct (Z.leb_spec (cmp (key x) (key y)) 0) as [Hle|Hgt].
    + constructor; [by constructor|].
      constructor; [done|].
      eapply Forall_impl; [exact Hy|]. intros z Hz. by eapply cmp_trans.
    + constructor; [done|].
      rewrite insertBy_perm. constructor; [|done].
      destruct (cmp_total (key y) (key x)) as [?|Hxy]; [done|].
      unfold precedes in Hxy. lia.
Qed.

Lemma sortBy_sorted xs : StronglySorted (byKey cmp key) (sortBy cmp key xs).
Proof.
  induction xs as [|x xs IH]; [constructor|].
  unfold sortBy in *. simpl. by apply insertBy_sorted.
Qed.

Lemma sorted_keys xs :
  StronglySorted (byKey cmp key) xs → StronglySorted (precedes cmp) (map key xs).
Proof.
  induction 1 as [|y xs Hs IH Hy]; simpl; constructor; [done|].
  by apply Forall_map.
Qed.

End SortFacts.

Section GroupFacts.

Lemma getGroup_inItsGroup groups g es :
  Forall inItsGroup groups → getGroup groups g = Some es →
  Forall (λ e, groupOf (relPath e) = g) es.
Proof.
  induction 1 as [|[g' es'] groups H Hs IH]; simpl; [done|].
  case_bool_decide as Hg; [|exact IH]. intros [= <-]. subst. exact H.
Qed.

Lemma setGroup_keys groups g es :
  keys (setGroup groups g es)
  = if bool_decide (g ∈ keys groups) then keys groups else keys groups ++ [g].
Proof.
  induction groups as [|[g' es'] groups IH]; [done|].
  cbn [setGroup keys map fst].
  destruct (decide (g' = g)) as [->|Hne].
  - rewrite (bool_decide_eq_true_2 (g = g)) by done.
    rewrite bool_decide_eq_true_2; [reflexivity|]. apply elem_of_cons. by left.
  - rewrite (bool_decide_eq_false_2 (g' = g)) by done.
    cbn [map fst]. fold (keys (setGroup groups g es)). rewrite IH.
    fold (keys groups).
    destruct (decide (g ∈ keys groups)) as [Hin|Hin].
    + rewrite !bool_decide_eq_true_2; [reflexivity|by apply elem_of_cons; right|done].
    + rewrite !bool_decide_eq_false_2; [reflexivity| |done].
      intros [?|?]%elem_of_cons; [by subst|done].
Qed.

Lemma addEntry_keys_NoDup groups e : NoDup (keys groups) → NoDup (keys (addEntry groups e)).
Proof.
  intros Hnd. unfold addEntry. rewrite setGroup_keys.
  case_bool_decide as Hin; [done|].
  apply NoDup_app. split; [done|]. split; [|apply NoDup_singleton].
  intros x Hx ->%list_elem_of_singleton. done.
Qed.

Lemma addEntry_entries groups e :
  concat (map snd (addEntry groups e)) ≡ₚ concat (map snd groups) ++ [e].
Proof.
  unfold addEntry. generalize (groupOf (relPath e)). intros g.
  induction groups as [|[g' es'] groups IH]; simpl; [done|].
  case_bool_decide as Hg; simpl.
  - rewrite <- !app_assoc. f_equiv. apply Permutation_app_comm.
  - rewrite IH. by rewrite app_assoc.
Qed.

Lemma addEntry_inItsGroup groups e :
  Forall inItsGroup groups → Forall inItsGroup (addEntry groups e).
Proof.
  unfold addEntry. intros H.
  induction H as [|[g' es'] groups H Hs IH]; simpl.
  - constructor; [|done]. by constructor.
  - case_bool_decide as Hg; simpl; constructor; try done.
    unfold inItsGroup in *. simpl in *. apply Forall_app. split; [done|].
    by constructor.
Qed.

Lemma indexGroups_spec baseUrl files :
  let groups := indexGroups baseUrl files in
  NoDup (keys groups) ∧ Forall inItsGroup groups
  ∧ concat (map snd groups) ≡ₚ map (entryOf baseUrl) files.
Proof.
  unfold indexGroups.
  cut (∀ acc, NoDup (keys acc) → Forall inItsGroup acc →
         let groups := fold_left (λ groups d, addEntry groups (entryOf baseUrl d)) files acc in
         NoDup (keys groups) ∧ Forall inItsGroup groups
         ∧ concat (map snd groups) ≡ₚ concat (map snd acc) ++ map (entryOf baseUrl) files).
  { intros H. apply (H []); constructor. }
  induction files as [|d files IH]; intros acc Hnd Hin; simpl.
  - by rewrite app_nil_r.
  - destruct (IH (addEntry acc (entryOf baseUrl d))) as (H1 & H2 & H3);
      [by apply addEntry_keys_NoDup|by apply addEntry_inItsGroup|].
    split; [done|]. split; [done|].
    simpl in H3. rewrite H3, addEntry_entries. by rewrite <- app_assoc.
Qed.

Lemma getGroup_keys groups :
  NoDup (keys groups) →
  map (λ g, default [] (getGroup groups g)) (keys groups) = map snd groups.
Proof.
  induction groups as [|[g es] groups IH]; simpl; [done|].
  intros [Hg Hnd]%NoDup_cons. rewrite bool_decide_eq_true_2 by done. simpl. f_equal.
  rewrite <- IH by done. apply map_ext_in. intros g' Hg'.
  rewrite bool_decide_eq_false_2; [done|]. intros ->. apply Hg.
  by apply list_elem_of_In.
Qed.

End GroupFacts.

Section IndexOrder.
Variable localeCompare : string → string → Z.
Hypothesis localeCompare_total :
  ∀ a b, precedes localeCompare a b ∨ precedes localeCompare b a.
Hypothesis localeCompare_trans :
  ∀ a b c, precedes localeCompare a b → precedes localeCompare b c →
           precedes localeCompare a c.

(** C9.  The index document that [build] returns is its heading, the
    line of the update and an empty line, followed by the sections in
    turn, each a [##] line with the group name, one line for each of
    its entries and an empty line.  The sections are sorted by group
    name and the entries of every section by relative path, for every
    file set and in the order of [localeCompare]; every entry stands in
    the section of its group, and the sections hold exactly the entries
    of the files. *)
Theorem index_sections_sorted (configBaseUrl timestamp commit : string)
    (files : list Document) :
  let baseUrl := ensureTrailingSlash configBaseUrl in
  let sections := indexSections localeCompare (indexGroups baseUrl files) in
  (build localeCompare configBaseUrl timestamp commit files).2
  = Str.trimEnd
      (Str.unlines
         (["# Craft CMS Documentation Index"; provenance timestamp commit; ""]
          ++ concat (map (λ section,
                            ("## " +:+ section.1) :: map entryLine section.2 ++ [""])
                       sections)))
    +:+ String "010" ""
  ∧ StronglySorted (precedes localeCompare) (map fst sections)
  ∧ Forall (λ section, StronglySorted (precedes localeCompare) (map relPath section.2))
      sections
  ∧ Forall inItsGroup sections
  ∧ concat (map snd sections) ≡ₚ map (entryOf baseUrl) files.
Proof.
  intros baseUrl sections. subst sections. split; [reflexivity|].
  destruct (indexGroups_spec baseUrl files) as (Hnd & Hin & Hperm).
  set (groups := indexGroups baseUrl files) in *.
  unfold indexSections. split; [|split; [|split]].
  - rewrite map_map. simpl. rewrite map_id.
    rewrite <- (map_id (sortBy localeCompare id (map fst groups))).
    apply (sorted_keys localeCompare id), sortBy_sorted; done.
  - apply Forall_map, Forall_forall. intros g _. simpl.
    apply sorted_keys, sortBy_sorted; done.
  - apply Forall_map, Forall_forall. intros g _. unfold inItsGroup. simpl.
    rewrite sortBy_perm.
    destruct (getGroup groups g) as [es|] eqn:Hg; simpl; [|done].
    by eapply getGroup_inItsGroup.
  - rewrite map_map. simpl. rewrite <- Hperm, <- (getGroup_keys groups Hnd).
    transitivity (concat (map (λ g, default [] (getGroup groups g))
                            (sortBy localeCompare id (keys groups)))).
    + unfold keys. induction (sortBy localeCompare id (map fst groups)) as [|g gs IH]; simpl; [done|].
      rewrite sortBy_perm. by apply Permutation_app_head.
    + by rewrite sortBy_perm.
Qed.

End IndexOrder.

Lemma codeUnitCompare_leb a b : precedes codeUnitCompare a b ↔ String.leb a b = true.
Proof.
  unfold precedes, codeUnitCompare, String.leb.
  destruct (String.compare a b); split; (done || lia).
Qed.

Lemma codeUnitCompare_total a b :
  precedes codeUnitCompare a b ∨ precedes codeUnitCompare b a.
Proof. rewrite !codeUnitCompare_leb. apply String.leb_total. Qed.

Lemma codeUnitCompare_trans a b c :
  precedes codeUnitCompare a b → precedes codeUnitCompare b c →
  precedes codeUnitCompare a c.
Proof.
  rewrite !codeUnitCompare_leb. intros H1 H2.
  apply Is_true_true. apply Is_true_true in H1, H2.
  exact (transitivity (R := String.le) H1 H2).
Qed.

Lemma index_sections_sorted_witness :
  let sections := indexSections codeUnitCompare (indexGroups "https://x/" sampleFiles) in
  (build codeUnitCompare "https://x" "2024-01-01" "abc" sampleFiles).2
  = Str.trimEnd
      (Str.unlines
         (["# Craft CMS Documentation Index"; provenance "2024-01-01" "abc"; ""]
          ++ concat (map (λ section,
                            ("## " +:+ section.1) :: map entryLine section.2 ++ [""])
                       sections)))
    +:+ String "010" ""
  ∧ StronglySorted (precedes codeUnitCompare) (map fst sections)
  ∧ Forall (λ section, StronglySorted (precedes codeUnitCompare) (map relPath section.2))
      sections
  ∧ Forall inItsGroup sections
  ∧ concat (map snd sections) ≡ₚ map (entryOf "https://x/") sampleFiles.
Proof.
  exact (index_sections_sorted codeUnitCompare codeUnitCompare_total
           codeUnitCompare_trans "https://x" "2024-01-01" "abc" sampleFiles).
Defined.

(** The index of the sample files: [guides], [root] and [system], in
    this order, with [a.md] before [z.md] and [system/a.md] before
    [system/b.md]. *)
Example index_of_sample_files :
  Str.lines (build codeUnitCompare "https://x" "2024-01-01" "abc" sampleFiles).2
  = ["# Craft CMS Documentation Index";
     "Last updated: 2024-01-01 (commit abc)";
     "";
     "## guides";
     "- [index](https://x/guides/index.html)" +:+ dash +:+ "Guides.";
     "";
     "## root";
     "- [A](https://x/a.html)";
     "- [Zed](https://x/z.html)";
     "";
     "## system";
     "- [a](https://x/system/a.html)" +:+ dash +:+ "First.";
     "- [B](https://x/system/b.html)";
     ""].
Proof. vm_compute. reflexivity. Qed.

End IndexFacts.

(** ** Fences *)

Module FenceFacts.
Import Rx Re Markdown StrFacts RxFacts.

Lemma markerOf_cases line :
  (markerOf line = Backticks ∧ ∃ t, Str.trim line = "```" +:+ t)
  ∨ (markerOf line = Tildes ∧ ∃ t, Str.trim line = "~~~" +:+ t)
  ∨ markerOf line = NoMarker.
Proof.
  unfold markerOf.
  destruct (Str.startsWith "```" _) eqn:H1; [left; split; [done|by apply startsWith_app]|].
  destruct (Str.startsWith "~~~" _) eqn:H2; [right; left; split; [done|by apply startsWith_app]|].
  by right; right.
Qed.

Lemma marker_not_directive line : markerOf line ≠ NoMarker → isDirectiveLine line = false.
Proof.
  unfold isDirectiveLine.
  destruct (markerOf_cases line) as [[_ [t ->]]|[[_ [t ->]]|?]]; done.
Qed.

Lemma marker_not_blank line : markerOf line ≠ NoMarker → Str.isEmpty (Str.trim line) = false.
Proof.
  destruct (markerOf_cases line) as [[_ [t ->]]|[[_ [t ->]]|?]]; done.
Qed.

Lemma marker_not_heading line :
  markerOf line ≠ NoMarker → test HEADING_RE (Str.trim line) = false.
Proof.
  destruct (markerOf_cases line) as [[_ [t ->]]|[[_ [t ->]]|?]]; [..|done]; intros _;
    unfold test, HEADING_RE; cbn [seq]; rewrite exec_bol; reflexivity.
Qed.

Lemma marker_not_list line :
  markerOf line ≠ NoMarker → test LIST_RE (Str.trim line) = false.
Proof.
  destruct (markerOf_cases line) as [[_ [t ->]]|[[_ [t ->]]|?]]; [..|done]; intros _;
    unfold test, LIST_RE; cbn [seq]; rewrite exec_bol; reflexivity.
Qed.

Lemma marker_not_tag line :
  markerOf line ≠ NoMarker → test HTML_TAG_ONLY_RE (Str.trim line) = false.
Proof.
  destruct (markerOf_cases line) as [[_ [t ->]]|[[_ [t ->]]|?]]; [..|done]; intros _;
    unfold test, HTML_TAG_ONLY_RE; cbn [seq]; rewrite exec_bol; reflexivity.
Qed.

Lemma opens_update state line :
  opens state line → updateFenceState line state = Fence true (markerOf line).
Proof.
  intros [Hin Hm]. unfold updateFenceState. rewrite Hin.
  by destruct (markerOf line).
Qed.

Lemma closes_update state line :
  closes state line → updateFenceState line state = outside.
Proof.
  intros (Hin & Hm & Heq). unfold updateFenceState. rewrite Hin, Heq.
  destruct (markerOf line); [..|done]; by rewrite bool_decide_eq_true_2.
Qed.

Lemma summaryLoop_grows state para lines :
  ∃ more, summaryLoop state para lines = para ++ more.
Proof.
  revert state para. induction lines as [|line rest IH]; intros state para; simpl.
  - exists []. by rewrite app_nil_r.
  - destruct (inFence _); [apply IH|].
    destruct (Str.isEmpty _).
    { destruct (0 <? length para); [|apply IH]. exists []. by rewrite app_nil_r. }
    destruct (_ || _); [apply IH|].
    destruct (test HTML_TAG_ONLY_RE _); [apply IH|].
    destruct (IH (updateFenceState line state) (para ++ [Str.trim line])) as [more ->].
    exists (Str.trim line :: more). by rewrite <- app_assoc.
Qed.

(** C10.  Every fence-aware scanner updates the fence state before it
    classifies the line.  The line that opens a fence is therefore
    already fenced: the rewriter and the link normaliser pass it through
    untouched, title and summary extraction skip it.  The line that
    closes a fence is no longer fenced: it is rewritten, its links are
    normalised, it is tested for a title, and [extractSummary] collects
    it, so that it heads the summary paragraph when no paragraph line
    came before it. *)
Theorem fence_state_precedes_classification
    (state : FenceState) (line : string) (rest : list string) :
  (opens state line →
     let state' := Fence true (markerOf line) in
     stripLoop state (line :: rest) = line :: stripLoop state' rest
     ∧ (∀ cur base, linksLoop cur base state (line :: rest)
                    = line :: linksLoop cur base state' rest)
     ∧ (∀ fallback, titleLoop state (line :: rest) fallback
                    = titleLoop state' rest fallback)
     ∧ (∀ paragraph, summaryLoop state paragraph (line :: rest)
                     = summaryLoop state' paragraph rest))
  ∧ (closes state line →
     stripLoop state (line :: rest)
     = replaceComponentTags (stripHtmlComments line) :: stripLoop outside rest
     ∧ (∀ cur base, linksLoop cur base state (line :: rest)
                    = normalizeLine cur base line :: linksLoop cur base outside rest)
     ∧ (∀ fallback, titleLoop state (line :: rest) fallback
                    = match exec TITLE_RE line with
                      | Some m => Str.trim (default "" (group 1 (groups m)))
                      | None => titleLoop outside rest fallback
                      end)
     ∧ (∀ paragraph, summaryLoop state paragraph (line :: rest)
                     = summaryLoop outside (paragraph ++ [Str.trim line]) rest)
     ∧ (∃ more, summaryLoop state [] (line :: rest) = Str.trim line :: more)).
Proof.
  split.
  - intros Ho. pose proof (opens_update _ _ Ho) as Hu. simpl. rewrite Hu. simpl. done.
  - intros Hc. pose proof (closes_update _ _ Hc) as Hu. destruct Hc as (_ & Hm & _).
    assert (Hs : ∀ paragraph, summaryLoop state paragraph (line :: rest)
                 = summaryLoop outside (paragraph ++ [Str.trim line]) rest).
    { intros paragraph. simpl. rewrite Hu. simpl.
      by rewrite marker_not_blank, marker_not_heading, marker_not_list, marker_not_tag. }
    simpl. rewrite Hu. simpl. rewrite marker_not_directive by done.
    repeat split; try done.
    + intros paragraph. specialize (Hs paragraph). simpl in Hs. by rewrite Hu in Hs.
    + specialize (Hs []). simpl in Hs. rewrite Hu in Hs. simpl in Hs. rewrite Hs.
      destruct (summaryLoop_grows outside [Str.trim line] rest) as [more ->].
      by exists more.
Qed.

Lemma fence_state_precedes_classification_witness :
  (opens outside "```js" ∧ summaryLoop outside [] ["```js"; "x"; "```"; "Text."]
                           = summaryLoop (Fence true Backticks) [] ["x"; "```"; "Text."])
  ∧ (closes (Fence true Backticks) "```"
     ∧ ∃ more, summaryLoop (Fence true Backticks) [] ["```"; "Text."] = "```" :: more).
Proof.
  split.
  - split; [by split|].
    apply (proj1 (fence_state_precedes_classification outside "```js"
                    ["x"; "```"; "Text."])).
    by split.
  - split; [by repeat split|].
    apply (proj2 (fence_state_precedes_classification (Fence true Backticks) "```"
                    ["Text."])).
    by repeat split.
Defined.

(** A fenced block before the first paragraph: its closing line is the
    first line of the summary paragraph. *)
Example summary_collects_closing_fence :
  extractSummary (Str.unlines ["```"; "code"; "```"; "Intro text."]) = "` Intro text.".
Proof. vm_compute. reflexivity. Qed.

End FenceFacts.

(** ** Include expansion *)

Module IncludeFacts.
Import Rx Re Include StrFacts.

Section Expansion.
Variable fs : Storage.
Variables (root : string) (maxDepth : Z).

Local Abbreviation E := (expand fs root maxDepth).

Lemma expand_deep fuel input fp depth st :
  (maxDepth < Z.of_nat depth)%Z →
  E fuel input fp depth st = (inl (DepthExceeded maxDepth fp), st).
Proof.
  intros H. destruct fuel; simpl; apply Z.ltb_lt in H; by rewrite H.
Qed.

Lemma expand_step fuel input fp depth st :
  (Z.of_nat depth ≤ maxDepth)%Z →
  E (S fuel) input fp depth st
  = expandLoop fs root (E fuel) input fp depth (directives input) "" 0 st.
Proof.
  intros H. simpl.
  assert ((maxDepth <? Z.of_nat depth)%Z = false) as -> by (by apply Z.ltb_ge).
  unfold directives. by destruct (matchAll _ _).
Qed.

Lemma substitute_step n input fp :
  substitute fs root (S n) input fp
  = substituteLoop fs root (substitute fs root n) input fp (directives input) "" 0.
Proof. simpl. by destruct (directives input). Qed.

Lemma load_hit p v st :
  cacheOK fs st → readFile fs p = Some v →
  ∃ st', load fs p st = (inr v, st') ∧ cacheOK fs st' ∧ stack st' = stack st
         ∧ (∀ q, q ∈ reads st' → q = p ∨ q ∈ reads st).
Proof.
  intros Hc Hr. unfold load, bind, get. simpl.
  destruct (cache st !! p) as [v'|] eqn:Hl.
  - exists st. rewrite (Hc _ _ Hl) in Hr. injection Hr as ->.
    repeat split; auto.
  - unfold modify, ret. simpl. rewrite Hr. simpl.
    eexists. split; [reflexivity|]. repeat split; simpl.
    + intros q w. simpl. destruct (decide (p = q)) as [->|Hne].
      * rewrite lookup_insert_eq. by intros [= <-].
      * rewrite lookup_insert_ne by done. apply Hc.
    + intros q [->|?]%elem_of_cons; auto.
Qed.

Lemma load_ok p v st st' :
  cacheOK fs st → load fs p st = (inr v, st') →
  readFile fs p = Some v ∧ cacheOK fs st' ∧ stack st' = stack st.
Proof.
  intros Hc. unfold load, bind, get. simpl.
  destruct (cache st !! p) as [v'|] eqn:Hl.
  - unfold ret. intros [= <- <-]. auto.
  - unfold modify, ret, throw. simpl. destruct (readFile fs p) as [w|] eqn:Hr; simpl; [|done].
    intros [= <- <-]. split; [done|]. split; [|done].
    intros q u. simpl. destruct (decide (p = q)) as [->|Hne].
    + rewrite lookup_insert_eq. by intros [= <-].
    + rewrite lookup_insert_ne by done. apply Hc.
Qed.

Lemma load_fail p e st st' :
  load fs p st = (inl e, st') → readFile fs p = None ∧ e = ReadFailed p.
Proof.
  unfold load, bind, get. simpl. destruct (cache st !! p); [done|].
  unfold modify, ret, throw. simpl. destruct (readFile fs p); simpl; [done|].
  by intros [= <- _].
Qed.

Lemma loop_first rec input fp depth i m others result lastIndex st rp :
  resolveIncludePath fs (includePathOf m) root fp = inr rp →
  expandLoop fs root rec input fp depth ((i, m) :: others) result lastIndex st
  = if bool_decide (rp ∈ stack st) then (inl (Cycle rp), st)
    else match load fs rp st with
         | (inl e, st1) => (inl e, st1)
         | (inr included, st1) =>
             match rec included rp (depth + 1) (withStack (λ s, {[rp]} ∪ s) st1) with
             | (inl e, st2) => (inl e, st2)
             | (inr expanded, st2) =>
                 expandLoop fs root rec input fp depth others
                   ((result +:+ Str.slice lastIndex i input) +:+ expanded)
                   (i + Str.len (text m)) (withStack (λ s, s ∖ {[rp]}) st2)
             end
         end.
Proof.
  intros Hr. cbn [expandLoop]. fold (includePathOf m). rewrite Hr.
  unfold bind at 1. unfold get at 1.
  destruct (bool_decide (rp ∈ stack st)); [done|].
  unfold bind at 1. destruct (load fs rp st) as [[e|included] st1]; [done|].
  unfold bind at 1. unfold modify at 1.
  unfold bind at 1. unfold withStack.
  destruct (rec included rp (depth + 1) _) as [[e|expanded] st2]; [done|].
  reflexivity.
Qed.

Lemma loop_refused rec input fp depth i m others result lastIndex st e :
  resolveIncludePath fs (includePathOf m) root fp = inl e →
  expandLoop fs root rec input fp depth ((i, m) :: others) result lastIndex st
  = (inl e, st).
Proof. intros Hr. cbn [expandLoop]. fold (includePathOf m). by rewrite Hr. Qed.

Lemma pushed (open : list string) p st1 st :
  stack st1 = stack st → stack st = list_to_set open →
  stack (withStack (λ s, {[p]} ∪ s) st1) = list_to_set (p :: open).
Proof. intros H1 H2. simpl. by rewrite H1, H2. Qed.

Lemma popped (open : list string) p st2 :
  p ∉ open → stack st2 = list_to_set (p :: open) →
  stack (withStack (λ s, s ∖ {[p]}) st2) = list_to_set open.
Proof.
  intros Hp H2. simpl. rewrite H2. simpl. apply set_eq. intros q.
  rewrite elem_of_difference, elem_of_union, elem_of_singleton, elem_of_list_to_set.
  split; [by intros [[?|?] ?]|]. intros Hq. split; [by right|]. by intros ->.
Qed.

(** The directives that expand are passed: the loop goes on after them
    with the stack as it was. *)
Lemma loop_prefix rec sub open fp input :
  (∀ l st, Sound fs root maxDepth (lPath l :: open) (lText l) (lPath l) →
           cacheOK fs st → stack st = list_to_set (lPath l :: open) →
           ∃ out st', rec (lText l) (lPath l) (length open + 1) st = (inr out, st')
                      ∧ cacheOK fs st' ∧ stack st' = stack st
                      ∧ sub (lText l) (lPath l) = Some out) →
  ∀ before result lastIndex st,
    Forall (expands fs root maxDepth open fp) before →
    cacheOK fs st → stack st = list_to_set open →
    ∃ result' lastIndex' st',
      cacheOK fs st' ∧ stack st' = stack st
      ∧ ∀ rest,
          expandLoop fs root rec input fp (length open) (before ++ rest) result lastIndex st
          = expandLoop fs root rec input fp (length open) rest result' lastIndex' st'
          ∧ substituteLoop fs root sub input fp (before ++ rest) result lastIndex
            = substituteLoop fs root sub input fp rest result' lastIndex'.
Proof.
  intros Hrec. induction before as [|[i m] before IH]; intros result lastIndex st Hall Hc Hs.
  { exists result, lastIndex, st. by repeat split. }
  apply Forall_cons in Hall as [(l & [Hr Hread] & Hopen & Hsound) Hall]. simpl in Hr.
  destruct (load_hit _ _ _ Hc Hread) as (st1 & Hload & Hc1 & Hs1 & _).
  destruct (Hrec l (withStack (λ s, {[lPath l]} ∪ s) st1) Hsound Hc1
              (pushed open _ _ _ Hs1 Hs)) as (out & st2 & Hrun & Hc2 & Hs2 & Hsub).
  destruct (IH ((result +:+ Str.slice lastIndex i input) +:+ out) (i + Str.len (text m))
              (withStack (λ s, s ∖ {[lPath l]}) st2) Hall Hc2)
    as (result' & lastIndex' & st' & Hc' & Hs' & Hloop).
  { apply popped; [done|]. rewrite Hs2. by eapply pushed. }
  exists result', lastIndex', st'. split; [done|]. split.
  { rewrite Hs', Hs. apply popped; [done|]. rewrite Hs2. by eapply pushed. }
  intros rest. destruct (Hloop rest) as [H1 H2]. split.
  - rewrite <- app_comm_cons, (loop_first _ _ _ _ _ _ _ _ _ _ _ Hr).
    rewrite bool_decide_eq_false_2 by (rewrite Hs, elem_of_list_to_set; done).
    by rewrite Hload, Hrun.
  - rewrite <- app_comm_cons. cbn [substituteLoop]. by rewrite Hr, Hread, Hsub.
Qed.

(** A sound text is expanded, to its full substitution. *)
Lemma sound_runs fuel : ∀ open input fp st,
  Sound fs root maxDepth open input fp →
  (maxDepth < Z.of_nat (length open) + Z.of_nat fuel)%Z →
  cacheOK fs st → stack st = list_to_set open →
  ∃ out st', E fuel input fp (length open) st = (inr out, st')
             ∧ cacheOK fs st' ∧ stack st' = stack st
             ∧ substitute fs root fuel input fp = Some out.
Proof.
  induction fuel as [|fuel IH]; intros open input fp st Hsound Hfuel Hc Hs;
    inversion Hsound as [? ? ? Hlen Hall]; subst; [lia|].
  rewrite expand_step by done. rewrite substitute_step.
  assert (Hrec : ∀ l st,
            Sound fs root maxDepth (lPath l :: open) (lText l) (lPath l) →
            cacheOK fs st → stack st = list_to_set (lPath l :: open) →
            ∃ out st', E fuel (lText l) (lPath l) (length open + 1) st = (inr out, st')
                       ∧ cacheOK fs st' ∧ stack st' = stack st
                       ∧ substitute fs root fuel (lText l) (lPath l) = Some out).
  { intros l st1 Hl Hc1 Hs1. rewrite Nat.add_1_r. apply (IH (lPath l :: open)); try done.
    simpl length. lia. }
  destruct (loop_prefix (E fuel) (substitute fs root fuel) open fp input Hrec
              (directives input) "" 0 st Hall Hc Hs)
    as (result' & lastIndex' & st' & Hc' & Hs' & Hloop).
  destruct (Hloop []) as [H1 H2]. rewrite app_nil_r in H1, H2. rewrite H1, H2.
  eexists _, st'. by repeat split.
Qed.

Lemma loop_success rec open fp input :
  (∀ t p st out st',
     rec t p (length open + 1) st = (inr out, st') →
     cacheOK fs st → stack st = list_to_set (p :: open) →
     Sound fs root maxDepth (p :: open) t p ∧ cacheOK fs st' ∧ stack st' = stack st) →
  ∀ ms result lastIndex st out st',
    expandLoop fs root rec input fp (length open) ms result lastIndex st = (inr out, st') →
    cacheOK fs st → stack st = list_to_set open →
    Forall (expands fs root maxDepth open fp) ms ∧ cacheOK fs st' ∧ stack st' = stack st.
Proof.
  intros Hrec. induction ms as [|[i m] ms IH]; intros result lastIndex st out st' Hrun Hc Hs.
  { injection Hrun as _ <-. by repeat split. }
  destruct (resolveIncludePath fs (includePathOf m) root fp) as [e|rp] eqn:Hr.
  { by rewrite (loop_refused _ _ _ _ _ _ _ _ _ _ _ Hr) in Hrun. }
  rewrite (loop_first _ _ _ _ _ _ _ _ _ _ _ Hr) in Hrun.
  case_bool_decide as Hstack; [done|].
  destruct (load fs rp st) as [[e|inc] st1] eqn:Hload; [done|].
  destruct (load_ok _ _ _ _ Hc Hload) as (Hread & Hc1 & Hs1).
  destruct (rec inc rp (length open + 1) _) as [[e|expanded] st2] eqn:Hinner; [done|].
  destruct (Hrec _ _ _ _ _ Hinner Hc1 (pushed open _ _ _ Hs1 Hs)) as (Hsound & Hc2 & Hs2).
  assert (Hopen : rp ∉ open) by (by rewrite Hs, elem_of_list_to_set in Hstack).
  destruct (IH _ _ _ _ _ Hrun Hc2) as (Hall & Hc' & Hs').
  { apply popped; [done|]. rewrite Hs2. by eapply pushed. }
  split; [|split; [done|]].
  - constructor; [|done]. by exists {| lPath := rp; lText := inc |}.
  - rewrite Hs', Hs. apply popped; [done|]. rewrite Hs2. by eapply pushed.
Qed.

(** A text that is expanded is sound. *)
Lemma success_sound fuel : ∀ open input fp st out st',
  E fuel input fp (length open) st = (inr out, st') →
  cacheOK fs st → stack st = list_to_set open →
  Sound fs root maxDepth open input fp ∧ cacheOK fs st' ∧ stack st' = stack st.
Proof.
  induction fuel as [|fuel IH]; intros open input fp st out st' Hrun Hc Hs;
    (destruct (Z.ltb_spec maxDepth (Z.of_nat (length open))) as [Hd|Hd];
     [by rewrite expand_deep in Hrun|]).
  - simpl in Hrun. by destruct (_ <? _)%Z.
  - rewrite expand_step in Hrun by done.
    assert (Hrec : ∀ t p st out st',
              E fuel t p (length open + 1) st = (inr out, st') →
              cacheOK fs st → stack st = list_to_set (p :: open) →
              Sound fs root maxDepth (p :: open) t p ∧ cacheOK fs st'
              ∧ stack st' = stack st).
    { intros t p st1 out1 st1' H1 Hc1 Hs1. rewrite Nat.add_1_r in H1.
      by apply (IH (p :: open) t p st1 out1 st1'). }
    destruct (loop_success (E fuel) open fp input Hrec (directives input) "" 0 st
                out st' Hrun Hc Hs) as (Hall & Hc' & Hs').
    split; [|done]. by constructor.
Qed.

(** The expansion that comes to a directive goes on from there. *)
Lemma arrival fuel open input fp im st :
  comesTo fs root maxDepth open input fp im →
  (Z.of_nat (length open) ≤ maxDepth)%Z →
  (maxDepth < Z.of_nat (length open) + 1 + Z.of_nat fuel)%Z →
  cacheOK fs st → stack st = list_to_set open →
  ∃ after result lastIndex st1,
    cacheOK fs st1 ∧ stack st1 = stack st
    ∧ E (S fuel) input fp (length open) st
      = expandLoop fs root (E fuel) input fp (length open) (im :: after)
          result lastIndex st1.
Proof.
  intros (before & after & Hd & Hall) Hlen Hfuel Hc Hs.
  assert (Hrec : ∀ l st,
            Sound fs root maxDepth (lPath l :: open) (lText l) (lPath l) →
            cacheOK fs st → stack st = list_to_set (lPath l :: open) →
            ∃ out st', E fuel (lText l) (lPath l) (length open + 1) st = (inr out, st')
                       ∧ cacheOK fs st' ∧ stack st' = stack st
                       ∧ substitute fs root fuel (lText l) (lPath l) = Some out).
  { intros l st1 Hl Hc1 Hs1. rewrite Nat.add_1_r.
    apply (sound_runs fuel (lPath l :: open)); try done. simpl length. lia. }
  destruct (loop_prefix (E fuel) (substitute fs root fuel) open fp input Hrec
              before "" 0 st Hall Hc Hs)
    as (result' & lastIndex' & st' & Hc' & Hs' & Hloop).
  exists after, result', lastIndex', st'. split; [done|]. split; [done|].
  rewrite expand_step by done. rewrite Hd. apply Hloop.
Qed.

(** An error met at the end of a chain the expansion follows is the
    error of the whole expansion. *)
Lemma follows_error c : ∀ n open input fp st e,
  Follows fs root maxDepth open input fp c →
  (Z.of_nat (length open + length c) ≤ maxDepth + 1)%Z →
  (maxDepth < Z.of_nat (length open) + Z.of_nat (length c + n))%Z →
  cacheOK fs st → stack st = list_to_set open →
  (∀ st', cacheOK fs st' → stack st' = list_to_set (opened c ++ open) →
          (E n (chainEnd input fp c).1 (chainEnd input fp c).2
             (length open + length c) st').1 = inl e) →
  (E (length c + n) input fp (length open) st).1 = inl e.
Proof.
  induction c as [|l c IH]; intros n open input fp st e Hf Hlen Hfuel Hc Hs Hend.
  { simpl in *. rewrite Nat.add_0_r in Hend. by apply Hend. }
  destruct Hf as ((im & Hcome & Hr & Hread) & Hopen & Hf). simpl length in *.
  change (S (length c) + n) with (S (length c + n)) in *.
  destruct (arrival (length c + n) open input fp im st Hcome)
    as (after & result & lastIndex & st1 & Hc1 & Hs1 & ->); try done; try lia.
  destruct im as [i m]. simpl in Hr.
  rewrite (loop_first _ _ _ _ _ _ _ _ _ _ _ Hr).
  rewrite bool_decide_eq_false_2 by (rewrite Hs1, Hs, elem_of_list_to_set; done).
  destruct (load_hit _ _ _ Hc1 Hread) as (st2 & -> & Hc2 & Hs2 & _).
  assert (HIH : (E (length c + n) (lText l) (lPath l) (S (length open))
                   (withStack (λ s, {[lPath l]} ∪ s) st2)).1 = inl e).
  { apply (IH n (lPath l :: open) (lText l) (lPath l) _ e Hf).
    - simpl length. lia.
    - simpl length. lia.
    - done.
    - eapply pushed; [done|]. by rewrite Hs1.
    - intros st' Hc' Hs'. replace (length (lPath l :: open) + length c)
        with (length open + S (length c)) by (simpl; lia).
      apply Hend; [done|]. rewrite Hs'. unfold opened. simpl. by rewrite <- app_assoc. }
  rewrite Nat.add_1_r.
  destruct (E (length c + n) (lText l) (lPath l) (S (length open)) _)
    as [[e'|expanded] st3]; simpl in HIH; [by subst|done].
Qed.

Lemma cause_link open input fp l c e im :
  im ∈ directives input → leadsTo fs root fp im.2 l →
  (Z.of_nat (length open) ≤ maxDepth)%Z →
  cause fs root maxDepth (lPath l :: open) (lText l) (lPath l) c e →
  cause fs root maxDepth open input fp (l :: c) e.
Proof.
  intros Him Hl Hlen. unfold cause, opened. simpl. rewrite <- !app_assoc. simpl.
  intros [(Hdeep & Hat & ->)|H]; [|by right].
  left. split; [done|]. split; [|done]. right.
  destruct Hat as [->|Hat]; [|done]. simpl in *. lia.
Qed.

Lemma loop_failure rec open fp input :
  (∀ t p st out st',
     rec t p (length open + 1) st = (inr out, st') →
     cacheOK fs st → stack st = list_to_set (p :: open) →
     cacheOK fs st' ∧ stack st' = stack st) →
  (∀ t p st e st',
     rec t p (length open + 1) st = (inl e, st') →
     cacheOK fs st → stack st = list_to_set (p :: open) →
     ∃ c, Chain fs root t p c ∧ cause fs root maxDepth (p :: open) t p c e
          ∧ NoDup (map lPath c) ∧ ∀ q, q ∈ map lPath c → q ∉ p :: open) →
  (Z.of_nat (length open) ≤ maxDepth)%Z →
  ∀ ms result lastIndex st e st',
    (∀ im, im ∈ ms → im ∈ directives input) →
    expandLoop fs root rec input fp (length open) ms result lastIndex st = (inl e, st') →
    cacheOK fs st → stack st = list_to_set open →
    ∃ c, Chain fs root input fp c ∧ cause fs root maxDepth open input fp c e
         ∧ NoDup (map lPath c) ∧ ∀ q, q ∈ map lPath c → q ∉ open.
Proof.
  intros Hok Hfail Hlen.
  assert (Hnil : NoDup (map lPath []) ∧ ∀ q, q ∈ map lPath [] → q ∉ open).
  { split; [constructor|]. by intros q ?%elem_of_nil. }
  induction ms as [|[i m] ms IH]; intros result lastIndex st e st' Hms Hrun Hc Hs; [done|].
  assert (Him : (i, m) ∈ directives input) by (apply Hms; by left).
  destruct (resolveIncludePath fs (includePathOf m) root fp) as [e'|rp] eqn:Hr.
  { rewrite (loop_refused _ _ _ _ _ _ _ _ _ _ _ Hr) in Hrun. injection Hrun as <- _.
    exists []. split; [done|]. split; [|done]. right. exists (i, m). simpl. by rewrite Hr. }
  rewrite (loop_first _ _ _ _ _ _ _ _ _ _ _ Hr) in Hrun.
  case_bool_decide as Hstack.
  { injection Hrun as <- _. exists []. split; [done|]. split; [|done].
    right. exists (i, m). simpl.
    rewrite Hr. split; [done|]. split; [done|]. left. split; [|done].
    by rewrite Hs, elem_of_list_to_set in Hstack. }
  destruct (load fs rp st) as [[e'|inc] st1] eqn:Hload.
  { injection Hrun as <- _. destruct (load_fail _ _ _ _ Hload) as [Hnone ->].
    exists []. split; [done|]. split; [|done]. right. exists (i, m). simpl.
    rewrite Hr. split; [done|]. split; [done|]. by right. }
  destruct (load_ok _ _ _ _ Hc Hload) as (Hread & Hc1 & Hs1).
  assert (Hopen : rp ∉ open) by (by rewrite Hs, elem_of_list_to_set in Hstack).
  destruct (rec inc rp (length open + 1) _) as [[e'|expanded] st2] eqn:Hinner.
  - injection Hrun as <- _.
    destruct (Hfail _ _ _ _ _ Hinner Hc1 (pushed open _ _ _ Hs1 Hs))
      as (c & Hchain & Hcause & Hnd & Hfresh).
    exists ({| lPath := rp; lText := inc |} :: c). split; [|split; [|split]].
    + split; [|done]. by exists (i, m).
    + by apply (cause_link open input fp {| lPath := rp; lText := inc |} c e' (i, m)).
    + simpl. constructor; [|done]. intros Hin. apply (Hfresh _ Hin). by left.
    + intros q [->|Hq]%elem_of_cons; [done|]. intros Hin. apply (Hfresh _ Hq). by right.
  - destruct (Hok _ _ _ _ _ Hinner Hc1 (pushed open _ _ _ Hs1 Hs)) as (Hc2 & Hs2).
    apply (IH _ _ _ _ _ (λ im H, Hms im (list_elem_of_further _ _ _ H)) Hrun Hc2).
    apply popped; [done|]. rewrite Hs2. by eapply pushed.
Qed.

(** Every error has its cause at the end of an include chain through
    distinct files. *)
Lemma failure_cause fuel : ∀ open input fp st e st',
  E fuel input fp (length open) st = (inl e, st') →
  (maxDepth < Z.of_nat (length open) + Z.of_nat fuel)%Z →
  cacheOK fs st → stack st = list_to_set open →
  ∃ c, Chain fs root input fp c ∧ cause fs root maxDepth open input fp c e
       ∧ NoDup (map lPath c) ∧ ∀ q, q ∈ map lPath c → q ∉ open.
Proof.
  induction fuel as [|fuel IH]; intros open input fp st e st' Hrun Hfuel Hc Hs;
    (destruct (Z.ltb_spec maxDepth (Z.of_nat (length open))) as [Hd|Hd];
     [rewrite expand_deep in Hrun by done; injection Hrun as <- _;
      exists []; split; [done|]; split;
      [left; simpl; by auto|split; [constructor|by intros q ?%elem_of_nil]]|]); [lia|].
  rewrite expand_step in Hrun by done.
  apply (loop_failure (E fuel) open fp input) with
    (ms := directives input) (result := "") (lastIndex := 0) (st := st) (st' := st');
    try done.
  - intros t p st1 out st1' H1 Hc1 Hs1. rewrite Nat.add_1_r in H1.
    by destruct (success_sound fuel (p :: open) t p st1 out st1' H1 Hc1 Hs1) as (_ & ? & ?).
  - intros t p st1 e1 st1' H1 Hc1 Hs1. rewrite Nat.add_1_r in H1.
    apply (IH (p :: open) t p st1 e1 st1' H1); [simpl length; lia|done|done].
Qed.

Lemma resolve_inside ip fp rp :
  resolveIncludePath fs ip root fp = inr rp → insideRoot fs root rp = true.
Proof.
  unfold resolveIncludePath. destruct (insideRoot _ _ _) eqn:H; simpl; [|done].
  by intros [= <-].
Qed.

Lemma resolve_target ip fp rp :
  resolveIncludePath fs ip root fp = inr rp →
  insideRoot fs root (includeTarget fs ip root fp) = true.
Proof.
  unfold resolveIncludePath. by destruct (insideRoot _ _ _) eqn:H.
Qed.

Lemma resolve_escape ip fp :
  insideRoot fs root (includeTarget fs ip root fp) = false →
  resolveIncludePath fs ip root fp = inl (PathEscape ip).
Proof. intros H. unfold resolveIncludePath. by rewrite H. Qed.

Lemma load_inside p st :
  insideRoot fs root p = true → readsInside fs root st → readsInside fs root (load fs p st).2.
Proof.
  intros Hp Hst. unfold load, bind, get, modify, ret, throw. simpl.
  destruct (cache st !! p); [done|]. simpl.
  destruct (readFile fs p); simpl; by constructor.
Qed.

Lemma loop_inside rec input fp depth :
  (∀ inc rp d st, readsInside fs root st → readsInside fs root (rec inc rp d st).2) →
  ∀ ms result lastIndex st, readsInside fs root st →
    readsInside fs root (expandLoop fs root rec input fp depth ms result lastIndex st).2.
Proof.
  intros Hrec. induction ms as [|[i m] ms IH]; intros result lastIndex st Hst; [done|].
  destruct (resolveIncludePath fs (includePathOf m) root fp) as [e|rp] eqn:Hr.
  { by rewrite (loop_refused _ _ _ _ _ _ _ _ _ _ _ Hr). }
  rewrite (loop_first _ _ _ _ _ _ _ _ _ _ _ Hr).
  destruct (bool_decide _); [done|].
  pose proof (load_inside rp st (resolve_inside _ _ _ Hr) Hst) as H1.
  destruct (load fs rp st) as [[e|inc] st1]; [done|]. simpl in H1.
  specialize (Hrec inc rp (depth + 1) (withStack (λ s, {[rp]} ∪ s) st1) H1).
  destruct (rec inc rp (depth + 1) _) as [[e|expanded] st2]; [done|].
  apply IH. exact Hrec.
Qed.

Lemma expand_inside fuel : ∀ input fp depth st,
  readsInside fs root st → readsInside fs root (E fuel input fp depth st).2.
Proof.
  induction fuel as [|fuel IH]; intros input fp depth st Hst;
    (destruct (Z.ltb_spec maxDepth (Z.of_nat depth)) as [Hd|Hd];
     [by rewrite expand_deep|]).
  - simpl. by destruct (_ <? _)%Z.
  - rewrite expand_step by done. by apply loop_inside.
Qed.

End Expansion.

Section ChainFacts.
Variable fs : Storage.
Variable root : string.

Lemma leadsTo_one fp m l l' :
  leadsTo fs root fp m l → leadsTo fs root fp m l' → l = l'.
Proof.
  intros [H1 H2] [H3 H4]. destruct l as [p t], l' as [p' t']. simpl in *.
  rewrite H1 in H3. injection H3 as <-. rewrite H2 in H4. by injection H4 as <-.
Qed.

Lemma chain_app c1 c2 input fp :
  Chain fs root input fp (c1 ++ c2)
  ↔ Chain fs root input fp c1
    ∧ Chain fs root (chainEnd input fp c1).1 (chainEnd input fp c1).2 c2.
Proof.
  revert input fp. induction c1 as [|l c1 IH]; intros input fp; simpl; [tauto|].
  rewrite IH. tauto.
Qed.

Lemma chainEnd_app c1 c2 input fp :
  chainEnd input fp (c1 ++ c2)
  = chainEnd (chainEnd input fp c1).1 (chainEnd input fp c1).2 c2.
Proof. revert input fp. induction c1 as [|l c1 IH]; intros input fp; simpl; auto. Qed.

Lemma opened_snoc c l : opened (c ++ [l]) = lPath l :: opened c.
Proof. unfold opened. by rewrite map_app, rev_app_distr. Qed.

Lemma opened_length c : length (opened c) = length c.
Proof. unfold opened. by rewrite length_rev, length_map. Qed.

Lemma opened_elem c p : p ∈ opened c ↔ p ∈ map lPath c.
Proof. unfold opened. by rewrite !list_elem_of_In, <- in_rev. Qed.

(** Along every chain from a sound text the files are distinct and not
    open, and the chain ends in a sound text. *)
Lemma sound_chain limit c : ∀ open input fp,
  Sound fs root limit open input fp → Chain fs root input fp c →
  Sound fs root limit (opened c ++ open) (chainEnd input fp c).1 (chainEnd input fp c).2
  ∧ NoDup (map lPath c) ∧ ∀ p, p ∈ map lPath c → p ∉ open.
Proof.
  induction c as [|l c IH]; intros open input fp Hsound Hchain.
  { split; [done|]. split; [constructor|]. by intros p ?%elem_of_nil. }
  destruct Hchain as ((im & Him & Hl) & Hchain).
  inversion Hsound as [? ? ? Hlen Hall]; subst.
  rewrite Forall_forall in Hall. destruct (Hall im Him) as (l' & Hl' & Hopen & Hs').
  rewrite <- (leadsTo_one _ _ _ _ Hl Hl') in Hopen, Hs'.
  destruct (IH _ _ _ Hs' Hchain) as (Hend & Hnd & Hfresh).
  split; [|split].
  - unfold opened in *. simpl. by rewrite <- app_assoc.
  - simpl. constructor; [|done]. intros Hin. apply (Hfresh _ Hin). by left.
  - intros p [->|Hp]%elem_of_cons; [done|]. intros Hin. apply (Hfresh _ Hp). by right.
Qed.

(** A chain that comes back to one of its files can be walked round
    any number of times. *)
Lemma rounds_chain s t p k :
  Chain fs root t p s → chainEnd t p s = (t, p) →
  Chain fs root t p (rounds k s) ∧ chainEnd t p (rounds k s) = (t, p).
Proof.
  intros Hs He. induction k as [|k [IH1 IH2]]; simpl; [done|].
  rewrite chain_app, chainEnd_app, He. done.
Qed.

Lemma rounds_length s k : s ≠ [] → k ≤ length (rounds k s).
Proof.
  intros Hs. induction k as [|k IH]; simpl; [lia|]. rewrite length_app.
  destruct s; [done|]. simpl. lia.
Qed.

Lemma bounded_fresh (limit : Z) content cur c im l :
  (∀ c, Chain fs root content cur c → (Z.of_nat (length c) ≤ limit)%Z) →
  Chain fs root content cur c →
  im ∈ directives (chainEnd content cur c).1 →
  leadsTo fs root (chainEnd content cur c).2 im.2 l →
  lPath l ∉ map lPath c.
Proof.
  intros Hbound Hchain Him Hl Hin.
  apply list_elem_of_fmap in Hin as (l0 & Hp & Hin).
  apply list_elem_of_split in Hin as (c1 & c2 & ->).
  pose proof Hchain as Hchain'.
  apply chain_app in Hchain' as [H1 H2]. simpl in H2.
  destruct H2 as [(im0 & Him0 & Hl0) H2].
  assert (l0 = l) as ->.
  { destruct Hl as [_ Hr], Hl0 as [_ Hr0]. rewrite <- Hp in Hr0. rewrite Hr in Hr0.
    destruct l, l0. simpl in *. injection Hr0 as <-. by subst. }
  rewrite chainEnd_app in Him, Hl. simpl in Him, Hl.
  set (s := c2 ++ [l]).
  assert (Hs : Chain fs root (lText l) (lPath l) s).
  { apply chain_app. split; [done|]. simpl. split; [|done]. by exists im. }
  assert (He : chainEnd (lText l) (lPath l) s = (lText l, lPath l)).
  { unfold s. by rewrite chainEnd_app. }
  destruct (rounds_chain s _ _ (S (Z.to_nat limit)) Hs He) as [Hr _].
  assert (Hlong : Chain fs root content cur (c1 ++ l :: rounds (S (Z.to_nat limit)) s)).
  { apply chain_app. split; [done|]. split; [by exists im0|done]. }
  apply Hbound in Hlong. rewrite length_app in Hlong. simpl length in Hlong.
  pose proof (rounds_length s (S (Z.to_nat limit))) as Hk.
  assert (s ≠ []) as Hne by (unfold s; by destruct c2).
  specialize (Hk Hne). simpl in Hk. lia.
Qed.

(** When every directive met leads to a file and no chain is longer
    than the limit, the text at the end of every chain is sound. *)
Lemma bounded_sound (limit : Z) content cur :
  resolvable fs root content cur →
  (∀ c, Chain fs root content cur c → (Z.of_nat (length c) ≤ limit)%Z) →
  ∀ n c, Chain fs root content cur c → (Z.of_nat (length c) + Z.of_nat n = limit)%Z →
    Sound fs root limit (opened c) (chainEnd content cur c).1 (chainEnd content cur c).2.
Proof.
  intros Hres Hbound. induction n as [|n IH]; intros c Hchain Hlen.
  - constructor; [rewrite opened_length; lia|]. apply Forall_forall. intros im Him.
    destruct (Hres c im Hchain Him) as [l Hl].
    assert (Hlong : Chain fs root content cur (c ++ [l])).
    { apply chain_app. split; [done|]. simpl. split; [|done]. by exists im. }
    apply Hbound in Hlong. rewrite length_app in Hlong. simpl in Hlong. lia.
  - constructor; [rewrite opened_length; lia|]. apply Forall_forall. intros im Him.
    destruct (Hres c im Hchain Him) as [l Hl].
    assert (Hlong : Chain fs root content cur (c ++ [l])).
    { apply chain_app. split; [done|]. simpl. split; [|done]. by exists im. }
    exists l. split; [done|]. split.
    + rewrite opened_elem. by eapply bounded_fresh.
    + specialize (IH (c ++ [l]) Hlong). rewrite opened_snoc, chainEnd_app in IH.
      simpl in IH. apply IH. rewrite length_app. simpl. lia.
Qed.

End ChainFacts.

Lemma cacheOK_fresh fs : cacheOK fs fresh.
Proof. intros p v. unfold fresh. simpl. by rewrite lookup_empty. Qed.

Lemma fuel_enough (limit : Z) : (limit < Z.of_nat 0 + Z.of_nat (S (Z.to_nat limit)))%Z.
Proof. lia. Qed.

(** What a successful expansion tells: the content is sound, and the
    result is its full substitution. *)
Lemma success_is_sound fs content repoRoot currentFilePath maxDepth out :
  let root := Path.resolve (cwd fs) [repoRoot] in
  let limit := default 5%Z maxDepth in
  (expandIncludeDirectives fs content repoRoot currentFilePath maxDepth).1 = inr out →
  Sound fs root limit [] content currentFilePath
  ∧ substitute fs root (S (Z.to_nat limit)) content currentFilePath = Some out.
Proof.
  intros root limit Hrun. unfold expandIncludeDirectives in Hrun. fold root limit in Hrun.
  destruct (expand fs root limit _ _ _ _ _) as [r st'] eqn:HE. simpl in Hrun. subst r.
  destruct (success_sound fs root limit _ [] _ _ _ _ _ HE (cacheOK_fresh fs) eq_refl)
    as (Hsound & _).
  split; [done|].
  destruct (sound_runs fs root limit (S (Z.to_nat limit)) [] content currentFilePath fresh
              Hsound (fuel_enough limit) (cacheOK_fresh fs) eq_refl)
    as (out' & st'' & HE' & _ & _ & Hsub).
  simpl length in HE'. rewrite HE in HE'. by injection HE' as <- _.
Qed.

(** The error at the end of a chain followed from the content. *)
Lemma followed_error fs content repoRoot currentFilePath maxDepth c e :
  let root := Path.resolve (cwd fs) [repoRoot] in
  let limit := default 5%Z maxDepth in
  Follows fs root limit [] content currentFilePath c →
  (Z.of_nat (length c) ≤ limit + 1)%Z →
  (∀ st', cacheOK fs st' → stack st' = list_to_set (opened c) →
          (expand fs root limit (S (Z.to_nat limit) - length c)
             (chainEnd content currentFilePath c).1 (chainEnd content currentFilePath c).2
             (length c) st').1 = inl e) →
  (expandIncludeDirectives fs content repoRoot currentFilePath maxDepth).1 = inl e.
Proof.
  intros root limit Hf Hlen Hend. unfold expandIncludeDirectives. fold root limit.
  replace (S (Z.to_nat limit)) with (length c + (S (Z.to_nat limit) - length c)) at 1 by lia.
  apply (follows_error fs root limit c _ [] content currentFilePath fresh e Hf);
    [simpl; lia|simpl; lia|apply cacheOK_fresh|done|].
  intros st' Hc Hs. rewrite app_nil_r in Hs. by apply Hend.
Qed.

Lemma follows_take fs root limit k c : ∀ open input fp,
  Follows fs root limit open input fp c → Follows fs root limit open input fp (take k c).
Proof.
  revert k. induction c as [|l c IH]; intros k open input fp Hf; [by destruct k|].
  destruct k as [|k]; [done|]. destruct Hf as (H1 & H2 & H3). simpl.
  split; [done|]. split; [done|]. by apply IH.
Qed.

(** A chain the expansion follows beyond the limit ends in the depth
    error, raised where the chain passes the limit. *)
Lemma followed_past_limit fs content repoRoot currentFilePath maxDepth c :
  let root := Path.resolve (cwd fs) [repoRoot] in
  let limit := default 5%Z maxDepth in
  Follows fs root limit [] content currentFilePath c →
  (limit < Z.of_nat (length c))%Z →
  (expandIncludeDirectives fs content repoRoot currentFilePath maxDepth).1
  = inl (DepthExceeded limit (boundary limit content currentFilePath c)).
Proof.
  intros root limit Hf Hlong. unfold boundary.
  destruct (Z.ltb_spec limit 0) as [Hneg|Hpos].
  { replace (Z.to_nat (limit + 1)) with 0 by lia. simpl.
    unfold expandIncludeDirectives. fold root limit.
    rewrite expand_deep by (simpl; lia). done. }
  set (c' := take (Z.to_nat (limit + 1)) c).
  assert (Hlen : length c' = Z.to_nat (limit + 1)).
  { unfold c'. rewrite length_take. lia. }
  apply (followed_error fs content repoRoot currentFilePath maxDepth c').
  - by apply follows_take.
  - fold limit. lia.
  - intros st' _ _. fold root limit. rewrite expand_deep by lia. done.
Qed.

Lemma failure_has_cause fs content repoRoot currentFilePath maxDepth e :
  let root := Path.resolve (cwd fs) [repoRoot] in
  let limit := default 5%Z maxDepth in
  (expandIncludeDirectives fs content repoRoot currentFilePath maxDepth).1 = inl e →
  ∃ c, Chain fs root content currentFilePath c
       ∧ cause fs root limit [] content currentFilePath c e
       ∧ NoDup (map lPath c).
Proof.
  intros root limit Hrun. unfold expandIncludeDirectives in Hrun. fold root limit in Hrun.
  destruct (expand fs root limit _ _ _ _ _) as [r st'] eqn:HE. simpl in Hrun. subst r.
  destruct (failure_cause fs root limit _ [] _ _ _ _ _ HE (fuel_enough limit)
              (cacheOK_fresh fs) eq_refl) as (c & Hc & Hcause & Hnd & _).
  by exists c.
Qed.

(** C2.  An include chain leads from the content through files, each
    named by a directive, in any position, of the text before it.
    Whenever one is longer than the maximum depth (5 unless
    configured), the expansion fails.  When every directive met leads
    to a file and no chain comes back to one of its files, the error
    is the depth error, raised for a file one step past the limit; and
    in any case, when the expansion follows a chain longer than the
    maximum depth, the error is the depth error, raised for the file
    at which that chain passes the limit.  A result, when there is
    one, is the full substitution, nothing being cut short; and when
    every directive met leads to a file and no chain is longer than
    the maximum depth, the expansion succeeds. *)
Theorem depth_limit_is_exact (fs : Storage) (content repoRoot currentFilePath : string)
    (maxDepth : option Z) :
  let root := Path.resolve (cwd fs) [repoRoot] in
  let limit := default 5%Z maxDepth in
  let result := (expandIncludeDirectives fs content repoRoot currentFilePath maxDepth).1 in
  (∀ c, Chain fs root content currentFilePath c → (limit < Z.of_nat (length c))%Z →
     ∃ e, result = inl e)
  ∧ (resolvable fs root content currentFilePath →
     (∀ c, Chain fs root content currentFilePath c → NoDup (map lPath c)) →
     ∀ c, Chain fs root content currentFilePath c → (limit < Z.of_nat (length c))%Z →
     ∃ c', Chain fs root content currentFilePath c'
           ∧ Z.of_nat (length c') = Z.max 0 (limit + 1)
           ∧ result = inl (DepthExceeded limit (chainEnd content currentFilePath c').2))
  ∧ (∀ c, Follows fs root limit [] content currentFilePath c →
       (limit < Z.of_nat (length c))%Z →
       result = inl (DepthExceeded limit (boundary limit content currentFilePath c)))
  ∧ (∀ expanded, result = inr expanded →
       substitute fs root (S (Z.to_nat limit)) content currentFilePath = Some expanded)
  ∧ (resolvable fs root content currentFilePath →
     (∀ c, Chain fs root content currentFilePath c → (Z.of_nat (length c) ≤ limit)%Z) →
     ∃ expanded, result = inr expanded).
Proof.
  intros root limit result.
  assert (Hfails : ∀ c, Chain fs root content currentFilePath c →
            (limit < Z.of_nat (length c))%Z → ∃ e, result = inl e).
  { intros c Hc Hlong. destruct result as [e|expanded] eqn:Hrun; [by exists e|].
    destruct (success_is_sound fs content repoRoot currentFilePath maxDepth expanded Hrun)
      as [Hsound _].
    destruct (sound_chain fs root limit c [] _ _ Hsound Hc) as (Hend & _ & _).
    inversion Hend as [? ? ? Hlen _]; subst.
    rewrite length_app, opened_length in Hlen. simpl in Hlen. lia. }
  split; [done|]. split; [|split; [|split]].
  - intros Hres Hacyclic c Hc Hlong. destruct (Hfails c Hc Hlong) as [e He].
    destruct (failure_has_cause fs content repoRoot currentFilePath maxDepth e He)
      as (c' & Hc' & Hcause & _).
    exists c'. split; [done|]. unfold cause in Hcause. fold root limit in Hcause.
    rewrite app_nil_r, opened_length in Hcause.
    destruct Hcause as [(Hdeep & Hat & ->)|(im & Him & Hlen & Hcase)].
    + split; [|done]. destruct Hat as [->|Hat]; simpl in *; lia.
    + exfalso. destruct (Hres c' im Hc' Him) as (l & Hr & Hread). rewrite Hr in Hcase.
      destruct Hcase as [[Hin _]|[Hnone _]]; [|congruence].
      assert (Hlong' : Chain fs root content currentFilePath (c' ++ [l])).
      { apply chain_app. split; [done|]. simpl. split; [|done]. by exists im. }
      apply Hacyclic in Hlong'. rewrite map_app in Hlong'.
      apply NoDup_app in Hlong' as (_ & Hfresh & _).
      apply opened_elem in Hin. apply (Hfresh _ Hin). by left.
  - intros c Hf Hlong. by apply followed_past_limit.
  - intros expanded Hrun.
    by destruct (success_is_sound fs content repoRoot currentFilePath maxDepth expanded Hrun).
  - intros Hres Hbound. pose proof (Hbound [] I) as H0. simpl in H0.
    pose proof (bounded_sound fs root limit content currentFilePath Hres Hbound
                  (Z.to_nat limit) [] I) as Hsound.
    simpl in Hsound.
    destruct (sound_runs fs root limit (S (Z.to_nat limit)) [] content currentFilePath fresh)
      as (out & st' & HE & _); [apply Hsound; lia|simpl; lia|apply cacheOK_fresh|done|].
    exists out. subst result. unfold expandIncludeDirectives. fold root limit.
    simpl length in HE. by rewrite HE.
Qed.

(** C3, as the code has it.  A cycle shows as an include chain that
    names a file twice; whenever there is one, the expansion fails.
    When the expansion, having followed a chain within the depth
    limit, comes to a directive, in any position, whose resolved path
    is one of the files of the chain, the error is the cycle error for
    that path.  When the chain it follows passes the depth limit
    first, the error is the depth error.  When every directive met
    leads to a file and no chain through distinct files is longer than
    the limit, a cycle gives the cycle error, for a file that a chain
    comes back to. *)
Theorem cycle_is_detected (fs : Storage) (content repoRoot currentFilePath : string)
    (maxDepth : option Z) :
  let root := Path.resolve (cwd fs) [repoRoot] in
  let limit := default 5%Z maxDepth in
  let result := (expandIncludeDirectives fs content repoRoot currentFilePath maxDepth).1 in
  (∀ c, Chain fs root content currentFilePath c → ¬ NoDup (map lPath c) →
     ∃ e, result = inl e)
  ∧ (∀ c im p,
       let last := chainEnd content currentFilePath c in
       Follows fs root limit [] content currentFilePath c →
       (Z.of_nat (length c) ≤ limit)%Z →
       comesTo fs root limit (opened c) last.1 last.2 im →
       resolveIncludePath fs (includePathOf im.2) root last.2 = inr p →
       p ∈ map lPath c →
       result = inl (Cycle p))
  ∧ (∀ c, Follows fs root limit [] content currentFilePath c →
       (limit < Z.of_nat (length c))%Z →
       result = inl (DepthExceeded limit (boundary limit content currentFilePath c)))
  ∧ (resolvable fs root content currentFilePath →
     (∀ c, Chain fs root content currentFilePath c → NoDup (map lPath c) →
           (Z.of_nat (length c) ≤ limit)%Z) →
     ∀ c, Chain fs root content currentFilePath c → ¬ NoDup (map lPath c) →
     ∃ c' im p,
       Chain fs root content currentFilePath c'
       ∧ im ∈ directives (chainEnd content currentFilePath c').1
       ∧ resolveIncludePath fs (includePathOf im.2) root
           (chainEnd content currentFilePath c').2 = inr p
       ∧ p ∈ map lPath c'
       ∧ result = inl (Cycle p)).
Proof.
  intros root limit result.
  assert (Hfails : ∀ c, Chain fs root content currentFilePath c → ¬ NoDup (map lPath c) →
            ∃ e, result = inl e).
  { intros c Hc Hdup. destruct result as [e|expanded] eqn:Hrun; [by exists e|].
    destruct (success_is_sound fs content repoRoot currentFilePath maxDepth expanded Hrun)
      as [Hsound _].
    by destruct (sound_chain fs root limit c [] _ _ Hsound Hc) as (_ & Hnd & _). }
  split; [done|]. split; [|split; [by intros; apply followed_past_limit|]];
    [|intros Hres Hbound c Hc Hdup; destruct (Hfails c Hc Hdup) as [e He];
      destruct (failure_has_cause fs content repoRoot currentFilePath maxDepth e He)
        as (c' & Hc' & Hcause & Hnd);
      unfold cause in Hcause; fold root limit in Hcause;
      rewrite app_nil_r, opened_length in Hcause;
      destruct Hcause as [(Hdeep & _)|(im & Him & Hlen & Hcase)];
      [specialize (Hbound c' Hc' Hnd); lia|];
      destruct (Hres c' im Hc' Him) as (l & Hr & Hread); rewrite Hr in Hcase;
      destruct Hcase as [[Hin ->]|[Hnone _]]; [|congruence];
      exists c', im, (lPath l); repeat split; try done; by apply opened_elem].
  - intros c im p last Hf Hlen Hcome Hr Hp. subst result.
    apply (followed_error fs content repoRoot currentFilePath maxDepth c);
      [done|fold limit; lia|].
    intros st' Hc' Hs'. fold root limit last.
    replace (S (Z.to_nat limit) - length c) with (S (Z.to_nat limit - length c)) by lia.
    set (n := Z.to_nat limit - length c).
    assert (Hd : (Z.of_nat (length (opened c)) ≤ limit)%Z) by (rewrite opened_length; lia).
    assert (Hfuel : (limit < Z.of_nat (length (opened c)) + 1 + Z.of_nat n)%Z)
      by (rewrite opened_length; lia).
    rewrite <- (opened_length c).
    destruct (arrival fs root limit n (opened c) last.1 last.2 im st' Hcome Hd Hfuel Hc' Hs')
      as (after & res & lastIndex & st1 & Hc1 & Hs1 & ->).
    destruct im as [i m]. simpl in Hr.
    rewrite (loop_first fs root _ _ _ _ _ _ _ _ _ _ _ Hr).
    rewrite bool_decide_eq_true_2; [done|].
    rewrite Hs1, Hs', elem_of_list_to_set. by apply opened_elem.
Qed.

(** C4.  Every path handed to [fs.readFile] during an expansion is the
    root or starts with the root and the separator.  Whenever a
    directive, in any position of a text at the end of an include
    chain, has a normalized target that fails that test, the expansion
    fails.  When the expansion, having followed a chain within the
    depth limit, comes to such a directive, the error is the
    path-escape error, and the target is not among the paths read.
    When every other directive met leads to a file, no chain comes
    back to one of its files and none is longer than the limit, the
    error is the path-escape error, for a directive that points
    outside. *)
Theorem escaping_include_is_refused (fs : Storage)
    (content repoRoot currentFilePath : string) (maxDepth : option Z) :
  let root := Path.resolve (cwd fs) [repoRoot] in
  let limit := default 5%Z maxDepth in
  let run := expandIncludeDirectives fs content repoRoot currentFilePath maxDepth in
  Forall (λ p, insideRoot fs root p = true) (reads run.2)
  ∧ (∀ c im, Chain fs root content currentFilePath c →
       im ∈ directives (chainEnd content currentFilePath c).1 →
       insideRoot fs root
         (includeTarget fs (includePathOf im.2) root (chainEnd content currentFilePath c).2)
       = false →
       ∃ e, run.1 = inl e)
  ∧ (∀ c im,
       let last := chainEnd content currentFilePath c in
       let target := includeTarget fs (includePathOf im.2) root last.2 in
       Follows fs root limit [] content currentFilePath c →
       (Z.of_nat (length c) ≤ limit)%Z →
       comesTo fs root limit (opened c) last.1 last.2 im →
       insideRoot fs root target = false →
       run.1 = inl (PathEscape (includePathOf im.2)) ∧ target ∉ reads run.2)
  ∧ ((∀ c im, Chain fs root content currentFilePath c →
        im ∈ directives (chainEnd content currentFilePath c).1 →
        (∃ l, leadsTo fs root (chainEnd content currentFilePath c).2 im.2 l)
        ∨ insideRoot fs root
            (includeTarget fs (includePathOf im.2) root
               (chainEnd content currentFilePath c).2) = false) →
     (∀ c, Chain fs root content currentFilePath c →
           NoDup (map lPath c) ∧ (Z.of_nat (length c) ≤ limit)%Z) →
     ∀ c im, Chain fs root content currentFilePath c →
       im ∈ directives (chainEnd content currentFilePath c).1 →
       insideRoot fs root
         (includeTarget fs (includePathOf im.2) root (chainEnd content currentFilePath c).2)
       = false →
       ∃ c' im',
         Chain fs root content currentFilePath c'
         ∧ im' ∈ directives (chainEnd content currentFilePath c').1
         ∧ insideRoot fs root
             (includeTarget fs (includePathOf im'.2) root
                (chainEnd content currentFilePath c').2) = false
         ∧ run.1 = inl (PathEscape (includePathOf im'.2))).
Proof.
  intros root limit run.
  assert (Hall : Forall (λ p, insideRoot fs root p = true) (reads run.2)).
  { subst run. unfold expandIncludeDirectives. fold root limit.
    apply (expand_inside fs root limit). constructor. }
  assert (Hfails : ∀ c im, Chain fs root content currentFilePath c →
            im ∈ directives (chainEnd content currentFilePath c).1 →
            insideRoot fs root
              (includeTarget fs (includePathOf im.2) root
                 (chainEnd content currentFilePath c).2) = false →
            ∃ e, run.1 = inl e).
  { intros c im Hc Him Hout. destruct run.1 as [e|expanded] eqn:Hrun; [by exists e|].
    destruct (success_is_sound fs content repoRoot currentFilePath maxDepth expanded Hrun)
      as [Hsound _].
    destruct (sound_chain fs root limit c [] _ _ Hsound Hc) as (Hend & _ & _).
    inversion Hend as [? ? ? _ Hdirs]; subst. rewrite Forall_forall in Hdirs.
    destruct (Hdirs im Him) as (l & [Hr _] & _).
    apply resolve_target in Hr. congruence. }
  split; [done|]. split; [done|]. split; [|
    intros Hmet Hgraph c im Hc Him Hout; destruct (Hfails c im Hc Him Hout) as [e He];
    destruct (failure_has_cause fs content repoRoot currentFilePath maxDepth e He)
      as (c' & Hc' & Hcause & _);
    unfold cause in Hcause; fold root limit in Hcause;
    rewrite app_nil_r, opened_length in Hcause;
    destruct Hcause as [(Hdeep & _)|(im' & Him' & Hlen & Hcase)];
    [destruct (Hgraph c' Hc'); lia|];
    exists c', im'; split; [done|]; split; [done|];
    destruct (Hmet c' im' Hc' Him') as [(l & Hr & Hread)|Hout'];
    [exfalso; rewrite Hr in Hcase; destruct Hcase as [[Hin _]|[Hnone _]]; [|congruence];
     assert (Hlong : Chain fs root content currentFilePath (c' ++ [l]))
       by (apply chain_app; split; [done|]; simpl; split; [|done]; by exists im');
     apply Hgraph in Hlong as [Hlong _]; rewrite map_app in Hlong;
     apply NoDup_app in Hlong as (_ & Hfresh & _);
     apply opened_elem in Hin; apply (Hfresh _ Hin); by left
    |split; [done|]; rewrite (resolve_escape fs root _ _ Hout') in Hcase; by subst]].
  intros c im last target Hf Hlen Hcome Hout. split.
    + subst run.
      apply (followed_error fs content repoRoot currentFilePath maxDepth c);
        [done|fold limit; lia|].
      intros st' Hc' Hs'. fold root limit last.
      replace (S (Z.to_nat limit) - length c) with (S (Z.to_nat limit - length c)) by lia.
      set (n := Z.to_nat limit - length c).
      assert (Hd : (Z.of_nat (length (opened c)) ≤ limit)%Z) by (rewrite opened_length; lia).
      assert (Hfuel : (limit < Z.of_nat (length (opened c)) + 1 + Z.of_nat n)%Z)
        by (rewrite opened_length; lia).
      rewrite <- (opened_length c).
      destruct (arrival fs root limit n (opened c) last.1 last.2 im st' Hcome Hd Hfuel Hc' Hs')
        as (after & res & lastIndex & st1 & Hc1 & Hs1 & ->).
      destruct im as [i m].
      by rewrite (loop_refused fs root _ _ _ _ _ _ _ _ _ _ _ (resolve_escape fs root _ _ Hout)).
    + intros Hin. rewrite Forall_forall in Hall. specialize (Hall _ Hin). congruence.
Qed.

(** The samples: [d.md] expands, whatever is open. *)
Lemma fileD_sound limit open :
  (Z.of_nat (length open) < limit)%Z →
  Sound sampleStorage sampleRoot limit (lPath fileD :: open) (lText fileD) (lPath fileD).
Proof.
  intros H. constructor; [simpl length; lia|].
  assert (directives (lText fileD) = []) as -> by (vm_compute; reflexivity). constructor.
Qed.

Lemma fileD_expands limit fp i before after :
  resolveIncludePath sampleStorage "d.md" sampleRoot fp = inr (lPath fileD) →
  (0 < limit)%Z →
  expands sampleStorage sampleRoot limit [] fp (directiveAt i before "d.md" after).
Proof.
  intros Hr H. exists fileD. split; [|split].
  - split; [exact Hr|]. vm_compute. reflexivity.
  - by intros ?%elem_of_nil.
  - apply fileD_sound. simpl. lia.
Qed.

Lemma chainPage_follows :
  Follows sampleStorage sampleRoot 1 [] chainPage "/repo/top.md" [fileC; fileD].
Proof.
  split; [|split; [by intros ?%elem_of_nil|]].
  - exists (directiveAt 28 " and " "c.md" "").
    split; [|split; vm_compute; reflexivity].
    exists [directiveAt 4 "top " "d.md" " and !!!include(c.md)!!!"], [].
    split; [vm_compute; reflexivity|]. constructor; [|constructor].
    apply fileD_expands; [vm_compute; reflexivity|lia].
  - split; [|split; [|exact I]].
    + exists (directiveAt 2 "C[" "./d.md" "]").
      split; [|split; vm_compute; reflexivity].
      exists [], []. split; [vm_compute; reflexivity|constructor].
    + apply (bool_decide_unpack _). vm_compute. exact I.
Qed.

Lemma chainPage_longest :
  Chain sampleStorage sampleRoot chainPage "/repo/top.md" [fileC; fileD].
Proof.
  split; [|split; [|exact I]].
  - exists (directiveAt 28 " and " "c.md" ""). split; [|split; vm_compute; reflexivity].
    assert (directives chainPage
            = [directiveAt 4 "top " "d.md" " and !!!include(c.md)!!!";
               directiveAt 28 " and " "c.md" ""]) as -> by (vm_compute; reflexivity).
    apply elem_of_cons. right. apply list_elem_of_here.
  - exists (directiveAt 2 "C[" "./d.md" "]"). split; [|split; vm_compute; reflexivity].
    assert (directives (lText fileC) = [directiveAt 2 "C[" "./d.md" "]"]) as ->
      by (vm_compute; reflexivity).
    apply list_elem_of_here.
Qed.

Lemma chainPage_chains c :
  Chain sampleStorage sampleRoot chainPage "/repo/top.md" c →
  c = [] ∨ c = [fileD] ∨ c = [fileC] ∨ c = [fileC; fileD].
Proof.
  assert (HD : ∀ c, Chain sampleStorage sampleRoot (lText fileD) (lPath fileD) c → c = []).
  { intros [|l c']; [done|]. intros [(im & Him & _) _].
    assert (directives (lText fileD) = []) as Hd by (vm_compute; reflexivity).
    rewrite Hd in Him. by apply elem_of_nil in Him. }
  destruct c as [|l c]; [by left|]. intros [(im & Him & Hl) Hc].
  assert (directives chainPage
          = [directiveAt 4 "top " "d.md" " and !!!include(c.md)!!!";
             directiveAt 28 " and " "c.md" ""]) as Hd by (vm_compute; reflexivity).
  rewrite Hd in Him.
  apply elem_of_cons in Him as [->|Him]; [|apply list_elem_of_singleton in Him as ->].
  - assert (l = fileD) as ->.
    { apply (leadsTo_one _ _ _ _ _ _ Hl). split; vm_compute; reflexivity. }
    rewrite (HD c Hc). right. by left.
  - assert (l = fileC) as ->.
    { apply (leadsTo_one _ _ _ _ _ _ Hl). split; vm_compute; reflexivity. }
    destruct c as [|l c]; [right; right; by left|]. destruct Hc as [(im & Him & Hl') Hc].
    assert (directives (lText fileC) = [directiveAt 2 "C[" "./d.md" "]"]) as Hd'
      by (vm_compute; reflexivity).
    rewrite Hd' in Him. apply list_elem_of_singleton in Him as ->.
    assert (l = fileD) as ->.
    { apply (leadsTo_one _ _ _ _ _ _ Hl'). split; vm_compute; reflexivity. }
    rewrite (HD c Hc). by repeat right.
Qed.

Lemma chainPage_resolvable : resolvable sampleStorage sampleRoot chainPage "/repo/top.md".
Proof.
  intros c im Hc Him.
  destruct (chainPage_chains c Hc) as [->|[->|[->| ->]]]; simpl in Him.
  - assert (directives chainPage
            = [directiveAt 4 "top " "d.md" " and !!!include(c.md)!!!";
               directiveAt 28 " and " "c.md" ""]) as Hd by (vm_compute; reflexivity).
    rewrite Hd in Him.
    apply elem_of_cons in Him as [->|Him]; [|apply list_elem_of_singleton in Him as ->].
    + exists fileD. split; vm_compute; reflexivity.
    + exists fileC. split; vm_compute; reflexivity.
  - assert (directives "D" = []) as Hd by (vm_compute; reflexivity).
    rewrite Hd in Him. by apply elem_of_nil in Him.
  - assert (directives "C[!!!include(./d.md)!!!]" = [directiveAt 2 "C[" "./d.md" "]"]) as Hd
      by (vm_compute; reflexivity).
    rewrite Hd in Him. apply list_elem_of_singleton in Him as ->.
    exists fileD. split; vm_compute; reflexivity.
  - assert (directives "D" = []) as Hd by (vm_compute; reflexivity).
    rewrite Hd in Him. by apply elem_of_nil in Him.
Qed.

Lemma depth_limit_is_exact_witness :
  (expandIncludeDirectives sampleStorage chainPage "/repo" "/repo/top.md" (Some 1%Z)).1
  = inl (DepthExceeded 1 "/repo/d.md")
  ∧ (∃ c', Chain sampleStorage sampleRoot chainPage "/repo/top.md" c'
           ∧ Z.of_nat (length c') = Z.max 0 (1 + 1)
           ∧ (expandIncludeDirectives sampleStorage chainPage "/repo" "/repo/top.md"
                (Some 1%Z)).1
             = inl (DepthExceeded 1 (chainEnd chainPage "/repo/top.md" c').2))
  ∧ substitute sampleStorage sampleRoot 3 chainPage "/repo/top.md" = Some "top D and C[D]"
  ∧ (∃ expanded,
       (expandIncludeDirectives sampleStorage chainPage "/repo" "/repo/top.md"
          (Some 2%Z)).1 = inr expanded).
Proof.
  pose proof (depth_limit_is_exact sampleStorage chainPage "/repo" "/repo/top.md"
                (Some 1%Z)) as (_ & Hhealthy & Hfollowed & _).
  pose proof (depth_limit_is_exact sampleStorage chainPage "/repo" "/repo/top.md"
                (Some 2%Z)) as (_ & _ & _ & Hfull & Hwithin).
  split; [|split; [|split]].
  - apply (Hfollowed [fileC; fileD]).
    + exact chainPage_follows.
    + simpl. lia.
  - apply (Hhealthy chainPage_resolvable) with (c := [fileC; fileD]).
    + intros c Hc. destruct (chainPage_chains c Hc) as [->|[->|[->| ->]]];
        apply (bool_decide_unpack _); vm_compute; exact I.
    + exact chainPage_longest.
    + simpl. lia.
  - apply (Hfull "top D and C[D]"). vm_compute. reflexivity.
  - apply (Hwithin chainPage_resolvable).
    intros c Hc. destruct (chainPage_chains c Hc) as [->|[->|[->| ->]]]; simpl; lia.
Defined.

Example chain_within_limit :
  (expandIncludeDirectives sampleStorage chainPage "/repo" "/repo/top.md" (Some 2%Z)).1
  = inr "top D and C[D]"
  ∧ (expandIncludeDirectives sampleStorage chainPage "/repo" "/repo/top.md" (Some 1%Z)).1
    = inl (DepthExceeded 1 "/repo/d.md")
  ∧ (expandIncludeDirectives sampleStorage chainPage "/repo" "/repo/top.md" (Some (-1)%Z)).1
    = inl (DepthExceeded (-1) "/repo/top.md").
Proof. repeat split; vm_compute; reflexivity. Qed.

Lemma cyclePage_follows :
  Follows sampleStorage sampleRoot 5 [] cyclePage "/repo/top.md" [fileA; fileB].
Proof.
  split; [|split; [by intros ?%elem_of_nil|]].
  - exists (directiveAt 28 " and " "a.md" "").
    split; [|split; vm_compute; reflexivity].
    exists [directiveAt 4 "top " "d.md" " and !!!include(a.md)!!!"], [].
    split; [vm_compute; reflexivity|]. constructor; [|constructor].
    apply fileD_expands; [vm_compute; reflexivity|lia].
  - split; [|split; [|exact I]].
    + exists (directiveAt 2 "A[" "b.md" "]").
      split; [|split; vm_compute; reflexivity].
      exists [], []. split; [vm_compute; reflexivity|constructor].
    + apply (bool_decide_unpack _). vm_compute. exact I.
Qed.

Lemma cyclePage_step input fp im l :
  (input, fp) ∈ [(cyclePage, "/repo/top.md"); (lText fileD, lPath fileD);
                 (lText fileA, lPath fileA); (lText fileB, lPath fileB)] →
  im ∈ directives input → leadsTo sampleStorage sampleRoot fp im.2 l →
  l ∈ [fileA; fileB; fileD].
Proof.
  intros Hin Him Hl.
  repeat (apply elem_of_cons in Hin as [Hin|Hin]); try (by apply elem_of_nil in Hin);
    injection Hin as -> ->.
  - vm_compute in Him.
    apply elem_of_cons in Him as [->|Him]; [|apply list_elem_of_singleton in Him as ->].
    + assert (l = fileD) as ->
        by (apply (leadsTo_one _ _ _ _ _ _ Hl); split; vm_compute; reflexivity).
      by repeat constructor.
    + assert (l = fileA) as ->
        by (apply (leadsTo_one _ _ _ _ _ _ Hl); split; vm_compute; reflexivity).
      by repeat constructor.
  - vm_compute in Him. by apply elem_of_nil in Him.
  - vm_compute in Him. apply list_elem_of_singleton in Him as ->.
    assert (l = fileB) as ->
      by (apply (leadsTo_one _ _ _ _ _ _ Hl); split; vm_compute; reflexivity).
    by repeat constructor.
  - vm_compute in Him. apply list_elem_of_singleton in Him as ->.
    assert (l = fileA) as ->
      by (apply (leadsTo_one _ _ _ _ _ _ Hl); split; vm_compute; reflexivity).
    by repeat constructor.
Qed.

Lemma cyclePage_ends c : ∀ input fp,
  (input, fp) ∈ [(cyclePage, "/repo/top.md"); (lText fileD, lPath fileD);
                 (lText fileA, lPath fileA); (lText fileB, lPath fileB)] →
  Chain sampleStorage sampleRoot input fp c →
  chainEnd input fp c ∈ [(cyclePage, "/repo/top.md"); (lText fileD, lPath fileD);
                         (lText fileA, lPath fileA); (lText fileB, lPath fileB)]
  ∧ Forall (λ l, l ∈ [fileA; fileB; fileD]) c.
Proof.
  induction c as [|l c IH]; intros input fp Hin Hc; [by split|].
  destruct Hc as [(im & Him & Hl) Hc].
  pose proof (cyclePage_step input fp im l Hin Him Hl) as Hfile.
  destruct (IH (lText l) (lPath l)) as [Hend Hall]; [|done|by split; [|constructor]].
  repeat (apply elem_of_cons in Hfile as [->|Hfile]); try (by apply elem_of_nil in Hfile);
    by repeat constructor.
Qed.

Lemma cyclePage_resolvable : resolvable sampleStorage sampleRoot cyclePage "/repo/top.md".
Proof.
  intros c im Hc Him.
  destruct (cyclePage_ends c cyclePage "/repo/top.md") as [Hend _];
    [by repeat constructor|done|].
  destruct (chainEnd cyclePage "/repo/top.md" c) as [input fp]. simpl in *.
  repeat (apply elem_of_cons in Hend as [Hend|Hend]); try (by apply elem_of_nil in Hend);
    injection Hend as -> ->.
  - vm_compute in Him.
    apply elem_of_cons in Him as [->|Him]; [|apply list_elem_of_singleton in Him as ->].
    + exists fileD. split; vm_compute; reflexivity.
    + exists fileA. split; vm_compute; reflexivity.
  - vm_compute in Him. by apply elem_of_nil in Him.
  - vm_compute in Him. apply list_elem_of_singleton in Him as ->.
    exists fileB. split; vm_compute; reflexivity.
  - vm_compute in Him. apply list_elem_of_singleton in Him as ->.
    exists fileA. split; vm_compute; reflexivity.
Qed.

Lemma cyclePage_simple c :
  Chain sampleStorage sampleRoot cyclePage "/repo/top.md" c → NoDup (map lPath c) →
  (Z.of_nat (length c) ≤ 5)%Z.
Proof.
  intros Hc Hnd.
  destruct (cyclePage_ends c cyclePage "/repo/top.md") as [_ Hall];
    [by repeat constructor|done|].
  assert (Hsub : map lPath c ⊆+ map lPath [fileA; fileB; fileD]).
  { apply NoDup_submseteq; [done|]. intros p (l & -> & Hl)%list_elem_of_fmap.
    rewrite Forall_forall in Hall. apply list_elem_of_fmap. exists l. split; [done|].
    by apply Hall. }
  apply submseteq_length in Hsub. rewrite !length_map in Hsub. simpl in Hsub. lia.
Qed.

Lemma cyclePage_round :
  Chain sampleStorage sampleRoot cyclePage "/repo/top.md" [fileA; fileB; fileA].
Proof.
  split; [|split; [|split; [|exact I]]].
  - exists (directiveAt 28 " and " "a.md" ""). split; [|split; vm_compute; reflexivity].
    assert (directives cyclePage
            = [directiveAt 4 "top " "d.md" " and !!!include(a.md)!!!";
               directiveAt 28 " and " "a.md" ""]) as -> by (vm_compute; reflexivity).
    apply elem_of_cons. right. apply list_elem_of_here.
  - exists (directiveAt 2 "A[" "b.md" "]"). split; [|split; vm_compute; reflexivity].
    assert (directives (lText fileA) = [directiveAt 2 "A[" "b.md" "]"]) as ->
      by (vm_compute; reflexivity).
    apply list_elem_of_here.
  - exists (directiveAt 2 "B[" "/a.md" "]"). split; [|split; vm_compute; reflexivity].
    assert (directives (lText fileB) = [directiveAt 2 "B[" "/a.md" "]"]) as ->
      by (vm_compute; reflexivity).
    apply list_elem_of_here.
Qed.

Lemma cycle_is_detected_witness :
  (expandIncludeDirectives sampleStorage cyclePage "/repo" "/repo/top.md" None).1
  = inl (Cycle "/repo/a.md")
  ∧ ∃ c' im p,
      Chain sampleStorage sampleRoot cyclePage "/repo/top.md" c'
      ∧ im ∈ directives (chainEnd cyclePage "/repo/top.md" c').1
      ∧ resolveIncludePath sampleStorage (includePathOf im.2) sampleRoot
          (chainEnd cyclePage "/repo/top.md" c').2 = inr p
      ∧ p ∈ map lPath c'
      ∧ (expandIncludeDirectives sampleStorage cyclePage "/repo" "/repo/top.md" None).1
        = inl (Cycle p).
Proof.
  pose proof (cycle_is_detected sampleStorage cyclePage "/repo" "/repo/top.md" None)
    as (_ & Hfollowed & _ & Hhealthy).
  split.
  - apply (Hfollowed [fileA; fileB] (directiveAt 2 "B[" "/a.md" "]") "/repo/a.md").
    + exact cyclePage_follows.
    + simpl. lia.
    + exists [], []. split; [vm_compute; reflexivity|constructor].
    + vm_compute. reflexivity.
    + apply (bool_decide_unpack _). vm_compute. exact I.
  - apply (Hhealthy cyclePage_resolvable cyclePage_simple [fileA; fileB; fileA]).
    + exact cyclePage_round.
    + apply (bool_decide_unpack _). vm_compute. exact I.
Defined.

(** C3 as stated fails.  [a.md] and [b.md] include each other, so the
    chain from the text of [a.md] comes back to [a.md]; with a maximum
    depth of 1 the expansion ends in the depth error, raised for
    [a.md], and not in the cycle error: the starting file is not on the
    stack, and the check of the depth comes before the directives of a
    file are looked at.  With a maximum depth of 2 the cycle error is
    raised, for [b.md]. *)
Lemma cycle_cut_by_depth_limit :
  Chain sampleStorage sampleRoot (lText fileA) "/repo/a.md" [fileB; fileA]
  ∧ (expandIncludeDirectives sampleStorage (lText fileA) "/repo" "/repo/a.md"
       (Some 1%Z)).1 = inl (DepthExceeded 1 "/repo/a.md")
  ∧ (expandIncludeDirectives sampleStorage (lText fileA) "/repo" "/repo/a.md"
       (Some 2%Z)).1 = inl (Cycle "/repo/b.md").
Proof.
  split; [|split; vm_compute; reflexivity].
  split; [|split; [|exact I]].
  - exists (directiveAt 2 "A[" "b.md" "]"). split; [|split; vm_compute; reflexivity].
    assert (directives (lText fileA) = [directiveAt 2 "A[" "b.md" "]"]) as ->
      by (vm_compute; reflexivity).
    apply list_elem_of_here.
  - exists (directiveAt 2 "B[" "/a.md" "]"). split; [|split; vm_compute; reflexivity].
    assert (directives (lText fileB) = [directiveAt 2 "B[" "/a.md" "]"]) as ->
      by (vm_compute; reflexivity).
    apply list_elem_of_here.
Qed.

Lemma escapePage_chains c :
  Chain sampleStorage sampleRoot escapePage "/repo/top.md" c → c = [] ∨ c = [fileD].
Proof.
  destruct c as [|l c]; [by left|]. intros [(im & Him & Hl) Hc]. right.
  assert (directives escapePage
          = [directiveAt 2 "x " "d.md" " y !!!include(../etc/passwd)!!!";
             directiveAt 24 " y " "../etc/passwd" ""]) as Hd by (vm_compute; reflexivity).
  rewrite Hd in Him.
  apply elem_of_cons in Him as [->|Him]; [|apply list_elem_of_singleton in Him as ->].
  - assert (l = fileD) as ->
      by (apply (leadsTo_one _ _ _ _ _ _ Hl); split; vm_compute; reflexivity).
    destruct c as [|l c]; [done|]. destruct Hc as [(im & Him & _) _].
    assert (directives (lText fileD) = []) as Hd' by (vm_compute; reflexivity).
    rewrite Hd' in Him. by apply elem_of_nil in Him.
  - destruct Hl as [Hr _]. vm_compute in Hr. discriminate.
Qed.

Lemma escaping_include_is_refused_witness :
  (expandIncludeDirectives sampleStorage escapePage "/repo" "/repo/top.md" None).1
  = inl (PathEscape "../etc/passwd")
  ∧ ("/etc/passwd" ∉ reads (expandIncludeDirectives sampleStorage escapePage "/repo"
                              "/repo/top.md" None).2)
  ∧ ∃ c' im',
      Chain sampleStorage sampleRoot escapePage "/repo/top.md" c'
      ∧ im' ∈ directives (chainEnd escapePage "/repo/top.md" c').1
      ∧ insideRoot sampleStorage sampleRoot
          (includeTarget sampleStorage (includePathOf im'.2) sampleRoot
             (chainEnd escapePage "/repo/top.md" c').2) = false
      ∧ (expandIncludeDirectives sampleStorage escapePage "/repo" "/repo/top.md" None).1
        = inl (PathEscape (includePathOf im'.2)).
Proof.
  pose proof (escaping_include_is_refused sampleStorage escapePage "/repo" "/repo/top.md"
                None) as (_ & _ & Hfollowed & Hhealthy).
  assert (Hd : directives escapePage
               = [directiveAt 2 "x " "d.md" " y !!!include(../etc/passwd)!!!";
                  directiveAt 24 " y " "../etc/passwd" ""]) by (vm_compute; reflexivity).
  destruct (Hfollowed [] (directiveAt 24 " y " "../etc/passwd" "")) as [Herror Hread].
  { exact I. }
  { simpl. lia. }
  { exists [directiveAt 2 "x " "d.md" " y !!!include(../etc/passwd)!!!"], [].
    split; [vm_compute; reflexivity|]. constructor; [|constructor].
    apply fileD_expands; [vm_compute; reflexivity|reflexivity]. }
  { vm_compute. reflexivity. }
  split; [exact Herror|]. split; [exact Hread|].
  - apply Hhealthy with (c := []) (im := directiveAt 24 " y " "../etc/passwd" "").
    + intros c im Hc Him. destruct (escapePage_chains c Hc) as [->| ->]; simpl in Him.
      * rewrite Hd in Him.
        apply elem_of_cons in Him as [->|Him]; [|apply list_elem_of_singleton in Him as ->].
        -- left. exists fileD. split; vm_compute; reflexivity.
        -- right. vm_compute. reflexivity.
      * assert (directives "D" = []) as Hd' by (vm_compute; reflexivity).
        rewrite Hd' in Him. by apply elem_of_nil in Him.
    + intros c Hc. destruct (escapePage_chains c Hc) as [->| ->];
        (split; [apply (bool_decide_unpack _); vm_compute; exact I|simpl; lia]).
    + exact I.
    + simpl. rewrite Hd. apply elem_of_cons. right. apply list_elem_of_here.
    + vm_compute. reflexivity.
Defined.

End IncludeFacts.

(** ** The page pipeline of [build] *)

Module BuildFacts.
Import Rx Re Markdown Build Include StrFacts RxFacts FenceFacts.

Lemma stripLoop_app state before after :
  stripLoop state (before ++ after)
  = stripLoop state before ++ stripLoop (fenceAfter state before) after.
Proof.
  revert state. induction before as [|line before IH]; intros state; [done|].
  cbn [app stripLoop fenceAfter fold_left]. fold (fenceAfter (updateFenceState line state) before).
  rewrite IH. by repeat destruct (_ : bool).
Qed.

End BuildFacts.

(** ** The summary *)

Module SummaryFacts.
Import Rx Re Markdown StrFacts RxFacts Str SummarySyntax.

(** *** The patterns of [cleanSummaryText] *)

Lemma notChar_false a b : notChar a b = false → b = a.
Proof.
  unfold notChar, Char.non. intros H. apply negb_false_iff, same_true in H. done.
Qed.

Ltac early_stop :=
  let b := fresh "b" in let Hb := fresh "Hb" in
  intros ? b ? ? Hb; cbn beta iota; unfold notChar, Char.non in Hb;
  match goal with |- context [Char.same ?c b] => by destruct (Char.same c b) end.

Lemma matchAt_image prev s :
  (λ m, (dollar1 m, post m)) <$> matchAt IMAGE_RE prev s = imageAt s.
Proof.
  unfold matchAt, IMAGE_RE, imageAt, bracketed, afterDestination. cbn [seq run chr star].
  destruct s as [|a s0]; [done|].
  destruct (Char.same "!" a); [|done].
  destruct s0 as [|b s1]; [done|].
  destruct (Char.same "[" b); [|done].
  fold (notChar "]"). fold (notChar ")").
  rewrite many_longest by early_stop. cbn [Nat.leb].
  rewrite take_takeWhile.
  destruct (dropWhile_shape (notChar "]") s1) as [->|(x & s2 & -> & Hx)]; [done|].
  apply notChar_false in Hx as ->. rewrite same_refl.
  destruct s2 as [|c s2]; [done|]. destruct (Char.same "(" c); [|done].
  rewrite many_longest by early_stop. cbn [Nat.leb].
  destruct (dropWhile_shape (notChar ")") s2) as [->|(y & rest & -> & Hy)]; [done|].
  apply notChar_false in Hy as ->. rewrite same_refl. reflexivity.
Qed.

Lemma matchAt_link prev s :
  (λ m, (dollar1 m, post m)) <$> matchAt LINK_RE prev s = linkAt s.
Proof.
  unfold matchAt, LINK_RE, linkAt, bracketed, afterDestination. cbn [seq run chr star plus].
  destruct s as [|b s1]; [done|].
  destruct (Char.same "[" b); [|done].
  fold (notChar "]"). fold (notChar ")").
  rewrite many_longest by early_stop.
  rewrite take_takeWhile.
  destruct (takeWhile (notChar "]") s1) as [|t ts] eqn:Ht; cbn [len Nat.leb].
  { destruct (dropWhile (notChar "]") s1) as [|x [|c s2]]; [done..|].
    destruct (Char.same "(" c); [|done]. simpl.
    by destruct (dropWhile (notChar ")") s2). }
  destruct (dropWhile_shape (notChar "]") s1) as [->|(x & s2 & -> & Hx)]; [done|].
  apply notChar_false in Hx as ->. rewrite same_refl.
  destruct s2 as [|c s2]; [done|].
  destruct (Char.same "(" c); [|done].
  rewrite many_longest by early_stop. cbn [Nat.leb].
  destruct (dropWhile_shape (notChar ")") s2) as [->|(y & rest & -> & Hy)]; [done|].
  apply notChar_false in Hy as ->. rewrite same_refl. reflexivity.
Qed.

Lemma matchAt_tag prev s :
  post <$> matchAt TAG_RE prev s = tagAt s.
Proof.
  unfold matchAt, TAG_RE, tagAt. cbn [seq run chr plus].
  destruct s as [|a s1]; [done|]. destruct (Char.same "<" a); [|done].
  rewrite many_longest.
  2:{ intros prev' b s' c Hb. cbn [run]. unfold Char.non in Hb.
      by destruct (Char.same ">" b). }
  fold (notChar ">").
  destruct (takeWhile (notChar ">") s1) as [|x xs] eqn:Ht; [done|]. simpl.
  destruct (dropWhile_shape (notChar ">") s1) as [->|(b & rest & -> & Hb)]; [done|].
  apply notChar_false in Hb as ->. done.
Qed.

Lemma matchAt_code prev s :
  (λ m, (dollar1 m, post m)) <$> matchAt CODE_RE prev s = codeAt s.
Proof.
  unfold matchAt, CODE_RE, codeAt. cbn [seq run chr star].
  destruct s as [|a s1]; [done|].
  destruct (Char.same "`" a); [|done].
  fold (notChar "`").
  rewrite many_longest by early_stop. cbn [Nat.leb].
  rewrite take_takeWhile.
  destruct (dropWhile_shape (notChar "`") s1) as [->|(x & s2 & -> & Hx)]; [done|].
  apply notChar_false in Hx as ->. rewrite same_refl. reflexivity.
Qed.

Lemma matchAt_quote s :
  post <$> matchAt QUOTE_RE None s
  = if Str.startsWith ">" s
    then Some (dropWhile Char.space (dropWhile (Char.same ">") s))
    else None.
Proof.
  unfold matchAt, QUOTE_RE. cbn [seq run plus star].
  rewrite startsWith_run.
  rewrite many_total.
  2:{ intros prev' s' c'. rewrite many_total by (intros; eauto).
      cbn [Nat.leb]. eauto. }
  destruct (1 <=? _); [|done].
  rewrite many_total by (intros; eauto). reflexivity.
Qed.

Lemma matchAt_spaces prev s :
  post <$> matchAt SPACES_RE prev s
  = if Str.isEmpty (takeWhile Char.space s) then None
    else Some (dropWhile Char.space s).
Proof.
  unfold matchAt, SPACES_RE. cbn [run plus].
  rewrite many_total by (intros; eauto).
  by destruct (takeWhile Char.space s).
Qed.

(** *** The steps of [cleanSummaryText] *)

Lemma dollar1_shift a m : dollar1 (shift a m) = dollar1 m.
Proof. done. Qed.

Lemma imageToAlt_unfold :
  imageToAlt "" = ""
  ∧ ∀ a s, imageToAlt (String a s)
           = match imageAt (String a s) with
             | Some (alt, rest) => alt +:+ imageToAlt rest
             | None => String a (imageToAlt s)
             end.
Proof.
  destruct (replaceAll_unfold IMAGE_RE dollar1) as [H0 H1]; [done..|].
  split; [done|]. intros a s. unfold imageToAlt. rewrite H1.
  rewrite <- matchAt_image with (prev := None).
  by destruct (matchAt IMAGE_RE None (String a s)).
Qed.

Lemma linkToText_unfold :
  linkToText "" = ""
  ∧ ∀ a s, linkToText (String a s)
           = match linkAt (String a s) with
             | Some (label, rest) => label +:+ linkToText rest
             | None => String a (linkToText s)
             end.
Proof.
  destruct (replaceAll_unfold LINK_RE dollar1) as [H0 H1]; [done..|].
  split; [done|]. intros a s. unfold linkToText. rewrite H1.
  rewrite <- matchAt_link with (prev := None).
  by destruct (matchAt LINK_RE None (String a s)).
Qed.

Lemma dropTags_unfold :
  dropTags "" = ""
  ∧ ∀ a s, dropTags (String a s)
           = match tagAt (String a s) with
             | Some rest => dropTags rest
             | None => String a (dropTags s)
             end.
Proof.
  destruct (replaceAll_unfold TAG_RE (λ _, "")) as [H0 H1]; [done..|].
  split; [done|]. intros a s. unfold dropTags. rewrite H1.
  rewrite <- matchAt_tag with (prev := None).
  by destruct (matchAt TAG_RE None (String a s)).
Qed.

Lemma unwrapCode_unfold :
  unwrapCode "" = ""
  ∧ ∀ a s, unwrapCode (String a s)
           = match codeAt (String a s) with
             | Some (code, rest) => code +:+ unwrapCode rest
             | None => String a (unwrapCode s)
             end.
Proof.
  destruct (replaceAll_unfold CODE_RE dollar1) as [H0 H1]; [done..|].
  split; [done|]. intros a s. unfold unwrapCode. rewrite H1.
  rewrite <- matchAt_code with (prev := None).
  by destruct (matchAt CODE_RE None (String a s)).
Qed.

Lemma dropQuoteMarkers_unfold s :
  dropQuoteMarkers s
  = if Str.startsWith ">" s
    then dropWhile Char.space (dropWhile (Char.same ">") s)
    else s.
Proof.
  unfold dropQuoteMarkers.
  change QUOTE_RE with (Seq Bol (seq [plus (Char.same ">"); star Char.space])).
  rewrite replaceAll_bol by done.
  pose proof (matchAt_quote s) as Hm.
  change QUOTE_RE with (Seq Bol (seq [plus (Char.same ">"); star Char.space])) in Hm.
  destruct (matchAt _ None s); destruct (Str.startsWith ">" s); try done.
  by injection Hm as ->.
Qed.

Lemma collapseSpaces_unfold :
  collapseSpaces "" = ""
  ∧ ∀ a s, collapseSpaces (String a s)
           = if Char.space a
             then String " " (collapseSpaces (dropWhile Char.space s))
             else String a (collapseSpaces s).
Proof.
  destruct (replaceAll_unfold SPACES_RE (λ _, " ")) as [H0 H1]; [done..|].
  split; [done|]. intros a s. unfold collapseSpaces. rewrite H1.
  pose proof (matchAt_spaces None (String a s)) as Hm.
  cbn [takeWhile dropWhile] in Hm.
  destruct (Char.space a); simpl in Hm.
  - destruct (matchAt SPACES_RE None (String a s)); [|done].
    injection Hm as ->. done.
  - by destruct (matchAt SPACES_RE None (String a s)).
Qed.

(** The summary of a small page: the heading and the list are skipped,
    the two lines of the first paragraph are joined and cleaned. *)
Example extractSummary_sample :
  extractSummary
    (Str.unlines
       [ "# Title"; "- item"; "";
         "> See ![the  logo](logo.png) and [the `guide`](guide.md),";
         "  a <b>short</b>   text."; ""; "Next paragraph." ])
  = "See the logo and the guide, a short text.".
Proof. vm_compute. reflexivity. Qed.

(** The blockquote markers removed are those at the start of the
    joined text: the marker of a second quoted line stays. *)
Example extractSummary_quoted_lines :
  extractSummary (Str.unlines ["> first"; "> second"]) = "first > second".
Proof. vm_compute. reflexivity. Qed.

Lemma extractSummary_empty_paragraph content :
  summaryLoop outside [] (Str.lines content) = [] → extractSummary content = "".
Proof. unfold extractSummary. by intros ->. Qed.

(** C6.  [extractSummary] joins the collected paragraph lines with
    single spaces and cleans the result in this order: every image is
    replaced by its alt text, every link by its text, every tag is
    removed, every inline code span is replaced by its content, the
    blockquote markers at the start are removed, every run of
    whitespace becomes one space, and the result is trimmed.  Each
    step is the left-to-right replacement of the corresponding
    construct of [SummarySyntax].  The cleaning of an empty paragraph
    is the empty summary. *)
Theorem extractSummary_cleans_paragraph (content : string) :
  extractSummary content
  = Str.trim (collapseSpaces (dropQuoteMarkers (unwrapCode (dropTags
      (linkToText (imageToAlt
        (Str.join " " (summaryLoop outside [] (Str.lines content)))))))))
  ∧ replacesEach imageAt imageToAlt
  ∧ replacesEach linkAt linkToText
  ∧ replacesEach (removed tagAt) dropTags
  ∧ replacesEach codeAt unwrapCode
  ∧ (∀ s, dropQuoteMarkers s = default s (quoteAt s))
  ∧ replacesEach spacesAt collapseSpaces
  ∧ cleanSummaryText (Str.join " " []) = "".
Proof.
  split; [reflexivity|].
  split; [exact imageToAlt_unfold|].
  split; [exact linkToText_unfold|].
  split.
  { destruct dropTags_unfold as [H0 H1]. split; [done|]. intros a s.
    rewrite H1. unfold removed. by destruct (tagAt (String a s)). }
  split; [exact unwrapCode_unfold|].
  split.
  { intros s. rewrite dropQuoteMarkers_unfold. unfold quoteAt.
    by destruct (Str.startsWith ">" s). }
  split; [|reflexivity].
  destruct collapseSpaces_unfold as [H0 H1]. split; [done|]. intros a s.
  rewrite H1. unfold spacesAt. by destruct (Char.space a).
Qed.

End SummaryFacts.

(** ** Links *)

Module LinkFacts.
Import Rx Re Markdown StrFacts RxFacts.

Lemma normalizeDocLink_untouched url cur base :
  (Str.isEmpty url || Str.startsWith "#" url)
  || (Str.startsWith "//" url || test SCHEME_RE url) = true →
  normalizeDocLink url cur base = url.
Proof.
  unfold normalizeDocLink. intros H.
  destruct (Str.isEmpty url || Str.startsWith "#" url); [done|].
  rewrite orb_false_l in H. by rewrite H.
Qed.

Lemma normalizeDocLink_cases url cur base :
  normalizeDocLink url cur base = url
  ∨ ∃ rest, normalizeDocLink url cur base = base +:+ rest.
Proof.
  unfold normalizeDocLink.
  destruct (_ || _); [by left|]. destruct (_ || _); [by left|].
  destruct (cutAt "#" url) as [pathPart hash].
  destruct (cutAt "?" pathPart) as [pathPart' query].
  destruct (Str.isEmpty _); [by left|]. right.
  unfold ensureTrailingSlash. destruct (Str.endsWith "/" base).
  - eauto.
  - rewrite sapp_assoc. eauto.
Qed.

(** C7.  Normalising a link destination twice is normalising it once,
    when the base URL carries a scheme: the first pass either leaves
    the destination as it is or puts the base URL in front, and a
    destination that is empty, a fragment, protocol-relative or has a
    scheme is left untouched. *)
Theorem normalizeDocLink_idempotent (url currentFilePath baseUrl : string) :
  test SCHEME_RE baseUrl = true →
  normalizeDocLink (normalizeDocLink url currentFilePath baseUrl) currentFilePath baseUrl
  = normalizeDocLink url currentFilePath baseUrl
  ∧ ((Str.isEmpty url || Str.startsWith "#" url)
     || (Str.startsWith "//" url || test SCHEME_RE url) = true →
     normalizeDocLink url currentFilePath baseUrl = url).
Proof.
  intros Hbase. split; [|apply normalizeDocLink_untouched].
  destruct (normalizeDocLink_cases url currentFilePath baseUrl) as [H|[rest ->]].
  - by rewrite !H.
  - apply normalizeDocLink_untouched.
    rewrite (test_extend rest SCHEME_RE baseUrl) by done.
    by rewrite !orb_true_r.
Qed.

Lemma normalizeDocLink_idempotent_witness :
  test SCHEME_RE "https://x/docs/5.x/" = true
  ∧ normalizeDocLink "../system/updates.md#new" "guide/intro.md" "https://x/docs/5.x/"
    = "https://x/docs/5.x/system/updates.html#new"
  ∧ normalizeDocLink
      (normalizeDocLink "../system/updates.md#new" "guide/intro.md" "https://x/docs/5.x/")
      "guide/intro.md" "https://x/docs/5.x/"
    = normalizeDocLink "../system/updates.md#new" "guide/intro.md" "https://x/docs/5.x/".
Proof.
  split; [vm_compute; reflexivity|]. split; [vm_compute; reflexivity|].
  refine (proj1 (normalizeDocLink_idempotent "../system/updates.md#new" "guide/intro.md"
                   "https://x/docs/5.x/" _)).
  vm_compute. reflexivity.
Defined.

(** The whole-content pass is not idempotent: normalising the path of
    a reference definition's destination can assemble the syntax of an
    inline link, which the second pass rewrites. *)
Lemma normalizeLinks_second_pass_differs :
  test SCHEME_RE "https://x/" = true
  ∧ normalizeLinks "[a]: [p/]/../q](c.md)" "https://x/" "a.md"
    = "[a]: https://x/[p/q](c.md)"
  ∧ normalizeLinks (normalizeLinks "[a]: [p/]/../q](c.md)" "https://x/" "a.md")
      "https://x/" "a.md"
    = "[a]: https://x/[p/q](https://x/c.html)"
  ∧ normalizeLinks (normalizeLinks "[a]: [p/]/../q](c.md)" "https://x/" "a.md")
      "https://x/" "a.md"
    ≠ normalizeLinks "[a]: [p/]/../q](c.md)" "https://x/" "a.md".
Proof.
  split; [vm_compute; reflexivity|]. split; [vm_compute; reflexivity|].
  split; [vm_compute; reflexivity|]. vm_compute. discriminate.
Qed.

End LinkFacts.

(** ** Doc paths *)

Module DocPathFacts.
Import Rx Re Markdown StrFacts RxFacts Str DocPathSpec DocPathMapping.

(** A path is its directory segments and its final segment. *)
Lemma path_shape p :
  let file := DocPathSpec.finalSegment p in
  let segs := DocPathSpec.directorySegments p in
  noSlash file = true
  ∧ (segs = [] ∧ p = file ∨ segs ≠ [] ∧ p = join "/" segs +:+ "/" +:+ file).
Proof.
  unfold DocPathSpec.finalSegment, DocPathSpec.directorySegments.
  pose proof (splitOn_nonempty "/" p) as Hne.
  pose proof (splitOn_join "/" p) as Hj.
  pose proof (splitOn_segments "/" p) as Hs.
  destruct (exists_last Hne) as (segs & file & Heq). rewrite Heq in *.
  rewrite last_last, removelast_last. simpl.
  apply Forall_app in Hs as [_ Hf]. rewrite Forall_singleton in Hf. split; [exact Hf|].
  destruct segs as [|x xs]; [left; by split|right]. split; [done|].
  rewrite <- Hj. by rewrite join_snoc.
Qed.

Lemma toLower_fixes (c : ascii) :
  c = "/"%char ∨ c = "."%char →
  ∀ a, Char.toLower a = c → a = c.
Proof.
  intros [-> | ->] a; destruct a as [[] [] [] [] [] [] [] []]; vm_compute;
    intros H; first [reflexivity | discriminate H].
Qed.

Lemma toLower_slash a : Char.same "/" (Char.toLower a) = Char.same "/" a.
Proof.
  destruct (Char.same "/" a) eqn:Ha.
  - apply same_true in Ha as <-. reflexivity.
  - apply same_false. intros H. apply same_false in Ha. apply Ha.
    symmetry. apply (toLower_fixes "/"); auto.
Qed.

Lemma noSlash_lower s : noSlash (toLowerCase s) = noSlash s.
Proof.
  induction s as [|a s IH]; [done|]. unfold toLowerCase in *. simpl.
  unfold Char.non at 1 3. by rewrite toLower_slash, IH.
Qed.

Lemma last_slash_unique s1 s2 t1 t2 :
  s1 +:+ "/" +:+ t1 = s2 +:+ "/" +:+ t2 →
  noSlash t1 = true → noSlash t2 = true → t1 = t2.
Proof.
  revert s2. induction s1 as [|a s1 IH]; intros [|b s2] H H1 H2; sapp_norm_in H.
  - by injection H.
  - injection H as _ ->. rewrite allChars_app in H1. simpl in H1.
    by rewrite andb_false_r in H1.
  - injection H as _ <-. rewrite allChars_app in H2. simpl in H2.
    by rewrite andb_false_r in H2.
  - injection H as _ H. eapply (IH s2); [|done..]. by sapp_norm.
Qed.

Lemma index_condition (name p : string) :
  noSlash name = true →
  bool_decide (toLowerCase p = name) || endsWith ("/" +:+ name) (toLowerCase p)
  = bool_decide (toLowerCase (DocPathSpec.finalSegment p) = name).
Proof.
  intros Hn. destruct (path_shape p) as [Hf [[_ Hp]|[_ Hp]]].
  - rewrite <- Hp.
    destruct (endsWith _ _) eqn:He; [|by rewrite orb_false_r].
    apply endsWith_spec in He as [s0 He].
    assert (noSlash (toLowerCase p) = true) as Hl by (by rewrite noSlash_lower, Hp).
    rewrite He in Hl. rewrite !allChars_app in Hl. simpl in Hl.
    by rewrite andb_false_r in Hl.
  - set (file := DocPathSpec.finalSegment p) in *.
    set (dir := join "/" (DocPathSpec.directorySegments p)) in *.
    assert (Hlow : toLowerCase p = toLowerCase dir +:+ "/" +:+ toLowerCase file).
    { rewrite Hp. unfold toLowerCase. by rewrite !mapChars_app. }
    rewrite Hlow.
    rewrite (bool_decide_eq_false_2 (_ +:+ _ = name)).
    2:{ intros H. rewrite <- H in Hn. rewrite !allChars_app in Hn. simpl in Hn.
        by rewrite andb_false_r in Hn. }
    simpl. destruct (decide (toLowerCase file = name)) as [Hy|Hy].
    + rewrite (bool_decide_eq_true_2 _ Hy). apply endsWith_spec.
      exists (toLowerCase dir). by rewrite Hy.
    + rewrite (bool_decide_eq_false_2 _ Hy). apply not_true_is_false.
      intros [s0 He]%endsWith_spec. apply Hy.
      eapply last_slash_unique; [exact He| |done]. by rewrite noSlash_lower.
Qed.

Lemma dirname_file p : noSlash p = true → p ≠ "" → Path.dirname p = ".".
Proof.
  destruct p as [|c body]; [done|]. intros [Hc Hb]%andb_true_iff _.
  unfold Path.dirname.
  rewrite (dropWhile_none (Char.same "/")) by (by rewrite allChars_rev).
  rewrite dropWhile_all by (by rewrite allChars_rev).
  unfold Char.non in Hc. by destruct (Char.same "/" c).
Qed.

Lemma dirname_dir c d file :
  noSlash file = true → file ≠ "" →
  Path.dirname (String c d +:+ "/" +:+ file)
  = if Char.same "/" c && isEmpty d then "//" else String c d.
Proof.
  intros Hf Hne. rewrite sapp_cons. unfold Path.dirname.
  rewrite !srev_app.
  assert (Hr : allChars (Char.non (Char.same "/")) (rev file) = true)
    by (by rewrite allChars_rev).
  assert (Hre : rev file ≠ "").
  { intros H. apply Hne. rewrite <- (srev_involutive file), H. done. }
  rewrite sapp_assoc.
  change (rev "/") with "/".
  destruct (rev file) as [|x xs] eqn:Hx; [done|]. sapp_norm.
  simpl in Hr. apply andb_true_iff in Hr as [Hx1 Hx2].
  rewrite dropWhile_head by (unfold Char.non in Hx1; by destruct (Char.same "/" x)).
  change (String x (xs +:+ String "/" (rev d))) with (String x xs +:+ String "/" (rev d)).
  rewrite dropWhile_stop; [|simpl; by rewrite Hx1, Hx2|done].
  by rewrite srev_empty, srev_involutive.
Qed.

Lemma isIndexName_nonempty file : isIndexName file = true → file ≠ "".
Proof. by intros H ->. Qed.

Lemma join_dir d :
  d ≠ "" → Path.join [d; "index.html"] = Path.normalize (d +:+ "/index.html").
Proof.
  intros Hd. unfold Path.join.
  rewrite !filter_cons_True by done. rewrite filter_nil. reflexivity.
Qed.

Lemma dirname_root file : noSlash file = true → Path.dirname (String "/" file) = "/".
Proof.
  intros Hf. unfold Path.dirname.
  rewrite (dropWhile_none (Char.same "/")) by (by rewrite allChars_rev).
  rewrite dropWhile_all by (by rewrite allChars_rev). reflexivity.
Qed.

Lemma index_target p :
  isIndexName (finalSegment p) = true →
  Path.join [Path.dirname p; "index.html"]
  = match directorySegments p with
    | [] => "index.html"
    | segments => Path.normalize (join "/" segments +:+ "/index.html")
    end.
Proof.
  intros Hi. pose proof (isIndexName_nonempty _ Hi) as Hne.
  destruct (path_shape p) as [Hf [[Hs Hp]|[Hs Hp]]].
  - rewrite Hs, Hp. rewrite dirname_file by done. reflexivity.
  - destruct (directorySegments p) as [|x xs] eqn:Hd; [done|]. clear Hs.
    set (d := join "/" (x :: xs)) in *. rewrite Hp.
    destruct d as [|c d'].
    + sapp_norm. rewrite dirname_root by done. reflexivity.
    + rewrite dirname_dir by done.
      destruct (Char.same "/" c) eqn:Hc; [destruct d' as [|c' d']|]; simpl.
      * apply same_true in Hc as <-. reflexivity.
      * by rewrite join_dir.
      * by rewrite join_dir.
Qed.

Lemma toLower_md (a : ascii) :
  (Char.toLower a = "m"%char → Char.oneOf "mM" a = true)
  ∧ (Char.toLower a = "d"%char → Char.oneOf "dD" a = true).
Proof.
  destruct a as [[] [] [] [] [] [] [] []]; vm_compute; split; intros H;
    first [reflexivity | discriminate H].
Qed.

Lemma md_extension ext :
  toLowerCase ext = ".md" →
  ∃ c1 c2 c3, ext = String c1 (String c2 (String c3 ""))
              ∧ Char.same "." c1 = true ∧ Char.oneOf "mM" c2 = true
              ∧ Char.oneOf "dD" c3 = true.
Proof.
  destruct ext as [|c1 [|c2 [|c3 [|c4 ext]]]]; try done.
  unfold toLowerCase. intros H. simpl in H. injection H as H1 H2 H3.
  exists c1, c2, c3. split; [done|]. split; [|split].
  - apply same_true. symmetry. apply (toLower_fixes "."); auto.
  - by apply toLower_md.
  - by apply toLower_md.
Qed.

Lemma matchAt_md_long prev c1 c2 c3 c4 s :
  matchAt MD_EXT_RE prev (String c1 (String c2 (String c3 (String c4 s)))) = None.
Proof.
  unfold matchAt, MD_EXT_RE. simpl.
  by repeat destruct (_ : bool).
Qed.

Lemma search_md stem c1 c2 c3 : ∀ prev,
  Char.same "." c1 = true → Char.oneOf "mM" c2 = true → Char.oneOf "dD" c3 = true →
  search MD_EXT_RE prev (stem +:+ String c1 (String c2 (String c3 "")))
  = Some (Found stem (String c1 (String c2 (String c3 ""))) [] "").
Proof.
  intros prev H1 H2 H3. revert prev.
  induction stem as [|a stem IH]; intros prev.
  - sapp_norm. unfold search, matchAt, MD_EXT_RE. cbn [seq run chr].
    rewrite H1, H2, H3. reflexivity.
  - sapp_norm. cbn [search].
    assert (Hlong : ∃ x y z t, stem +:+ String c1 (String c2 (String c3 ""))
                                = String x (String y (String z t))).
    { destruct stem as [|x [|y [|z t]]]; sapp_norm; eauto. }
    destruct Hlong as (x & y & z & t & Heq). rewrite Heq at 1.
    rewrite matchAt_md_long. rewrite IH. reflexivity.
Qed.

Lemma md_swap p :
  endsWith ".md" (toLowerCase p) = true →
  replaceFirst MD_EXT_RE (λ _, ".html") p = take (len p - 3) p +:+ ".html".
Proof.
  intros [s0 He]%endsWith_spec.
  apply mapChars_split in He as (stem & ext & -> & _ & Hext).
  destruct (md_extension _ Hext) as (c1 & c2 & c3 & -> & H1 & H2 & H3).
  unfold replaceFirst, exec. rewrite search_md by done. simpl.
  rewrite len_app. simpl. replace (len stem + 3 - 3) with (len stem) by lia.
  by rewrite str_take_app.
Qed.

Lemma mapDocPath_refines p : mapDocPath p = mapDocPathSpec p.
Proof.
  unfold mapDocPath, mapDocPathSpec. cbv zeta.
  change "/readme.md" with ("/" +:+ "readme.md").
  change "/index.md" with ("/" +:+ "index.md").
  rewrite (index_condition "readme.md" p) by done.
  rewrite (index_condition "index.md" p) by done.
  destruct (isIndexName (finalSegment p)) eqn:Hi.
  - rewrite index_target by done. unfold isIndexName in Hi.
    destruct (bool_decide (_ = "readme.md")); [done|].
    simpl in Hi. by rewrite Hi.
  - unfold isIndexName in Hi. apply orb_false_iff in Hi as [-> ->].
    destruct (endsWith ".md" _) eqn:He; [|done].
    by apply md_swap.
Qed.

(** C8.  [docPathToUrl] puts the base URL, a slash added when it has
    none at its end, before the mapped path: a final segment
    [readme.md] or [index.md], in any case and with or without a
    directory before it, gives the [index.html] of that directory;
    another path that ends in [.md] gets [.html] for its last three
    characters; any other path is kept as it is. *)
Theorem docPathToUrl_maps_doc_paths :
  (∀ relativePath baseUrl,
     docPathToUrl relativePath baseUrl
     = ensureTrailingSlash baseUrl
       +:+ stripLeadingSlash
             (mapDocPathSpec
                (stripLeadingSlash (replaceAll BACKSLASH_RE (λ _, "/") relativePath))))
  ∧ docPathToUrl "system/updates.md" "https://x/docs/5.x/"
    = "https://x/docs/5.x/system/updates.html".
Proof.
  split; [|vm_compute; reflexivity].
  intros relativePath baseUrl. unfold docPathToUrl. cbv zeta.
  by rewrite mapDocPath_refines.
Qed.

(** The other paths of the test suite. *)
Example docPathToUrl_index_pages :
  docPathToUrl "guides/README.md" "https://x/docs/5.x/"
  = "https://x/docs/5.x/guides/index.html"
  ∧ docPathToUrl "index.md" "https://x/docs/5.x"
    = "https://x/docs/5.x/index.html"
  ∧ docPathToUrl "images/logo.png" "https://x/docs/5.x/"
    = "https://x/docs/5.x/images/logo.png".
Proof. repeat split; vm_compute; reflexivity. Qed.

End DocPathFacts.

(** * Further properties of the code *)

(** ** Lines *)

Module LineFacts.
Import Heading StrFacts.

Lemma splitOn_none sep x :
  Str.allChars (Char.non (Char.same sep)) x = true → Str.splitOn sep x = [x].
Proof.
  induction x as [|a x IH]; [done|]. simpl. unfold Char.non at 1.
  intros [Ha Hx]%andb_true_iff. apply negb_true_iff in Ha. rewrite Ha.
  by rewrite IH.
Qed.

Lemma splitOn_app sep x t :
  Str.allChars (Char.non (Char.same sep)) x = true →
  Str.splitOn sep (x +:+ String sep t) = x :: Str.splitOn sep t.
Proof.
  induction x as [|a x IH].
  - intros _. rewrite sapp_nil_l. simpl. by rewrite same_refl.
  - rewrite sapp_cons. simpl. unfold Char.non at 1. intros [Ha Hx]%andb_true_iff.
    apply negb_true_iff in Ha. rewrite Ha.
    by rewrite IH.
Qed.

Lemma splitOn_unsplit sep xs :
  Forall (λ x, Str.allChars (Char.non (Char.same sep)) x = true) xs → xs ≠ [] →
  Str.splitOn sep (Str.join (String sep "") xs) = xs.
Proof.
  induction xs as [|x xs IH]; [done|]. intros [Hx Hxs]%Forall_cons _.
  destruct xs as [|y ys].
  - simpl. by apply splitOn_none.
  - rewrite join_cons. rewrite sapp_cons, sapp_nil_l.
    rewrite splitOn_app by done. by rewrite IH.
Qed.

Lemma lines_unlines xs :
  Forall oneLine xs → xs ≠ [] → Str.lines (Str.unlines xs) = xs.
Proof. apply splitOn_unsplit. Qed.

Lemma unlines_lines s : Str.unlines (Str.lines s) = s.
Proof. apply splitOn_join. Qed.

End LineFacts.

(** ** Texts a pattern cannot match *)

Module NeedsFacts.
Import Rx Needs StrFacts RxFacts.

Lemma everyChar_spec P : everyChar P = true → ∀ a, P a = true.
Proof.
  unfold everyChar. intros H a. rewrite forallb_forall in H.
  rewrite <- (ascii_nat_embedding a). apply H. apply in_seq.
  pose proof (nat_ascii_bounded a). lia.
Qed.

Lemma within_spec p q a : within p q = true → p a = true → q a = true.
Proof.
  intros H Hp. apply everyChar_spec with (a := a) in H. by rewrite Hp in H.
Qed.

Lemma free_app q s t : free q (s +:+ t) = free q s && free q t.
Proof. apply allChars_app. Qed.

Lemma spends_refl q s : spends q false s s.
Proof. exists "". done. Qed.

Lemma spends_cons q strict a s s' :
  (strict = true → q a = true) → spends q false s s' → spends q strict (String a s) s'.
Proof.
  intros Ha (u & -> & _). exists (String a u). split; [done|].
  intros Hs. unfold free. simpl. unfold Char.non at 1. by rewrite (Ha Hs).
Qed.

Lemma spends_weaken q b s s' : spends q b s s' → spends q false s s'.
Proof. intros (u & -> & _). by exists u. Qed.

Lemma spends_trans q b1 b2 s1 s2 s3 :
  spends q b1 s1 s2 → spends q b2 s2 s3 → spends q (b1 || b2) s1 s3.
Proof.
  intros (u & -> & Hu) (v & -> & Hv). exists (u +:+ v). rewrite sapp_assoc. split; [done|].
  rewrite free_app. intros [->| ->]%orb_true_iff.
  - by rewrite Hu.
  - rewrite Hv by done. apply andb_false_r.
Qed.

Lemma many_demands {R} q greedy p (k : cont R) :
  ∀ s lo hi prev c x,
    many greedy p lo hi prev s c k = Some x →
    ∃ prev' s' c', k prev' s' c' = Some x ∧ spends q ((0 <? lo) && within p q) s s'.
Proof.
  induction s as [|a s IH]; intros lo hi prev c x H.
  - simpl in H. destruct lo; [|by destruct greedy].
    exists prev, "", c. split; [|apply spends_refl].
    destruct greedy; [done|]. by destruct (k prev "" c).
  - cbn [many] in H.
    destruct (p a && negb (exhausted hi)) eqn:Hpa.
    + assert (Hmore : ∀ y, many greedy p (Nat.pred lo) (Nat.pred <$> hi) (Some a) s c k = Some y →
                ∃ prev' s' c', k prev' s' c' = Some y
                  ∧ spends q ((0 <? lo) && within p q) (String a s) s').
      { intros y Hy. destruct (IH _ _ _ _ _ Hy) as (prev' & s' & c' & Hk & Ha).
        exists prev', s', c'. split; [done|]. apply spends_cons.
        - intros [_ Hw]%andb_true_iff. apply andb_true_iff in Hpa as [Hp _].
          by eapply within_spec.
        - by eapply spends_weaken. }
      assert (Hstop : ∀ y, match lo with 0 => k prev (String a s) c | S _ => None end = Some y →
                ∃ prev' s' c', k prev' s' c' = Some y
                  ∧ spends q ((0 <? lo) && within p q) (String a s) s').
      { destruct lo; [|done]. intros y Hy. exists prev, (String a s), c.
        split; [done|apply spends_refl]. }
      destruct greedy.
      * destruct (many true p _ _ _ s c k) as [y|]; [injection H as ->; by apply Hmore|by apply Hstop].
      * destruct (match lo with 0 => _ | S _ => None end) as [y|];
          [injection H as ->; by apply Hstop|by apply Hmore].
    + assert (Hstop : match lo with 0 => k prev (String a s) c | S _ => None end = Some x).
      { destruct greedy; [done|]. by destruct (match lo with 0 => _ | S _ => None end). }
      destruct lo; [|done]. exists prev, (String a s), c. split; [done|apply spends_refl].
Qed.

Lemma run_demands {R} q r : ∀ (k : cont R) prev s c x,
  run r prev s c k = Some x →
  ∃ prev' s' c', k prev' s' c' = Some x ∧ spends q (demands q r) s s'.
Proof.
  induction r as [|p|g lo hi p|r1 IH1 r2 IH2|r1 IH1 r2 IH2|r1 IH1|i r1 IH1| | |p];
    intros k prev s c x H; simpl in H.
  - exists prev, s, c. split; [done|apply spends_refl].
  - destruct s as [|a s]; [done|]. destruct (p a) eqn:Hp; [|done].
    exists (Some a), s, c. split; [done|]. apply spends_cons; [|apply spends_refl].
    simpl. intros Hw. by eapply within_spec.
  - simpl. eapply many_demands. exact H.
  - destruct (IH1 _ _ _ _ _ H) as (p1 & s1 & c1 & H1 & A1).
    destruct (IH2 _ _ _ _ _ H1) as (p2 & s2 & c2 & H2 & A2).
    exists p2, s2, c2. split; [done|]. by eapply spends_trans.
  - destruct (run r1 prev s c k) as [y|] eqn:H1.
    + injection H as ->. destruct (IH1 _ _ _ _ _ H1) as (p1 & s1 & c1 & Hk & (u & -> & Hu)).
      exists p1, s1, c1. split; [done|]. exists u. split; [done|]. simpl.
      intros [? _]%andb_true_iff. auto.
    + destruct (IH2 _ _ _ _ _ H) as (p1 & s1 & c1 & Hk & (u & -> & Hu)).
      exists p1, s1, c1. split; [done|]. exists u. split; [done|]. simpl.
      intros [_ ?]%andb_true_iff. auto.
  - destruct (run r1 prev s c k) as [y|] eqn:H1.
    + injection H as ->. destruct (IH1 _ _ _ _ _ H1) as (p1 & s1 & c1 & Hk & A).
      exists p1, s1, c1. split; [done|]. by eapply spends_weaken.
    + exists prev, s, c. split; [done|apply spends_refl].
  - destruct (IH1 _ _ _ _ _ H) as (p1 & s1 & c1 & Hk & A). simpl in Hk.
    eexists _, _, _. split; [exact Hk|done].
  - destruct prev; [done|]. exists None, s, c. split; [done|apply spends_refl].
  - destruct s; [|done]. exists prev, "", c. split; [done|apply spends_refl].
  - destruct prev as [a|].
    + destruct (p a); [done|]. exists (Some a), s, c. split; [done|apply spends_refl].
    + exists None, s, c. split; [done|apply spends_refl].
Qed.

Lemma matchAt_free q r prev s :
  demands q r = true → free q s = true → matchAt r prev s = None.
Proof.
  intros Hd Hf. unfold matchAt.
  destruct (run r prev s [] _) as [m|] eqn:H; [|done].
  destruct (run_demands q _ _ _ _ _ _ H) as (_ & s' & _ & _ & (u & Heq & Hu)).
  rewrite Heq, free_app, Hu in Hf; done.
Qed.

Lemma search_free q r : demands q r = true →
  ∀ s prev, free q s = true → search r prev s = None.
Proof.
  intros Hd. induction s as [|a s IH]; intros prev Hf; simpl.
  - by rewrite (matchAt_free q).
  - rewrite (matchAt_free q) by done. unfold free in Hf. simpl in Hf.
    apply andb_true_iff in Hf as [_ Hf]. by rewrite IH.
Qed.

Lemma replaceAll_free q r f s :
  demands q r = true → free q s = true → replaceAll r f s = s.
Proof.
  intros Hd Hf. unfold replaceAll, pieces. simpl. by rewrite (search_free q).
Qed.

Lemma exec_free q r s : demands q r = true → free q s = true → exec r s = None.
Proof. intros. by apply (search_free q). Qed.

Lemma splitOn_free q sep s :
  free q s = true → Forall (λ x, free q x = true) (Str.splitOn sep s).
Proof.
  unfold free. induction s as [|a s IH]; simpl; [by repeat constructor|].
  intros [Ha Hs]%andb_true_iff. specialize (IH Hs).
  destruct (Char.same sep a); [by constructor|].
  destruct (Str.splitOn sep s) as [|y ys].
  { constructor; [|done]. simpl. by rewrite Ha. }
  apply Forall_cons in IH as [Hy Hys]. constructor; [|done]. simpl. by rewrite Ha, Hy.
Qed.

End NeedsFacts.

(** ** What the scanners leave as it is *)

Module PassThrough.
Import Rx Re Markdown Heading Needs StrFacts RxFacts NeedsFacts LineFacts.

Lemma stays_fenced state line :
  inFence state = true → markerOf line ≠ fenceMarker state →
  updateFenceState line state = state.
Proof.
  intros Hin Hm. unfold updateFenceState. rewrite Hin. simpl.
  destruct (markerOf line); try done; by rewrite bool_decide_eq_false_2.
Qed.

(** X3.  Inside a fence nothing is touched until a line starts with the
    marker that opened it: the rewriter, the link normaliser and
    [stripLeadingH1] pass the lines through, title and summary
    extraction skip them.  A fence that is never closed covers the rest
    of the file, and a line that starts with the other marker does not
    close it. *)
Theorem fenced_lines_pass_through (state : FenceState) (ls : list string) :
  inFence state = true →
  Forall (λ line, markerOf line ≠ fenceMarker state) ls →
  stripLoop state ls = ls
  ∧ (∀ cur base, linksLoop cur base state ls = ls)
  ∧ (∀ removed, h1Loop state removed ls = ls)
  ∧ (∀ fallback, titleLoop state ls fallback = fallback)
  ∧ (∀ paragraph, summaryLoop state paragraph ls = paragraph).
Proof.
  intros Hin. induction 1 as [|line rest Hm _ IH]; [done|].
  destruct IH as (IH1 & IH2 & IH3 & IH4 & IH5).
  pose proof (stays_fenced _ _ Hin Hm) as Hu.
  repeat split; intros; simpl; rewrite Hu, Hin; simpl; congruence.
Qed.

Lemma fenced_lines_pass_through_witness :
  stripLoop (Fence true Backticks) ["<Badge text=x />"; "~~~"; "[a](b.md)"; "# h"]
  = ["<Badge text=x />"; "~~~"; "[a](b.md)"; "# h"]
  ∧ (∀ cur base,
       linksLoop cur base (Fence true Backticks) ["<Badge text=x />"; "~~~"; "[a](b.md)"; "# h"]
       = ["<Badge text=x />"; "~~~"; "[a](b.md)"; "# h"]).
Proof.
  refine (let H := fenced_lines_pass_through (Fence true Backticks)
                     ["<Badge text=x />"; "~~~"; "[a](b.md)"; "# h"] _ _ in
          conj (proj1 H) (proj1 (proj2 H))).
  - reflexivity.
  - repeat constructor; vm_compute; discriminate.
Defined.

Lemma stripLoop_plain state ls :
  Forall (λ l, free (Char.same "<") l = true) ls →
  Forall (λ l, isDirectiveLine l = false) ls →
  stripLoop state ls = ls.
Proof.
  intros Hf. revert state. induction Hf as [|l ls Hl _ IH]; intros state Hd; [done|].
  apply Forall_cons in Hd as [Hd Hds]. simpl. rewrite Hd, IH by done.
  destruct (inFence _); [done|]. f_equal. unfold stripHtmlComments, replaceComponentTags.
  rewrite (replaceAll_free (Char.same "<") COMMENT_RE) by (done || by vm_compute).
  by rewrite (replaceAll_free (Char.same "<") COMPONENT_TAG_RE) by (done || by vm_compute).
Qed.

(** X4.  [stripVuePressDirectives] leaves a content as it is when the
    content has no character [<] and no line starts with [:::] or
    [!!!]. *)
Theorem stripVuePressDirectives_keeps_plain_text (content : string) :
  free (Char.same "<") content = true →
  Forall (λ line, isDirectiveLine line = false) (Str.lines content) →
  stripVuePressDirectives content = content.
Proof.
  intros Hf Hd. unfold stripVuePressDirectives.
  rewrite stripLoop_plain; [apply splitOn_join|by apply splitOn_free|done].
Qed.

Lemma stripVuePressDirectives_keeps_plain_text_witness :
  stripVuePressDirectives (Str.unlines ["# Title"; ""; "Some *text* with a [link](a.md)."; "x > y"])
  = Str.unlines ["# Title"; ""; "Some *text* with a [link](a.md)."; "x > y"].
Proof.
  apply stripVuePressDirectives_keeps_plain_text.
  - vm_compute. reflexivity.
  - vm_compute. repeat constructor.
Defined.

Lemma linksLoop_plain cur base state ls :
  Forall (λ l, free (Char.same "[") l = true) ls →
  linksLoop cur base state ls = ls.
Proof.
  intros Hf. revert state. induction Hf as [|l ls Hl _ IH]; intros state; [done|].
  simpl. rewrite IH. destruct (inFence _); [done|]. f_equal.
  unfold normalizeLine, normalizeReferenceDefinition.
  rewrite (replaceAll_free (Char.same "[") INLINE_LINK_RE) by (done || by vm_compute).
  by rewrite (exec_free (Char.same "[") REFERENCE_RE) by (done || by vm_compute).
Qed.

(** X5.  [normalizeLinks] leaves a content without an opening square
    bracket as it is, for every base URL and file path. *)
Theorem normalizeLinks_keeps_text_without_brackets (content baseUrl currentFilePath : string) :
  free (Char.same "[") content = true →
  normalizeLinks content baseUrl currentFilePath = content.
Proof.
  intros Hf. unfold normalizeLinks.
  rewrite linksLoop_plain; [apply splitOn_join|by apply splitOn_free].
Qed.

Lemma normalizeLinks_keeps_text_without_brackets_witness :
  normalizeLinks (Str.unlines ["# Title"; "see <a href=b.md>b</a>"; "(c.md)"]) "https://x/" "a.md"
  = Str.unlines ["# Title"; "see <a href=b.md>b</a>"; "(c.md)"].
Proof.
  apply normalizeLinks_keeps_text_without_brackets. vm_compute. reflexivity.
Defined.

End PassThrough.

(** ** Frontmatter *)

Module FrontmatterFacts.
Import Markdown Heading StrFacts LineFacts.

Lemma afterDelimiter_block meta close body :
  Forall (λ l, Str.trim l ≠ "---") meta → Str.trim close = "---" →
  afterDelimiter (meta ++ close :: body) = Some body.
Proof.
  intros Hm Hc. induction Hm as [|l meta Hl _ IH]; simpl.
  - by rewrite bool_decide_eq_true_2.
  - by rewrite bool_decide_eq_false_2.
Qed.

Lemma afterDelimiter_open rest :
  Forall (λ l, Str.trim l ≠ "---") rest → afterDelimiter rest = None.
Proof.
  induction 1 as [|l rest Hl _ IH]; simpl; [done|].
  by rewrite bool_decide_eq_false_2.
Qed.

(** X6.  [stripFrontmatter] removes a frontmatter block: when the first
    line is [---] (white space around it ignored), the block ends at the
    first later line that is [---], and the result is the lines after
    it, verbatim, a later [---] line included. *)
Theorem stripFrontmatter_removes_block (first close : string) (meta body : list string) :
  Forall oneLine (first :: meta ++ close :: body) →
  Str.trim first = "---" →
  Forall (λ l, Str.trim l ≠ "---") meta →
  Str.trim close = "---" →
  stripFrontmatter (Str.unlines (first :: meta ++ close :: body)) = Str.unlines body.
Proof.
  intros Hone Hf Hm Hc. unfold stripFrontmatter.
  rewrite lines_unlines by done.
  rewrite bool_decide_eq_true_2 by done. simpl.
  by rewrite afterDelimiter_block.
Qed.

Lemma stripFrontmatter_removes_block_witness :
  stripFrontmatter (Str.unlines ["---"; "title: T"; " --- "; "# Body"; "---"; "text"])
  = Str.unlines ["# Body"; "---"; "text"].
Proof.
  apply (stripFrontmatter_removes_block "---" " --- " ["title: T"] ["# Body"; "---"; "text"]).
  - repeat constructor.
  - reflexivity.
  - repeat constructor. vm_compute. discriminate.
  - reflexivity.
Defined.

(** X7.  [stripFrontmatter] returns the content unchanged when its first
    line is not [---], and when no later line closes the block. *)
Theorem stripFrontmatter_keeps_other_content (content first : string) (rest : list string) :
  Str.lines content = first :: rest →
  Str.trim first ≠ "---" ∨ Forall (λ l, Str.trim l ≠ "---") rest →
  stripFrontmatter content = content.
Proof.
  intros Hl H. unfold stripFrontmatter. rewrite Hl.
  destruct (decide (Str.trim first = "---")) as [Hf|Hf].
  - rewrite bool_decide_eq_true_2 by done. simpl.
    destruct H as [H|H]; [done|]. by rewrite afterDelimiter_open.
  - by rewrite bool_decide_eq_false_2.
Qed.

Lemma stripFrontmatter_keeps_other_content_witness :
  stripFrontmatter (Str.unlines ["---"; "title: T"; "# Body"])
  = Str.unlines ["---"; "title: T"; "# Body"].
Proof.
  apply (stripFrontmatter_keeps_other_content _ "---" ["title: T"; "# Body"]).
  - reflexivity.
  - right. repeat constructor; vm_compute; discriminate.
Defined.

End FrontmatterFacts.

(** ** The leading heading *)

Module HeadingFacts.
Import Rx Re Markdown Heading StrFacts RxFacts LineFacts.

Lemma h1Loop_removed state ls : h1Loop state true ls = ls.
Proof.
  revert state. induction ls as [|line rest IH]; intros state; simpl; [done|].
  rewrite andb_false_r. simpl. by rewrite IH.
Qed.

Lemma h1Loop_firstH1 state ls :
  h1Loop state false ls
  = match firstH1 state ls with
    | Some i => delete i ls
    | None => ls
    end.
Proof.
  revert state. induction ls as [|line rest IH]; intros state; simpl; [done|].
  rewrite andb_true_r.
  destruct (negb (inFence (updateFenceState line state)) && test H1_RE line).
  - by rewrite h1Loop_removed.
  - rewrite IH. by destruct (firstH1 _ rest).
Qed.

Lemma fenceAfter_cons state line ls :
  fenceAfter state (line :: ls) = fenceAfter (updateFenceState line state) ls.
Proof. done. Qed.

Lemma firstH1_spec state ls i :
  firstH1 state ls = Some i →
  (∃ line, ls !! i = Some line ∧ test H1_RE line = true)
  ∧ inFence (fenceAfter state (take (S i) ls)) = false
  ∧ ∀ j line, j < i → ls !! j = Some line →
      inFence (fenceAfter state (take (S j) ls)) = true ∨ test H1_RE line = false.
Proof.
  revert state i. induction ls as [|l rest IH]; intros state i; simpl; [done|].
  destruct (negb (inFence (updateFenceState l state)) && test H1_RE l) eqn:Hl.
  - intros [= <-]. apply andb_true_iff in Hl as [Hin Ht].
    apply negb_true_iff in Hin. split; [by exists l|]. split; [done|]. lia.
  - destruct (firstH1 _ rest) as [i'|] eqn:Hi; [|done]. intros [= <-].
    destruct (IH _ _ Hi) as (Hline & Hout & Hbefore).
    split; [done|]. split; [done|].
    intros [|j] line Hj Hlook.
    + injection Hlook as <-. simpl.
      apply andb_false_iff in Hl as [Hl|Hl]; [left|by right].
      by apply negb_false_iff in Hl.
    + simpl in Hlook. apply (Hbefore j line); [lia|done].
Qed.

Lemma firstH1_none state ls :
  firstH1 state ls = None →
  ∀ j line, ls !! j = Some line →
    inFence (fenceAfter state (take (S j) ls)) = true ∨ test H1_RE line = false.
Proof.
  revert state. induction ls as [|l rest IH]; intros state; simpl; [done|].
  destruct (negb (inFence (updateFenceState l state)) && test H1_RE l) eqn:Hl; [done|].
  destruct (firstH1 _ rest) as [i'|] eqn:Hi; [done|]. intros _.
  intros [|j] line Hlook.
  - injection Hlook as <-. simpl.
    apply andb_false_iff in Hl as [Hl|Hl]; [left|by right].
    by apply negb_false_iff in Hl.
  - simpl in Hlook. by apply (IH _ Hi j line).
Qed.

(** X8.  [stripLeadingH1] removes exactly one line, the first line outside
    a fence that starts with [#] and white space, and keeps every other
    line in place; without such a line the content is unchanged. *)
Theorem stripLeadingH1_removes_first_heading (content : string) :
  let ls := Str.lines content in
  match firstH1 outside ls with
  | Some i =>
      stripLeadingH1 content = Str.unlines (delete i ls)
      ∧ (∃ line, ls !! i = Some line ∧ test H1_RE line = true)
      ∧ inFence (fenceAfter outside (take (S i) ls)) = false
  | None => stripLeadingH1 content = content
  end
  ∧ ∀ j line, ls !! j = Some line →
      (∀ i, firstH1 outside ls = Some i → j < i) →
      inFence (fenceAfter outside (take (S j) ls)) = true ∨ test H1_RE line = false.
Proof.
  intros ls. unfold stripLeadingH1. fold ls. rewrite h1Loop_firstH1.
  destruct (firstH1 outside ls) as [i|] eqn:Hi.
  - destruct (firstH1_spec _ _ _ Hi) as (H1 & H2 & H3).
    split; [done|]. intros j line Hl Hj. apply (H3 j line); [by apply Hj|done].
  - split; [apply unlines_lines|]. intros j line Hl _.
    by apply (firstH1_none _ _ Hi j line).
Qed.

Example stripLeadingH1_sample :
  stripLeadingH1 (Str.unlines ["```"; "# not a heading"; "```"; "# Title"; "text"; "# Second"])
  = Str.unlines ["```"; "# not a heading"; "```"; "text"; "# Second"].
Proof. vm_compute. reflexivity. Qed.

End HeadingFacts.

(** ** The cache of the include expansion *)

Module IncludeCacheFacts.
Import Rx Re Include IncludeCache Needs StrFacts RxFacts NeedsFacts IncludeFacts.

Section Once.
Variable fs : Storage.
Variables (root : string) (maxDepth : Z).

Lemma load_once p st :
  readOnce fs st → outcome fs st (load fs p st).
Proof.
  intros (Hnd & Hin & Hc). unfold load, bind, get, modify, ret, throw. simpl.
  destruct (cache st !! p) as [v|] eqn:Hl; [done|]. simpl.
  assert (p ∉ reads st) as Hp.
  { intros H. apply Hin in H. rewrite Hl in H. by destruct H. }
  destruct (readFile fs p) as [v|] eqn:Hr; simpl.
  - split; [|done]. split; [by constructor|]. split.
    + intros q. simpl. rewrite elem_of_cons. destruct (decide (q = p)) as [->|Hne].
      * rewrite lookup_insert_eq. split; [by eexists|by left].
      * rewrite lookup_insert_ne by done. rewrite <- Hin.
        split; [by intros [?|?]|by right].
    + intros q w. simpl. destruct (decide (p = q)) as [->|Hne].
      * rewrite lookup_insert_eq. by intros [= <-].
      * rewrite lookup_insert_ne by done. apply Hc.
  - by constructor.
Qed.

Lemma loop_once rec input fp depth :
  (∀ inc rp d st, readOnce fs st → outcome fs st (rec inc rp d st)) →
  ∀ ms result lastIndex st, readOnce fs st →
    outcome fs st (expandLoop fs root rec input fp depth ms result lastIndex st).
Proof.
  intros Hrec. induction ms as [|[i m] ms IH]; intros result lastIndex st Hst; [done|].
  destruct (resolveIncludePath fs (includePathOf m) root fp) as [e|rp] eqn:Hr.
  { rewrite (loop_refused fs root _ _ _ _ _ _ _ _ _ _ _ Hr). by destruct Hst. }
  rewrite (loop_first fs root _ _ _ _ _ _ _ _ _ _ _ Hr).
  case_bool_decide as Hstack; [by destruct Hst|].
  pose proof (load_once rp st Hst) as H1.
  destruct (load fs rp st) as [[e|inc] st1]; [done|]. destruct H1 as [H1 Hs1].
  specialize (Hrec inc rp (depth + 1) (withStack (λ s, {[rp]} ∪ s) st1) H1).
  destruct (rec inc rp (depth + 1) _) as [[e|expanded] st2]; [done|].
  destruct Hrec as [H2 Hs2].
  specialize (IH ((result +:+ Str.slice lastIndex i input) +:+ expanded)
                (i + Str.len (text m)) (withStack (λ s, s ∖ {[rp]}) st2) H2).
  assert (stack (withStack (λ s, s ∖ {[rp]}) st2) = stack st) as Hs3.
  { simpl. rewrite Hs2. simpl. rewrite Hs1. apply set_eq. intros q.
    rewrite elem_of_difference, elem_of_union, elem_of_singleton.
    split; [by intros [[?|?] ?]|]. intros Hq. split; [by right|]. by intros ->. }
  destruct (expandLoop _ _ _ _ _ _ _ _ _ _) as [[e|out] st4]; [done|].
  destruct IH as [H4 Hs4]. split; [done|]. by rewrite Hs4.
Qed.

Lemma expand_once fuel : ∀ input fp depth st,
  readOnce fs st → outcome fs st (expand fs root maxDepth fuel input fp depth st).
Proof.
  induction fuel as [|fuel IH]; intros input fp depth st Hst;
    (destruct (Z.ltb_spec maxDepth (Z.of_nat depth)) as [Hd|Hd];
     [rewrite expand_deep by done; by destruct Hst|]).
  - simpl. destruct (_ <? _)%Z; by destruct Hst.
  - rewrite expand_step by done. by apply loop_once.
Qed.

End Once.

Lemma readOnce_fresh fs : readOnce fs fresh.
Proof.
  split; [constructor|]. split.
  - intros p. simpl. rewrite lookup_empty. split; [by intros ?%elem_of_nil|by intros []].
  - intros p v. simpl. by rewrite lookup_empty.
Qed.

(** X12.  [expandIncludeDirectives] reads no file twice, whether it succeeds
    or fails; when it succeeds the stack of open includes is empty
    again, and the cache holds exactly the files read, with the text the
    storage has for them. *)
Theorem includes_are_read_once (fs : Storage) (content repoRoot currentFilePath : string)
    (maxDepth : option Z) :
  let run := expandIncludeDirectives fs content repoRoot currentFilePath maxDepth in
  NoDup (reads run.2)
  ∧ ∀ expanded, run.1 = inr expanded →
      stack run.2 = ∅
      ∧ (∀ p, p ∈ reads run.2 ↔ is_Some (cache run.2 !! p))
      ∧ ∀ p text, cache run.2 !! p = Some text → readFile fs p = Some text.
Proof.
  intros run. unfold expandIncludeDirectives in run.
  pose proof (expand_once fs (Path.resolve (cwd fs) [repoRoot]) (default 5%Z maxDepth)
                (S (Z.to_nat (default 5%Z maxDepth))) content currentFilePath 0 fresh
                (readOnce_fresh fs)) as H.
  fold run in H. destruct run as [[e|out] st]; simpl in *.
  - split; [done|]. by intros.
  - destruct H as [(Hnd & Hin & Hc) Hs]. split; [done|]. intros _ _. done.
Qed.

Lemma matchAll_free q r s :
  demands q r = true → free q s = true → matchAll r s = [].
Proof.
  intros Hd Hf. unfold matchAll, pieces. simpl. by rewrite (search_free q).
Qed.

(** X13.  A content without the character [!] is returned unchanged by
    [expandIncludeDirectives] for every depth limit that is not
    negative, and no file is read; under a negative limit the call
    fails with the depth error for the current file, before any
    directive is looked for. *)
Theorem expansion_without_directive (fs : Storage)
    (content repoRoot currentFilePath : string) (maxDepth : option Z) :
  free (Char.same "!") content = true →
  expandIncludeDirectives fs content repoRoot currentFilePath maxDepth
  = if bool_decide (0 ≤ default 5 maxDepth)%Z then (inr content, fresh)
    else (inl (DepthExceeded (default 5%Z maxDepth) currentFilePath), fresh).
Proof.
  intros Hf. unfold expandIncludeDirectives. case_bool_decide as Hsign.
  - rewrite expand_step by (simpl; lia). unfold directives.
    by rewrite (matchAll_free (Char.same "!")) by (done || by vm_compute).
  - by rewrite expand_deep by (simpl; lia).
Qed.

Lemma expansion_without_directive_witness :
  expandIncludeDirectives sampleStorage "# Title" "/repo" "/repo/top.md" (Some 0%Z)
  = (inr "# Title", fresh)
  ∧ expandIncludeDirectives sampleStorage "# Title" "/repo" "/repo/top.md" (Some (-1)%Z)
    = (inl (DepthExceeded (-1) "/repo/top.md"), fresh).
Proof.
  split.
  - apply (expansion_without_directive sampleStorage "# Title" "/repo" "/repo/top.md"
             (Some 0%Z)). vm_compute. reflexivity.
  - apply (expansion_without_directive sampleStorage "# Title" "/repo" "/repo/top.md"
             (Some (-1)%Z)). vm_compute. reflexivity.
Defined.

End IncludeCacheFacts.

(** ** Title and summary *)

Module TitleFacts.
Import Rx Re Markdown Heading TitleLine StrFacts RxFacts LineFacts.

(** *** Trimming *)

Lemma trimEnd_idem s : Str.trimEnd (Str.trimEnd s) = Str.trimEnd s.
Proof.
  induction s as [|a s IH]; [done|]. simpl.
  destruct (Str.isEmpty (Str.trimEnd s) && Char.space a) eqn:H; [done|].
  simpl. by rewrite IH, H.
Qed.

Lemma trimEnd_head a s :
  Char.space a = false → Str.trimEnd (String a s) = String a (Str.trimEnd s).
Proof. intros H. simpl. by rewrite H, andb_false_r. Qed.

Lemma trim_idem s : Str.trim (Str.trim s) = Str.trim s.
Proof.
  unfold Str.trim, Str.trimStart.
  destruct (dropWhile_shape Char.space s) as [->|(b & rest & -> & Hb)]; [done|].
  rewrite trimEnd_head by done. simpl. rewrite Hb.
  rewrite trimEnd_head by done. by rewrite trimEnd_idem.
Qed.

Lemma trim_blank_no_marker line :
  Str.isEmpty (Str.trim line) = true → markerOf line = NoMarker.
Proof. unfold markerOf. by destruct (Str.trim line). Qed.

(** *** The title line is a heading line *)

Lemma many_lo {R} greedy p (k : cont R) :
  ∀ s lo hi prev c x,
    many greedy p lo hi prev s c k = Some x → lo ≤ Str.len (Str.takeWhile p s).
Proof.
  induction s as [|a s IH]; intros lo hi prev c x H.
  - simpl in H. destruct lo; [simpl; lia|by destruct greedy].
  - cbn [many] in H. cbn [Str.takeWhile].
    destruct lo as [|lo]; [lia|].
    destruct (p a) eqn:Hp; simpl in H; [|by destruct greedy].
    destruct (negb (exhausted hi)); [|by destruct greedy].
    assert (many greedy p lo (Nat.pred <$> hi) (Some a) s c k = Some x) as H'.
    { destruct greedy; [|done]. by destruct (many true p lo _ _ s c k). }
    apply IH in H'. simpl. lia.
Qed.

Lemma title_line_is_h1 line :
  is_Some (titleOfLine line) → test H1_RE line = true.
Proof.
  unfold titleOfLine, test. intros [t Ht]. apply bool_decide_eq_true.
  destruct (exec TITLE_RE line) as [m|] eqn:Hm; [|done]. clear Ht.
  unfold TITLE_RE, H1_RE in *. cbn [seq] in *. rewrite exec_bol in *.
  unfold matchAt in *. cbn [run chr plus] in *.
  destruct line as [|a s1]; [done|]. destruct (Char.same "#" a); [|done].
  apply many_lo in Hm. rewrite many_total by (intros; eauto).
  apply Nat.leb_le in Hm. rewrite Hm. eauto.
Qed.

Lemma titleLoop_titleLine state ls fallback :
  titleLoop state ls fallback
  = match titleLine state ls with
    | Some i => default fallback (ls !! i ≫= titleOfLine)
    | None => fallback
    end.
Proof.
  revert state. induction ls as [|line rest IH]; intros state; simpl; [done|].
  destruct (inFence (updateFenceState line state)); simpl.
  - rewrite IH. by destruct (titleLine _ rest).
  - destruct (exec TITLE_RE line) as [m|] eqn:Hm.
    + rewrite bool_decide_eq_true_2 by (unfold titleOfLine; rewrite Hm; eauto).
      simpl. unfold titleOfLine. by rewrite Hm.
    + rewrite bool_decide_eq_false_2
        by (unfold titleOfLine; rewrite Hm; by intros []).
      rewrite IH. by destruct (titleLine _ rest).
Qed.

Lemma titleLine_spec state ls i :
  titleLine state ls = Some i →
  (∃ line, ls !! i = Some line ∧ is_Some (titleOfLine line))
  ∧ ∃ j, firstH1 state ls = Some j ∧ j ≤ i.
Proof.
  revert state i. induction ls as [|l rest IH]; intros state i; simpl; [done|].
  destruct (inFence (updateFenceState l state)); simpl.
  - destruct (titleLine _ rest) as [i'|] eqn:Hi; [|done]. intros [= <-].
    destruct (IH _ _ Hi) as (Hl & j & -> & Hj). split; [done|]. exists (S j). split; [done|lia].
  - case_bool_decide as Ht.
    + intros [= <-]. split; [by exists l|]. rewrite title_line_is_h1 by done.
      exists 0. done.
    + destruct (titleLine _ rest) as [i'|] eqn:Hi; [|done]. intros [= <-].
      destruct (IH _ _ Hi) as (Hl & j & -> & Hj). split; [done|].
      destruct (test H1_RE l); [exists 0|exists (S j)]; (split; [done|lia]).
Qed.

(** X9.  The title [extractTitle] returns is the fallback, or it is the
    trimmed heading text of the first title line outside a fence: it
    has no white space at either end, and the line [stripLeadingH1]
    removes is that line or a heading line before it. *)
Theorem title_comes_from_a_heading_line (content fallback : string) :
  let ls := Str.lines content in
  match titleLine outside ls with
  | Some i =>
      ∃ line title j,
        ls !! i = Some line ∧ titleOfLine line = Some title
        ∧ extractTitle content fallback = title
        ∧ Str.trim title = title
        ∧ firstH1 outside ls = Some j ∧ j ≤ i
  | None => extractTitle content fallback = fallback
  end.
Proof.
  intros ls. unfold extractTitle. fold ls. rewrite titleLoop_titleLine.
  destruct (titleLine outside ls) as [i|] eqn:Hi; [|done].
  destruct (titleLine_spec _ _ _ Hi) as ((line & Hl & [title Ht]) & j & Hj & Hle).
  exists line, title, j. rewrite Hl. simpl. rewrite Ht. simpl.
  repeat split; try done.
  unfold titleOfLine in Ht. destruct (exec TITLE_RE line); [|done].
  injection Ht as <-. apply trim_idem.
Qed.

Example heading_without_text :
  extractTitle (Str.unlines ["# "; "# Title"]) "fallback" = "Title"
  ∧ stripLeadingH1 (Str.unlines ["# "; "# Title"]) = "# Title".
Proof. split; vm_compute; reflexivity. Qed.

(** *** The end of the summary paragraph *)

Lemma summaryLoop_stops blank ls2 : Str.isEmpty (Str.trim blank) = true →
  ∀ ls1 state para,
    inFence (fenceAfter state ls1) = false →
    summaryLoop state para ls1 ≠ [] →
    summaryLoop state para (ls1 ++ blank :: ls2) = summaryLoop state para ls1.
Proof.
  intros Hb. induction ls1 as [|line ls1 IH]; intros state para Hf Hp.
  - simpl in *. unfold updateFenceState. rewrite trim_blank_no_marker by done.
    rewrite Hf, Hb. destruct para; [done|]. done.
  - simpl in *.
    destruct (inFence (updateFenceState line state)); [by apply IH|].
    destruct (Str.isEmpty (Str.trim line)).
    { destruct (0 <? length para); [done|]. by apply IH. }
    destruct (_ || _); [by apply IH|].
    destruct (test HTML_TAG_ONLY_RE _); by apply IH.
Qed.

(** X10.  Once [extractSummary] has collected a paragraph line, the first
    blank line outside a fence ends the paragraph: whatever follows it
    does not change the summary. *)
Theorem summary_ends_at_the_blank_line (ls1 ls2 : list string) (blank : string) :
  Forall oneLine (ls1 ++ blank :: ls2) →
  ls1 ≠ [] →
  Str.isEmpty (Str.trim blank) = true →
  inFence (fenceAfter outside ls1) = false →
  summaryLoop outside [] ls1 ≠ [] →
  extractSummary (Str.unlines (ls1 ++ blank :: ls2)) = extractSummary (Str.unlines ls1).
Proof.
  intros Hone Hne Hb Hf Hp. unfold extractSummary.
  rewrite !lines_unlines; [|by apply Forall_app in Hone as []|done|done|by destruct ls1].
  by rewrite summaryLoop_stops.
Qed.

Lemma summary_ends_at_the_blank_line_witness :
  extractSummary (Str.unlines (["# T"; "First"; "paragraph."] ++ " " :: ["Second."; "```"]))
  = extractSummary (Str.unlines ["# T"; "First"; "paragraph."]).
Proof.
  apply summary_ends_at_the_blank_line.
  - repeat constructor.
  - done.
  - reflexivity.
  - reflexivity.
  - vm_compute. discriminate.
Defined.

(** *** The lines of the summary paragraph *)

Lemma summaryLoop_lines ls : ∀ state para P,
  Forall P para →
  (∀ line, line ∈ ls →
     Str.isEmpty (Str.trim line) = false →
     test HEADING_RE (Str.trim line) || test LIST_RE (Str.trim line) = false →
     test HTML_TAG_ONLY_RE (Str.trim line) = false →
     P (Str.trim line)) →
  Forall P (summaryLoop state para ls).
Proof.
  induction ls as [|line rest IH]; intros state para P Hpara HP; simpl; [done|].
  assert (∀ l, l ∈ rest → Str.isEmpty (Str.trim l) = false →
            test HEADING_RE (Str.trim l) || test LIST_RE (Str.trim l) = false →
            test HTML_TAG_ONLY_RE (Str.trim l) = false → P (Str.trim l)) as HP'.
  { intros l Hl. apply HP. by right. }
  destruct (inFence _); [by apply IH|].
  destruct (Str.isEmpty (Str.trim line)) eqn:He.
  { destruct (0 <? length para); [done|by apply IH]. }
  destruct (_ || _) eqn:Hh; [by apply IH|].
  destruct (test HTML_TAG_ONLY_RE _) eqn:Ht; [by apply IH|].
  apply IH; [|done]. apply Forall_app. split; [done|].
  constructor; [|done]. apply HP; [by left|done..].
Qed.

(** X11.  Every line of the summary paragraph is the trimmed text of a line
    of the content that is not blank, not a heading, not a list item and
    not a line made of one HTML tag. *)
Theorem summary_takes_text_lines_only (content : string) :
  Forall (λ text,
            ∃ line, line ∈ Str.lines content ∧ text = Str.trim line
              ∧ text ≠ ""
              ∧ test HEADING_RE text = false
              ∧ test LIST_RE text = false
              ∧ test HTML_TAG_ONLY_RE text = false)
    (summaryLoop outside [] (Str.lines content)).
Proof.
  apply summaryLoop_lines; [done|]. intros line Hin He Hh Ht.
  apply orb_false_iff in Hh as [H1 H2].
  exists line. repeat split; try done. by destruct (Str.trim line).
Qed.

End TitleFacts.

(** ** Component tags *)

Module ComponentFacts.
Import Rx Re Markdown Components StrFacts RxFacts.

Lemma toLower_colon a : Char.same ":" (Char.toLower a) = Char.same ":" a.
Proof. destruct a as [[] [] [] [] [] [] [] []]; vm_compute; reflexivity. Qed.

Lemma includes_colon_lower t :
  Str.includes ":" (Str.toLowerCase t) = Str.includes ":" t.
Proof.
  induction t as [|a t IH]; [done|]. unfold Str.toLowerCase in *.
  cbn [Str.mapChars Str.includes Str.startsWith]. by rewrite toLower_colon, IH.
Qed.

Lemma toLower_idem a : Char.toLower (Char.toLower a) = Char.toLower a.
Proof. destruct a as [[] [] [] [] [] [] [] []]; vm_compute; reflexivity. Qed.

Lemma toLowerCase_idem s : Str.toLowerCase (Str.toLowerCase s) = Str.toLowerCase s.
Proof.
  unfold Str.toLowerCase. induction s as [|a s IH]; [done|].
  simpl. by rewrite toLower_idem, IH.
Qed.

(** *** Labelled components *)

Lemma truthy_app_l s t : truthy s = true → truthy (s +:+ t) = true.
Proof. destruct s as [|a s]; [done|]. by rewrite sapp_cons. Qed.

Lemma componentText_labelled tagName attrs :
  Str.toLowerCase tagName ∈ labelled → truthy (componentText tagName attrs) = true.
Proof.
  unfold labelled. rewrite !elem_of_cons, elem_of_nil.
  intros [H|[H|[H|[H|[]]]]]; unfold componentText; rewrite H;
    repeat first [rewrite bool_decide_eq_true_2 by done
                 |rewrite bool_decide_eq_false_2 by done]; cbv zeta.
  - destruct (truthy (firstOf attrs ["ver"; "version"])),
      (truthy (firstOf attrs ["feature"; "text"; "label"])); reflexivity.
  - destruct (truthy (firstOf attrs ["notes"; "text"; "label"])); reflexivity.
  - destruct (truthy (firstOf attrs ["path"; "label"; "text"])); reflexivity.
  - destruct (firstOf attrs ["label"; "text"; "title"]) as [|a1 l1],
      (firstOf attrs ["description"; "desc"]) as [|a2 l2],
      (firstOf attrs ["path"; "url"]) as [|a3 l3]; reflexivity.
Qed.

(** X14.  An open or self-closing [since], [todo], [journey] or [see] tag
    (in any case) is always rewritten to the text computed from its
    attributes, which is never empty: these tags never fall back to the
    bare tag name. *)
Theorem labelled_tags_show_their_text (m : found) :
  Str.toLowerCase (tagNameOf m) ∈ labelled →
  Str.startsWith "</" (text m) = false →
  let label :=
    componentText (tagNameOf m) (parseAttributes (default "" (group 2 (groups m)))) in
  rewriteTag m = label ∧ label ≠ "".
Proof.
  intros Hn Hc label.
  assert (truthy label = true) as Ht by (by apply componentText_labelled).
  split; [|by destruct label].
  assert (Str.includes ":" (tagNameOf m) = false) as Hcolon.
  { rewrite <- includes_colon_lower. revert Hn. unfold labelled.
    rewrite !elem_of_cons, elem_of_nil. by intros [->|[->|[->|[->|[]]]]]. }
  unfold rewriteTag. rewrite Hc, Hcolon. fold label. rewrite Ht.
  revert Hn. unfold labelled. rewrite !elem_of_cons, elem_of_nil.
  intros [->|[->|[->|[->|[]]]]];
    match goal with |- context [bool_decide (?n ∈ STANDARD_HTML_TAGS)] =>
      replace (bool_decide (n ∈ STANDARD_HTML_TAGS)) with false by (vm_compute; reflexivity);
      replace (bool_decide (n ∈ DROP_COMPONENT_TAGS)) with false by (vm_compute; reflexivity);
      replace (bool_decide (n ∈ INLINE_COMPONENT_TAGS)) with true by (vm_compute; reflexivity)
    end; reflexivity.
Qed.

Lemma labelled_tags_show_their_text_witness :
  rewriteTag (Found "" "<Todo>" [(1, "Todo")] "") = "TODO".
Proof.
  refine (proj1 (labelled_tags_show_their_text (Found "" "<Todo>" [(1, "Todo")] "") _ _)).
  - vm_compute. set_solver.
  - reflexivity.
Defined.

(** *** Attribute names *)

Lemma setAttr_lower attrs m :
  map_Forall (λ k _, Str.toLowerCase k = k) attrs →
  map_Forall (λ k _, Str.toLowerCase k = k) (setAttr attrs m).
Proof.
  intros H. unfold setAttr. case_bool_decide; [done|].
  apply map_Forall_insert_2; [apply toLowerCase_idem|done].
Qed.

(** X16.  The attribute names [parseAttributes] returns are in lower case,
    whatever the case of the names in the tag. *)
Theorem attribute_names_are_lowercase (raw : string) :
  map_Forall (λ name _, Str.toLowerCase name = name) (parseAttributes raw).
Proof.
  unfold parseAttributes.
  cut (∀ ms attrs, map_Forall (λ k _, Str.toLowerCase k = k) attrs →
         map_Forall (λ k _, Str.toLowerCase k = k) (fold_left setAttr ms attrs)).
  { intros H. apply H. apply map_Forall_empty. }
  induction ms as [|m ms IH]; intros attrs Ha; simpl; [done|].
  by apply IH, setAttr_lower.
Qed.

(** *** Standard tags *)

Lemma stitch_ext f g p :
  Forall (λ m, f m = g m) p.1 → stitch f p = stitch g p.
Proof.
  destruct p as [ms tl]. unfold stitch. simpl.
  induction 1 as [|m ms Hm _ IH]; simpl; [done|]. by rewrite Hm, IH.
Qed.

Lemma stitch_text r : consuming r = true →
  ∀ n prev s, stitch text (scan n r prev s) = s.
Proof.
  intros Hc. induction n as [|n IH]; intros prev s; [done|].
  rewrite scan_step by done.
  destruct (search r prev s) as [m|] eqn:Hs; [|done].
  destruct (search_spec _ _ _ _ Hs) as [Heq _].
  specialize (IH (Str.last (pre m +:+ text m) prev) (post m)).
  destruct (scan n r _ (post m)) as [ms tl]. unfold stitch in *. simpl in *.
  by rewrite IH.
Qed.

(** X15.  [replaceComponentTags] leaves a line unchanged when every tag it
    finds in the line is a standard HTML tag. *)
Theorem standard_tags_are_kept (line : string) :
  Forall (λ name, Str.toLowerCase name ∈ STANDARD_HTML_TAGS) (tagsOf line) →
  replaceComponentTags line = line.
Proof.
  intros H. unfold replaceComponentTags. rewrite replaceAll_stitch.
  rewrite (stitch_ext _ text).
  - unfold pieces. by apply stitch_text.
  - unfold tagsOf in H. apply Forall_map in H. eapply Forall_impl; [exact H|].
    intros m Hm. simpl in Hm. unfold rewriteTag. by rewrite bool_decide_eq_true_2.
Qed.

Lemma standard_tags_are_kept_witness :
  replaceComponentTags "a <B>bold</B> and <a href=x.md>link</a><br/>"
  = "a <B>bold</B> and <a href=x.md>link</a><br/>".
Proof.
  apply standard_tags_are_kept. vm_compute. repeat constructor; set_solver.
Defined.

End ComponentFacts.

(** ** Collecting the files *)

Module CollectFacts.
Import Build Collect StrFacts IndexFacts.

Section WithOrder.
Variable localeCompare : string → string → Z.

Local Abbreviation sorted := (sortBy localeCompare name).

Lemma depthOf_listing d : isDirectory d = true → depth (listingOf d) = depthOf d.
Proof. destruct d as [n|n [es|]|n]; done. Qed.

Lemma readableEntry_listing d :
  isDirectory d = true → readableEntry d = readable (listingOf d).
Proof. destruct d as [n|n [es|]|n]; done. Qed.

Lemma readableEntry_other d : isDirectory d = false → readableEntry d = true.
Proof. by destruct d as [n|n [es|]|n]. Qed.

Lemma markdownUnder_listing rootDir d :
  isDirectory d = true →
  markdownUnder rootDir d
  = markdownIn (Path.join [rootDir; name d]) (default [] (listingOf d)).
Proof. destruct d as [n|n [es|]|n]; done. Qed.

Lemma depthOf_le d entries : d ∈ entries → depthOf d ≤ list_max (map depthOf entries).
Proof.
  induction 1 as [d entries|d e entries _ IH]; simpl; lia.
Qed.

Lemma collectLoop_ok collect rootDir dirs : ∀ files,
  Forall (λ d, ∃ found, collect (Path.join [rootDir; name d]) (listingOf d) = Some found
                        ∧ found ≡ₚ markdownUnder rootDir d) dirs →
  ∃ out, collectLoop collect rootDir dirs files = Some out
         ∧ out ≡ₚ files ++ concat (map (markdownUnder rootDir) dirs).
Proof.
  induction dirs as [|d dirs IH]; intros files Hd; simpl.
  - exists files. by rewrite app_nil_r.
  - apply Forall_cons in Hd as [(found & -> & Hf) Hd].
    destruct (IH (files ++ found) Hd) as (out & -> & Hout).
    exists out. split; [done|]. by rewrite Hout, Hf, <- app_assoc.
Qed.

Lemma collectLoop_fails collect rootDir dirs : ∀ files d,
  d ∈ dirs → collect (Path.join [rootDir; name d]) (listingOf d) = None →
  collectLoop collect rootDir dirs files = None.
Proof.
  induction dirs as [|d' dirs IH]; intros files d Hin Hd; [by apply elem_of_nil in Hin|].
  simpl. apply elem_of_cons in Hin as [<-|Hin]; [by rewrite Hd|].
  destruct (collect _ (listingOf d')); [by eapply IH|done].
Qed.

Lemma markdownIn_split rootDir entries :
  markdownIn rootDir entries
  ≡ₚ map (λ file, Path.join [rootDir; name file]) (List.filter isMarkdownFile entries)
     ++ concat (map (markdownUnder rootDir) (List.filter isDirectory entries)).
Proof.
  unfold markdownIn. induction entries as [|e entries IH]; [done|].
  destruct e as [n|n l|n]; cbn [List.filter map concat isDirectory markdownUnder].
  - destruct (isMarkdownFile (File n)); simpl; by rewrite IH.
  - replace (isMarkdownFile (Directory n l)) with false by done.
    cbn [map concat]. rewrite IH.
    rewrite !app_assoc. apply Permutation_app_tail, Permutation_app_comm.
  - replace (isMarkdownFile (Other n)) with false by done. by rewrite IH.
Qed.

Lemma elem_of_filter_list {A} (P : A → bool) x xs :
  x ∈ List.filter P xs ↔ P x = true ∧ x ∈ xs.
Proof. rewrite !list_elem_of_In, filter_In. tauto. Qed.

Lemma collectFiles_spec fuel : ∀ rootDir listing,
  depth listing ≤ fuel →
  if readable listing
  then ∃ files, collectFiles localeCompare fuel rootDir listing = Some files
                ∧ files ≡ₚ markdownIn rootDir (default [] listing)
  else collectFiles localeCompare fuel rootDir listing = None.
Proof.
  induction fuel as [|fuel IH]; intros rootDir [entries|] Hd; simpl in *; try done; [lia|].
  assert (Hdirs : ∀ d, d ∈ sorted (List.filter isDirectory entries) →
            isDirectory d = true ∧ d ∈ entries ∧ depth (listingOf d) ≤ fuel).
  { intros d Hin. rewrite sortBy_perm in Hin. apply elem_of_filter_list in Hin as [Hdir Hin].
    repeat split; try done. rewrite depthOf_listing by done.
    pose proof (depthOf_le _ _ Hin). lia. }
  destruct (forallb readableEntry entries) eqn:Hr.
  - rewrite forallb_forall in Hr.
    destruct (collectLoop_ok (collectFiles localeCompare fuel) rootDir
                (sorted (List.filter isDirectory entries))
                (map (λ file, Path.join [rootDir; name file])
                   (sorted (List.filter isMarkdownFile entries)))) as (out & -> & Hout).
    { apply Forall_forall. intros d Hin. destruct (Hdirs d Hin) as (Hdir & Hin' & Hdepth).
      specialize (IH (Path.join [rootDir; name d]) (listingOf d) Hdepth).
      rewrite <- readableEntry_listing in IH by done.
      rewrite (Hr d) in IH by (by apply list_elem_of_In).
      destruct IH as (found & -> & Hf). exists found. split; [done|].
      by rewrite markdownUnder_listing. }
    exists out. split; [done|]. by rewrite Hout, markdownIn_split, !sortBy_perm.
  - assert (∃ d, d ∈ entries ∧ readableEntry d = false) as (d & Hin & Hd').
    { clear -Hr. induction entries as [|e entries IH]; [done|]. simpl in Hr.
      apply andb_false_iff in Hr as [Hr|Hr].
      - exists e. split; [by left|done].
      - destruct (IH Hr) as (d & ? & ?). exists d. split; [by right|done]. }
    assert (isDirectory d = true) as Hdir.
    { destruct (isDirectory d) eqn:H; [done|]. by rewrite readableEntry_other in Hd'. }
    assert (d ∈ sorted (List.filter isDirectory entries)) as Hs.
    { rewrite sortBy_perm. by apply elem_of_filter_list. }
    apply (collectLoop_fails _ _ _ _ d Hs).
    destruct (Hdirs d Hs) as (_ & _ & Hdepth).
    specialize (IH (Path.join [rootDir; name d]) (listingOf d) Hdepth).
    rewrite <- readableEntry_listing in IH by done. by rewrite Hd' in IH.
Qed.

(** X18.  [collectMarkdownFiles] fails when a directory of the tree cannot be
    read; otherwise it returns the regular files of the tree whose name
    ends in [.md] (in any case), each exactly once, for every
    comparison [localeCompare]. *)
Theorem collect_finds_the_markdown_files (rootDir : string)
    (listing : option (list Dirent)) :
  if readable listing
  then ∃ files, collectMarkdownFiles localeCompare rootDir listing = Some files
                ∧ files ≡ₚ markdownIn rootDir (default [] listing)
  else collectMarkdownFiles localeCompare rootDir listing = None.
Proof. apply collectFiles_spec. lia. Qed.

End WithOrder.

Example collect_sample :
  collectMarkdownFiles codeUnitCompare "/docs"
    (Some [Directory "system" (Some [File "b.md"; File "A.MD"; Other "link.md"]);
           File "z.md"; File "logo.png"; Directory "empty" (Some []); File "a.md"])
  = Some ["/docs/a.md"; "/docs/z.md"; "/docs/system/A.MD"; "/docs/system/b.md"]
  ∧ collectMarkdownFiles codeUnitCompare "/docs"
      (Some [File "a.md"; Directory "locked" None])
    = None.
Proof. split; vm_compute; reflexivity. Qed.

(** *** The docs root *)

(** X19.  [resolveDocsRoot] returns the first candidate that can be
    accessed; it fails exactly when none can, with a message that lists
    all the candidates. *)
Theorem resolveDocsRoot_takes_first_accessible (access : string → bool)
    (candidates : list string) :
  match resolveDocsRoot access candidates with
  | inr root =>
      ∃ before after, candidates = before ++ root :: after
        ∧ access root = true ∧ Forall (λ c, access c = false) before
  | inl message =>
      Forall (λ c, access c = false) candidates
      ∧ message = "Docs path not found. Checked: " +:+ Str.join ", " candidates
  end.
Proof.
  unfold resolveDocsRoot.
  induction candidates as [|c cs IH]; simpl; [by split|].
  destruct (access c) eqn:Hc.
  - exists [], cs. by repeat split.
  - destruct (firstAccessible access cs) as [root|].
    + destruct IH as (before & after & -> & Hr & Hb).
      exists (c :: before), after. repeat split; [done|by constructor].
    + destruct IH as [Hall _]. split; [by constructor|done].
Qed.

(** *** Separators *)

Lemma toPosixPath_map sep p : toPosixPath sep p = Str.mapChars (slashFor sep) p.
Proof.
  unfold toPosixPath. induction p as [|a p IH]; [done|]. simpl. unfold slashFor at 1.
  pose proof (splitOn_nonempty sep p) as Hne.
  destruct (Char.same sep a).
  - destruct (Str.splitOn sep p) as [|y ys]; [done|].
    rewrite join_cons, IH. reflexivity.
  - destruct (Str.splitOn sep p) as [|y ys]; [done|].
    destruct ys as [|z zs].
    + simpl in *. by rewrite IH.
    + rewrite join_cons in *. rewrite sapp_cons. by rewrite IH.
Qed.

(** X20.  [toPosixPath] replaces every separator by a slash and changes no
    other character; with the slash as separator it is the identity, and
    otherwise no separator is left. *)
Theorem toPosixPath_replaces_separators (sep : ascii) (filePath : string) :
  toPosixPath sep filePath = Str.mapChars (slashFor sep) filePath
  ∧ toPosixPath "/" filePath = filePath
  ∧ (sep ≠ "/"%char →
     Str.allChars (Char.non (Char.same sep)) (toPosixPath sep filePath) = true).
Proof.
  split; [apply toPosixPath_map|]. split; [apply splitOn_join|].
  intros Hsep. rewrite toPosixPath_map.
  induction filePath as [|a p IH]; [done|]. simpl. rewrite IH, andb_true_r.
  unfold slashFor, Char.non. destruct (Char.same sep a) eqn:Ha.
  - apply negb_true_iff, same_false. done.
  - by rewrite Ha.
Qed.

End CollectFacts.

(** ** Base URL and separators *)

Module UrlFacts.
Import Rx Re Markdown Build Collect StrFacts RxFacts CollectFacts.

(** *** The trailing slash of the base URL *)

Lemma ensureTrailingSlash_idem baseUrl :
  ensureTrailingSlash (ensureTrailingSlash baseUrl) = ensureTrailingSlash baseUrl.
Proof.
  unfold ensureTrailingSlash. destruct (Str.endsWith "/" baseUrl) eqn:H; [by rewrite H|].
  assert (Str.endsWith "/" (baseUrl +:+ "/") = true) as ->; [|done].
  apply endsWith_spec. by exists baseUrl.
Qed.

Lemma docPathToUrl_slash p baseUrl :
  docPathToUrl p (ensureTrailingSlash baseUrl) = docPathToUrl p baseUrl.
Proof. unfold docPathToUrl. by rewrite ensureTrailingSlash_idem. Qed.

Lemma normalizeDocLink_slash url cur baseUrl :
  normalizeDocLink url cur (ensureTrailingSlash baseUrl) = normalizeDocLink url cur baseUrl.
Proof. unfold normalizeDocLink. by rewrite ensureTrailingSlash_idem. Qed.

Lemma normalizeLinkDestination_slash d cur baseUrl :
  normalizeLinkDestination d cur (ensureTrailingSlash baseUrl)
  = normalizeLinkDestination d cur baseUrl.
Proof.
  unfold normalizeLinkDestination. cbv zeta.
  destruct (Str.isEmpty _); [done|].
  destruct (Str.startsWith "<" _); [destruct (Str.indexOf ">" _)|];
    try destruct (exec URL_REST_RE _); by rewrite ?normalizeDocLink_slash.
Qed.

Lemma replaceAll_ext r f g s : (∀ m, f m = g m) → replaceAll r f s = replaceAll r g s.
Proof.
  intros H. unfold replaceAll. destruct (pieces r s) as [ms tl].
  induction ms as [|m ms IH]; simpl; [done|]. by rewrite H, IH.
Qed.

Lemma normalizeLine_slash cur baseUrl line :
  normalizeLine cur (ensureTrailingSlash baseUrl) line = normalizeLine cur baseUrl line.
Proof.
  unfold normalizeLine, normalizeReferenceDefinition.
  rewrite (replaceAll_ext _ _ (rewriteInlineLink cur baseUrl)).
  - destruct (exec REFERENCE_RE _); [|done]. by rewrite normalizeLinkDestination_slash.
  - intros m. unfold rewriteInlineLink. by rewrite normalizeLinkDestination_slash.
Qed.

Lemma normalizeLinks_slash content cur baseUrl :
  normalizeLinks content (ensureTrailingSlash baseUrl) cur = normalizeLinks content baseUrl cur.
Proof.
  unfold normalizeLinks. f_equal. generalize outside.
  induction (Str.lines content) as [|line rest IH]; intros state; simpl; [done|].
  by rewrite IH, normalizeLine_slash.
Qed.

(** X21.  A base URL gives the same URLs, the same normalised links and the
    same artifacts with and without its trailing slash. *)
Theorem trailing_slash_of_base_url_is_optional (baseUrl : string) :
  (∀ relativePath,
     docPathToUrl relativePath (ensureTrailingSlash baseUrl)
     = docPathToUrl relativePath baseUrl)
  ∧ (∀ content currentFilePath,
       normalizeLinks content (ensureTrailingSlash baseUrl) currentFilePath
       = normalizeLinks content baseUrl currentFilePath)
  ∧ (∀ localeCompare timestamp commit files,
       build localeCompare (ensureTrailingSlash baseUrl) timestamp commit files
       = build localeCompare baseUrl timestamp commit files)
  ∧ (Str.endsWith "/" baseUrl = false → ensureTrailingSlash baseUrl = baseUrl +:+ "/").
Proof.
  split; [intros; apply docPathToUrl_slash|].
  split; [intros; apply normalizeLinks_slash|].
  split.
  - intros. unfold build. by rewrite ensureTrailingSlash_idem.
  - intros H. unfold ensureTrailingSlash. by rewrite H.
Qed.

(** *** Backslashes in a doc path *)

Lemma backslashes_replaced s :
  replaceAll BACKSLASH_RE (λ _, "/") s = toPosixPath "\" s.
Proof.
  rewrite toPosixPath_map.
  destruct (replaceAll_unfold BACKSLASH_RE (λ _, "/")) as [H0 H1]; [done..|].
  induction s as [|a s IH]; [done|]. rewrite H1. simpl. unfold slashFor at 1.
  assert (post <$> matchAt BACKSLASH_RE None (String a s)
          = if Char.same "\" a then Some s else None) as Hm.
  { unfold matchAt, BACKSLASH_RE, chr. cbn [run]. by destruct (Char.same "\" a). }
  destruct (matchAt BACKSLASH_RE None (String a s)) as [m|];
    destruct (Char.same "\" a); try done.
  - injection Hm as ->. by rewrite IH.
  - by rewrite IH.
Qed.

Lemma slashFor_idem sep c : slashFor sep (slashFor sep c) = slashFor sep c.
Proof.
  unfold slashFor. destruct (Char.same sep c) eqn:Hc; [|by rewrite Hc].
  by destruct (Char.same sep "/").
Qed.

(** X22.  [docPathToUrl] treats backslashes as slashes: a path with
    backslashes gives the URL of the path with slashes. *)
Theorem docPathToUrl_accepts_backslashes (relativePath baseUrl : string) :
  docPathToUrl (toPosixPath "\" relativePath) baseUrl = docPathToUrl relativePath baseUrl.
Proof.
  unfold docPathToUrl. rewrite !backslashes_replaced, !toPosixPath_map.
  assert (Str.mapChars (slashFor "\") (Str.mapChars (slashFor "\") relativePath)
          = Str.mapChars (slashFor "\") relativePath) as ->; [|done].
  induction relativePath as [|a p IH]; [done|]. simpl. by rewrite slashFor_idem, IH.
Qed.

Example docPathToUrl_windows_path :
  docPathToUrl "system\updates.md" "https://x/docs/5.x"
  = "https://x/docs/5.x/system/updates.html".
Proof. vm_compute. reflexivity. Qed.

End UrlFacts.

(** ** Query string and fragment of a link *)

Module QueryFacts.
Import Rx Re Markdown Needs LinkParts StrFacts RxFacts NeedsFacts LinkFacts.

Lemma indexOf_app c a b :
  free (Char.same c) a = true →
  Str.indexOf c (a +:+ String c b) = Some (Str.len a)
  ∧ Str.indexOf c a = None.
Proof.
  unfold free. induction a as [|x a IH]; simpl.
  - intros _. by rewrite same_refl.
  - unfold Char.non at 1. intros [Hx Ha]%andb_true_iff. apply negb_true_iff in Hx.
    rewrite ?sapp_cons. simpl. rewrite Hx. destruct (IH Ha) as [-> ->]. done.
Qed.

Lemma cutAt_app c a b :
  free (Char.same c) a = true →
  b = "" ∨ Str.startsWith (String c "") b = true →
  cutAt c (a +:+ b) = (a, b).
Proof.
  intros Ha [->|Hb].
  - rewrite sapp_nil_r. unfold cutAt.
    destruct (indexOf_app c a "" Ha) as [_ ->]. done.
  - apply startsWith_app in Hb as [t ->]. rewrite sapp_cons, sapp_nil_l.
    unfold cutAt. destruct (indexOf_app c a t Ha) as [-> _].
    unfold Str.slice, Str.sliceFrom. simpl Str.drop at 1.
    by rewrite Nat.sub_0_r, str_take_app, str_drop_app.
Qed.

(** *** Where a link starts *)

Lemma tail_marked_head rest :
  tail_marked rest →
  rest = "" ∨ ∃ c t, rest = String c t ∧ (c = "?"%char ∨ c = "#"%char).
Proof.
  intros [->|[H|H]]; [by left|right..];
    apply startsWith_app in H as [t ->]; eauto.
Qed.

Lemma startsWith_slashes path rest :
  tail_marked rest →
  Str.startsWith "//" (path +:+ rest) = Str.startsWith "//" path.
Proof.
  intros H. apply tail_marked_head in H.
  destruct path as [|x [|y path]].
  - rewrite sapp_nil_l. destruct H as [->|(c & t & -> & [->| ->])]; [done|..];
      simpl; by rewrite ?andb_false_r.
  - rewrite sapp_cons, sapp_nil_l. destruct H as [->|(c & t & -> & [->| ->])]; [done|..];
      simpl; by rewrite ?andb_false_r.
  - by rewrite !sapp_cons.
Qed.

Lemma schemeChar_colon b : schemeChar b = true → Char.same ":" b = false.
Proof.
  intros H. destruct (Char.same ":" b) eqn:Hb; [|done].
  apply same_true in Hb as <-. by vm_compute in H.
Qed.

Lemma test_scheme s : test SCHEME_RE s = schemeAt s.
Proof.
  unfold test, SCHEME_RE. cbn [seq]. rewrite exec_bol.
  unfold matchAt. cbn [run star chr]. destruct s as [|a s1]; [done|].
  cbn [schemeAt]. destruct (Char.alpha a); [|done].
  fold schemeChar. rewrite many_longest.
  2:{ intros prev b s c Hb. cbn beta iota. by rewrite schemeChar_colon. }
  cbn [Nat.leb andb]. destruct (Str.dropWhile schemeChar s1) as [|x t]; [done|].
  cbn [Str.startsWith]. destruct (Char.same ":" x); [|done].
  simpl. first [reflexivity|apply bool_decide_eq_true; eauto].
Qed.

Lemma dropWhile_app_marked cls p rest :
  (rest = "" ∨ ∃ c t, rest = String c t ∧ cls c = false) →
  Str.dropWhile cls (p +:+ rest)
  = match Str.dropWhile cls p with
    | "" => rest
    | d => d +:+ rest
    end.
Proof.
  intros H. induction p as [|x p IH].
  - rewrite sapp_nil_l. simpl. destruct H as [->|(c & t & -> & Hc)]; [done|].
    simpl. by rewrite Hc.
  - rewrite sapp_cons. simpl. destruct (cls x); [done|]. by rewrite sapp_cons.
Qed.

Lemma schemeAt_app path rest :
  tail_marked rest → schemeAt (path +:+ rest) = schemeAt path.
Proof.
  intros H. apply tail_marked_head in H.
  destruct path as [|a p].
  - rewrite sapp_nil_l. destruct H as [->|(c & t & -> & [->| ->])]; done.
  - rewrite sapp_cons. simpl. f_equal. rewrite dropWhile_app_marked.
    + destruct (Str.dropWhile schemeChar p) as [|x d].
      * destruct H as [->|(c & t & -> & [->| ->])]; done.
      * by rewrite sapp_cons.
    + destruct H as [->|(c & t & -> & [->| ->])]; [by left|right; eauto..].
Qed.

Lemma parts_tail path query hash :
  parts path query hash → tail_marked (query +:+ hash).
Proof.
  intros (_ & _ & [->|Hq] & Hh).
  - rewrite sapp_nil_l. destruct Hh as [->|Hh]; [by left|by right; right].
  - right; left. apply startsWith_app in Hq as [t ->]. by rewrite sapp_cons.
Qed.

Lemma untouched_path path query hash :
  parts path query hash →
  (Str.isEmpty (path +:+ query +:+ hash) || Str.startsWith "#" (path +:+ query +:+ hash))
  = false →
  Str.startsWith "//" (path +:+ query +:+ hash) || test SCHEME_RE (path +:+ query +:+ hash)
  = Str.startsWith "//" path || test SCHEME_RE path.
Proof.
  intros Hp _. pose proof (parts_tail _ _ _ Hp) as Ht.
  by rewrite !test_scheme, startsWith_slashes, schemeAt_app.
Qed.

Lemma head_free c a s :
  Str.allChars (Char.non (Char.same c)) (String a s) = true → Char.same c a = false.
Proof.
  simpl. unfold Char.non at 1. intros [H _]%andb_true_iff. by apply negb_true_iff.
Qed.

(** X2.  [normalizeDocLink] rewrites the path of a link only: the query
    string and the fragment of the link are appended unchanged to the
    rewritten path. *)
Theorem link_keeps_query_and_fragment
    (path query hash currentFilePath baseUrl : string) :
  parts path query hash →
  normalizeDocLink (path +:+ query +:+ hash) currentFilePath baseUrl
  = normalizeDocLink path currentFilePath baseUrl +:+ query +:+ hash.
Proof.
  intros Hp. pose proof Hp as (Hq & Hh & Hquery & Hhash).
  pose proof (untouched_path _ _ _ Hp) as Hsame.
  assert (Str.allChars (Char.non (Char.same "#")) path = true
          ∧ Str.allChars (Char.non (Char.same "#")) query = true) as [Hh1 Hh2].
  { rewrite allChars_app in Hh. by apply andb_true_iff. }
  unfold normalizeDocLink at 1.
  destruct (Str.isEmpty (path +:+ query +:+ hash)
            || Str.startsWith "#" (path +:+ query +:+ hash)) eqn:Hfirst.
  { (* the link is empty or a fragment: there is no path and no query *)
    assert (path = "" ∧ query = "") as [-> ->]; [|done].
    destruct path as [|a p].
    - split; [done|]. destruct query as [|b q]; [done|].
      rewrite sapp_nil_l, sapp_cons in Hfirst.
      cbn [Str.isEmpty Str.startsWith orb] in Hfirst.
      by rewrite (head_free _ _ _ Hh2) in Hfirst.
    - rewrite sapp_cons in Hfirst. cbn [Str.isEmpty Str.startsWith orb] in Hfirst.
      by rewrite (head_free _ _ _ Hh1) in Hfirst. }
  rewrite Hsame by done.
  destruct (Str.startsWith "//" path || test SCHEME_RE path) eqn:Hsecond.
  { rewrite normalizeDocLink_untouched; [done|]. by rewrite Hsecond, orb_true_r. }
  rewrite <- sapp_assoc, (cutAt_app "#" (path +:+ query) hash) by done.
  rewrite (cutAt_app "?" path query) by done.
  unfold normalizeDocLink.
  destruct (Str.isEmpty path || Str.startsWith "#" path) eqn:Hpath.
  { assert (path = "") as ->; [|by rewrite sapp_assoc].
    destruct path as [|a p]; [done|]. cbn [Str.isEmpty Str.startsWith orb] in Hpath.
    by rewrite (head_free _ _ _ Hh1) in Hpath. }
  rewrite Hsecond.
  pose proof (cutAt_app "#" path "" Hh1 (or_introl eq_refl)) as Hc1.
  pose proof (cutAt_app "?" path "" Hq (or_introl eq_refl)) as Hc2.
  rewrite sapp_nil_r in Hc1, Hc2. rewrite Hc1, Hc2.
  match goal with |- context [Str.isEmpty ?x] => destruct (Str.isEmpty x) end.
  - by rewrite sapp_assoc.
  - by rewrite !sapp_nil_r, !sapp_assoc.
Qed.

Lemma link_keeps_query_and_fragment_witness :
  normalizeDocLink ("../system/updates.md" +:+ "?v=2" +:+ "#new?") "guide/intro.md" "https://x/"
  = normalizeDocLink "../system/updates.md" "guide/intro.md" "https://x/" +:+ "?v=2" +:+ "#new?".
Proof.
  apply link_keeps_query_and_fragment. repeat split; auto.
Defined.

Example link_with_query :
  normalizeDocLink "../system/updates.md?v=2#new?" "guide/intro.md" "https://x/"
  = "https://x/system/updates.html?v=2#new?".
Proof. vm_compute. reflexivity. Qed.

End QueryFacts.

(** ** HTML comments *)

Module CommentFacts.
Import Rx Re Markdown StrFacts RxFacts.

Lemma includes_tail p a s : Str.includes p (String a s) = false → Str.includes p s = false.
Proof. simpl. by intros [_ H]%orb_false_iff. Qed.

Lemma includes_head p s : Str.includes p s = false → Str.startsWith p s = false.
Proof. destruct s; simpl; by intros [H _]%orb_false_iff. Qed.

Lemma includes_drop p n s : Str.includes p s = false → Str.includes p (Str.drop n s) = false.
Proof.
  revert s. induction n as [|n IH]; intros [|a s] H; simpl; try done.
  apply IH. by eapply includes_tail.
Qed.

Lemma run_seq {R} r1 r2 prev s c (k : cont R) :
  run (Seq r1 r2) prev s c k = run r1 prev s c (λ prev' s' c', run r2 prev' s' c' k).
Proof. done. Qed.

Lemma run_lit {R} t : ∀ prev s c (k : cont R),
  run (lit t) prev s c k
  = if Str.startsWith t s then k (Str.last t prev) (Str.drop (Str.len t) s) c else None.
Proof.
  induction t as [|a t IH]; intros prev s c k; [by destruct s|].
  assert (run (lit (String a t)) prev s c k
          = run (chr a) prev s c (λ prev' s' c', run (lit t) prev' s' c' k)) as ->.
  { by destruct t. }
  cbn [run chr]. destruct s as [|b s]; [done|]. cbn [Str.startsWith].
  destruct (Char.same a b) eqn:Hab; [|done]. apply same_true in Hab as <-.
  by rewrite IH.
Qed.

Lemma lazy_any_needs_close {R} (k : cont R) : ∀ s prev c,
  Str.includes "-->" s = false →
  many false Char.any 0 None prev s c (λ prev' s' c', run (lit "-->") prev' s' c' k) = None.
Proof.
  induction s as [|a s IH]; intros prev c H.
  - cbn [many]. by rewrite run_lit.
  - cbn [many]. rewrite run_lit, (includes_head _ _ H).
    cbn [Char.any andb negb exhausted]. rewrite IH; [done|by eapply includes_tail].
Qed.

Lemma comment_needs_close prev s :
  Str.includes "-->" s = false → matchAt COMMENT_RE prev s = None.
Proof.
  intros H. unfold matchAt, COMMENT_RE. cbn [seq]. rewrite run_seq, run_lit.
  destruct (Str.startsWith "<!--" s); [|done]. rewrite run_seq.
  apply lazy_any_needs_close. by apply includes_drop.
Qed.

Lemma comment_search prev s :
  Str.includes "-->" s = false → search COMMENT_RE prev s = None.
Proof.
  revert prev. induction s as [|a s IH]; intros prev H; cbn [search].
  - by rewrite comment_needs_close.
  - rewrite comment_needs_close by done. rewrite IH; [done|by eapply includes_tail].
Qed.

(** X17.  [stripHtmlComments] leaves a line without [-->] as it is: a comment
    that does not end on its line is not removed. *)
Theorem unterminated_comment_is_kept (line : string) :
  Str.includes "-->" line = false → stripHtmlComments line = line.
Proof.
  intros H. unfold stripHtmlComments, replaceAll, pieces. cbn [scan].
  by rewrite comment_search.
Qed.

Lemma unterminated_comment_is_kept_witness :
  stripHtmlComments "text <!-- a comment that ends on another line" 
  = "text <!-- a comment that ends on another line".
Proof. apply unterminated_comment_is_kept. vm_compute. reflexivity. Defined.

(** A comment that spans two lines stays, one within a line goes. *)
Example comment_over_two_lines :
  stripVuePressDirectives (Str.unlines ["a <!-- b"; "c --> d"; "e <!-- f --> g"])
  = Str.unlines ["a <!-- b"; "c --> d"; "e  g"].
Proof. vm_compute. reflexivity. Qed.

End CommentFacts.

(** ** The artifacts *)

Module ArtifactFacts.
Import Rx Re Markdown Build Needs StrFacts LineFacts TitleFacts.

Lemma trimEnd_last s :
  Str.trimEnd s = ""
  ∨ ∃ body last, Str.trimEnd s = body +:+ String last "" ∧ Char.space last = false.
Proof.
  induction s as [|a s IH]; [by left|]. simpl.
  destruct IH as [->|(body & last & -> & Hl)]; simpl.
  - destruct (Char.space a) eqn:Ha; [by left|]. right. by exists "", a.
  - right. exists (String a body), last. split; [|done].
    by destruct body.
Qed.

Lemma join_head sep x xs : ∃ t, Str.join sep (x :: xs) = x +:+ t.
Proof.
  destruct xs as [|y ys]; [exists ""; by rewrite sapp_nil_r|].
  rewrite join_cons. eauto.
Qed.

Lemma ends_with_one_line_break a x xs :
  Char.space a = false →
  ∃ body last,
    Str.trimEnd (Str.unlines (String a x :: xs)) +:+ String "010" ""
    = body +:+ String last (String "010" "")
    ∧ Char.space last = false.
Proof.
  intros Ha. unfold Str.unlines. destruct (join_head (String "010" "") (String a x) xs) as [t ->].
  rewrite sapp_cons.
  destruct (trimEnd_last (String a (x +:+ t))) as [H|(body & last & -> & Hl)].
  - rewrite trimEnd_head in H by done. done.
  - exists body, last. split; [|done]. by rewrite sapp_assoc.
Qed.

(** X23.  The index ends with a character that is not white space followed
    by one line break; so does the full document when there is at least
    one page, and without pages it is the header followed by two empty
    lines. *)
Theorem artifacts_end_with_one_line_break
    (localeCompare : string → string → Z)
    (configBaseUrl timestamp commit : string) (files : list Document) :
  let artifacts := build localeCompare configBaseUrl timestamp commit files in
  (∃ body last,
     artifacts.2 = body +:+ String last (String "010" "") ∧ Char.space last = false)
  ∧ match files with
    | [] =>
        artifacts.1
        = Str.unlines ["# Craft CMS Documentation";
                       "Craft CMS 5.x documentation covering installation, configuration, templating, and extension points.";
                       provenance timestamp commit; ""; ""; ""]
    | _ :: _ =>
        ∃ body last,
          artifacts.1 = body +:+ String last (String "010" "") ∧ Char.space last = false
    end.
Proof.
  intros artifacts. subst artifacts. unfold build. cbn [fst snd]. split.
  - unfold indexText. cbn [app]. by apply ends_with_one_line_break.
  - destruct files as [|d files].
    { unfold fullText, Str.unlines. cbn [map concat Str.join Str.trimEnd].
      rewrite <- !sapp_assoc. rewrite ?sapp_nil_r. reflexivity. }
    unfold fullText. cbn [map concat pageChunk app].
    destruct (ends_with_one_line_break "-" "--"
                (("# " +:+ titleOf d)
                 :: normalizedContent (ensureTrailingSlash configBaseUrl) d :: ""
                 :: concat (map (pageChunk (ensureTrailingSlash configBaseUrl)) files)))
      as (body & last & Hb & Hl); [done|].
    eexists _, last. split; [|done].
    rewrite Hb. by rewrite <- !sapp_assoc.
Qed.

(** *** The section of a path *)

Lemma includes_char c s :
  Str.includes (String c "") s = negb (free (Char.same c) s).
Proof.
  unfold free. induction s as [|a s IH]; [done|].
  cbn [Str.includes Str.startsWith Str.allChars]. rewrite IH. unfold Char.non.
  destruct (Char.same c a); [done|]. simpl. by destruct s.
Qed.

(** X24.  The index section of a file is [root] when its path has no slash,
    and the text before the first slash otherwise. *)
Theorem index_section_of_a_path :
  (∀ relPath, free (Char.same "/") relPath = true → groupOf relPath = "root")
  ∧ (∀ directory rest,
       free (Char.same "/") directory = true →
       groupOf (directory +:+ "/" +:+ rest) = directory).
Proof.
  split.
  - intros p Hp. unfold groupOf. by rewrite includes_char, Hp.
  - intros d rest Hd. unfold groupOf.
    rewrite sapp_cons, sapp_nil_l. rewrite includes_char. unfold free in *.
    rewrite allChars_app. cbn [Str.allChars].
    replace (Char.non (Char.same "/") "/") with false by done.
    rewrite andb_false_r. cbn [negb]. by rewrite splitOn_app.
Qed.

End ArtifactFacts.

(** ** Link destinations *)

Module DestinationFacts.
Import Rx Re Markdown Needs LinkParts Destination.
Import StrFacts RxFacts NeedsFacts LinkFacts TitleFacts QueryFacts.

(** *** White space at both ends *)

Lemma takeWhile_dropWhile q s : Str.takeWhile q s +:+ Str.dropWhile q s = s.
Proof.
  induction s as [|a s IH]; [done|]. simpl. destruct (q a); [|done].
  by rewrite sapp_cons, IH.
Qed.

Lemma sapp_inv_head x a b : x +:+ a = x +:+ b → a = b.
Proof.
  induction x as [|c x IH]; [by rewrite !sapp_nil_l|].
  rewrite !sapp_cons. intros [= H]. auto.
Qed.

Lemma trimEnd_all_space s : Str.allChars Char.space s = true → Str.trimEnd s = "".
Proof.
  induction s as [|a s IH]; [done|]. simpl. intros [Ha Hs]%andb_true_iff.
  by rewrite IH, Ha.
Qed.

Lemma trimEnd_prefix s :
  ∃ w, s = Str.trimEnd s +:+ w ∧ Str.allChars Char.space w = true.
Proof.
  induction s as [|a s IH]; [by exists ""|]. simpl.
  destruct IH as (w & Hs & Hw).
  destruct (Str.isEmpty (Str.trimEnd s) && Char.space a) eqn:H.
  - apply andb_true_iff in H as [He Ha]. exists (String a s). split; [done|].
    simpl. rewrite Ha. destruct (Str.trimEnd s); [|done].
    rewrite sapp_nil_l in Hs. by subst.
  - exists w. split; [|done]. rewrite sapp_cons. by rewrite <- Hs.
Qed.

Lemma wsTail_spec s :
  s = Str.trimEnd s +:+ wsTail s ∧ Str.allChars Char.space (wsTail s) = true.
Proof.
  destruct (trimEnd_prefix s) as (w & Hs & Hw). unfold wsTail.
  remember (Str.trimEnd s) as t eqn:Ht. clear Ht. subst s.
  by rewrite str_drop_app.
Qed.

Lemma trimEnd_app_ws y w :
  Str.allChars Char.space w = true → Str.trimEnd (y +:+ w) = Str.trimEnd y.
Proof.
  intros Hw. induction y as [|a y IH].
  - rewrite sapp_nil_l. by apply trimEnd_all_space.
  - rewrite sapp_cons. simpl. by rewrite IH.
Qed.

Lemma trimEnd_app_keep x z :
  Str.trimEnd z ≠ "" → Str.trimEnd (x +:+ z) = x +:+ Str.trimEnd z.
Proof.
  intros Hz. induction x as [|a x IH]; [by rewrite !sapp_nil_l|].
  rewrite !sapp_cons. simpl. rewrite IH.
  destruct (x +:+ Str.trimEnd z) eqn:H; [|done].
  destruct x; [by rewrite sapp_nil_l in H|by rewrite sapp_cons in H].
Qed.

Lemma takeWhile_all q s : Str.allChars q (Str.takeWhile q s) = true.
Proof. induction s as [|a s IH]; [done|]. simpl. destruct (q a) eqn:H; [|done]. simpl. by rewrite H. Qed.

Lemma takeWhile_app_stop q s c t :
  q c = false → Str.takeWhile q (s +:+ String c t) = Str.takeWhile q s.
Proof.
  intros Hc. induction s as [|a s IH].
  - rewrite sapp_nil_l. simpl. by rewrite Hc.
  - rewrite sapp_cons. simpl. destruct (q a); [|done]. by rewrite IH.
Qed.

Lemma takeWhile_app_all q l r :
  Str.allChars q l = true → Str.takeWhile q (l +:+ r) = l +:+ Str.takeWhile q r.
Proof.
  induction l as [|a l IH]; [by rewrite !sapp_nil_l|]. simpl.
  intros [Ha Hl]%andb_true_iff. rewrite ?sapp_cons. simpl. by rewrite Ha, IH.
Qed.

Lemma dropWhile_app_all q l r :
  Str.allChars q l = true → Str.dropWhile q (l +:+ r) = Str.dropWhile q r.
Proof.
  induction l as [|a l IH]; [by rewrite !sapp_nil_l|]. simpl.
  intros [Ha Hl]%andb_true_iff. rewrite ?sapp_cons. simpl. by rewrite Ha, IH.
Qed.

Lemma take_all s : Str.take (Str.len s) s = s.
Proof. induction s as [|a s IH]; [done|]. simpl. by rewrite IH. Qed.

(** *** The three patterns of [normalizeLinkDestination] *)

Lemma matched_leading s : matched LEADING_WS_RE s = Str.takeWhile Char.space s.
Proof.
  unfold matched, LEADING_WS_RE. rewrite exec_bol. unfold matchAt. cbn [run star].
  rewrite many_total by (intros; eauto). cbn [Nat.leb text].
  by rewrite take_takeWhile.
Qed.

Lemma matchAt_trailing prev s :
  matchAt TRAILING_WS_RE prev s
  = if Str.allChars Char.space s then Some (Found "" s [] "") else None.
Proof.
  unfold matchAt, TRAILING_WS_RE. cbn [run star].
  rewrite many_longest by done. cbn [Nat.leb].
  destruct (Str.allChars Char.space s) eqn:Hs.
  - rewrite dropWhile_all by done. simpl. by rewrite Nat.sub_0_r, take_all.
  - destruct (dropWhile_shape Char.space s) as [H|(b & rest & -> & Hb)]; [|done].
    exfalso. clear -H Hs. induction s as [|a s IH]; [done|]. simpl in *.
    destruct (Char.space a); [by apply IH|done].
Qed.

Lemma search_trailing s : ∀ prev,
  ∃ m, search TRAILING_WS_RE prev s = Some m
       ∧ pre m = Str.trimEnd s ∧ s = pre m +:+ text m.
Proof.
  induction s as [|a s IH]; intros prev; cbn [search]; rewrite matchAt_trailing.
  - eexists. by split.
  - destruct (Str.allChars Char.space (String a s)) eqn:Hs.
    + eexists. split; [done|]. simpl pre. by rewrite trimEnd_all_space.
    + destruct (IH (Some a)) as (m & -> & Hpre & Htext). eexists. split; [done|].
      simpl. split; [|by rewrite ?sapp_cons, <- Htext].
      rewrite Hpre.
      destruct (Str.isEmpty (Str.trimEnd s) && Char.space a) eqn:H; [|done].
      apply andb_true_iff in H as [He Ha]. simpl in Hs. rewrite Ha in Hs. simpl in Hs.
      destruct (trimEnd_prefix s) as (w & Hw & Hall).
      destruct (Str.trimEnd s); [|done]. rewrite sapp_nil_l in Hw. subst w.
      by rewrite Hall in Hs.
Qed.

Lemma matched_trailing s : matched TRAILING_WS_RE s = wsTail s.
Proof.
  unfold matched, exec. destruct (search_trailing s None) as (m & -> & Hpre & Hs).
  destruct (wsTail_spec s) as [Hw _]. rewrite <- Hpre in Hw.
  rewrite Hs in Hw at 1. by apply sapp_inv_head in Hw.
Qed.

Lemma inner_is_trim raw :
  Str.slice (Str.len (Str.takeWhile Char.space raw))
    (Str.len raw - Str.len (wsTail raw)) raw
  = Str.trim raw.
Proof.
  unfold Str.slice, Str.trim, Str.trimStart.
  pose proof (takeWhile_dropWhile Char.space raw) as Hraw.
  set (l := Str.takeWhile Char.space raw) in *.
  set (r := Str.dropWhile Char.space raw) in *.
  assert (Str.drop (Str.len l) raw = r) as -> by (by rewrite <- Hraw, str_drop_app).
  destruct (dropWhile_shape Char.space raw) as [Hr|(b & rest & Hr & Hb)]; fold r in Hr.
  { rewrite Hr. by destruct (_ - _). }
  assert (Str.trimEnd r ≠ "") as Hne by (rewrite Hr, trimEnd_head; done).
  destruct (wsTail_spec raw) as [Hw _]. destruct (wsTail_spec r) as [Hwr _].
  assert (Str.trimEnd raw = l +:+ Str.trimEnd r) as Ht.
  { rewrite <- Hraw at 1. by apply trimEnd_app_keep. }
  assert (Str.len raw - Str.len (wsTail raw) - Str.len l = Str.len (Str.trimEnd r)) as ->.
  { apply (f_equal Str.len) in Hw. rewrite len_app, Ht, len_app in Hw. lia. }
  remember (Str.trimEnd r) as t eqn:Heqt. clear Heqt. rewrite Hwr. apply str_take_app.
Qed.

Lemma allChars_any s : Str.allChars Char.any s = true.
Proof. by induction s. Qed.

Lemma exec_url_rest inner :
  Str.isEmpty (Str.takeWhile nonSpace inner) = false →
  ∃ m, exec URL_REST_RE inner = Some m
       ∧ group 1 (groups m) = Some (Str.takeWhile nonSpace inner)
       ∧ group 2 (groups m) = Some (Str.dropWhile nonSpace inner).
Proof.
  intros Hne. unfold URL_REST_RE. cbn [seq]. rewrite exec_bol.
  unfold matchAt. cbn [run plus star]. fold nonSpace.
  eexists. split.
  - apply many_first.
    + destruct (Str.takeWhile nonSpace inner); [done|simpl; lia].
    + cbn beta. apply many_first; [lia|].
      rewrite (dropWhile_all Char.any) by apply allChars_any. reflexivity.
  - cbn [groups group Nat.eqb]. split.
    + by rewrite take_takeWhile.
    + simpl. by rewrite Nat.sub_0_r, take_all.
Qed.

Lemma destination_core raw cur base :
  normalizeLinkDestination raw cur base
  = if Str.isEmpty (Str.trim raw) then raw
    else Str.takeWhile Char.space raw +:+ core cur base (Str.trim raw) +:+ wsTail raw.
Proof.
  unfold normalizeLinkDestination. cbv zeta.
  rewrite matched_leading, matched_trailing, inner_is_trim.
  destruct (Str.isEmpty (Str.trim raw)) eqn:He; [done|].
  assert (Str.isEmpty (Str.takeWhile nonSpace (Str.trim raw)) = false) as Hu.
  { unfold Str.trim, Str.trimStart in *.
    destruct (dropWhile_shape Char.space raw) as [H|(b & rest & H & Hb)];
      rewrite H in *; [done|].
    rewrite trimEnd_head by done. simpl. unfold nonSpace, Char.non. by rewrite Hb. }
  destruct (exec_url_rest _ Hu) as (m & Hm & H1 & H2).
  unfold core, plainCore. rewrite Hm, H1, H2. simpl default.
  destruct (Str.startsWith "<" (Str.trim raw)); [|by rewrite !sapp_assoc].
  destruct (Str.indexOf ">" (Str.trim raw)); by rewrite !sapp_assoc.
Qed.

(** *** Schemes *)

Lemma alpha_plain a :
  Char.alpha a = true → Char.space a = false ∧ Char.same "<" a = false.
Proof. destruct a as [[] [] [] [] [] [] [] []]; vm_compute; intros H; by try discriminate H. Qed.

Lemma schemeAt_head s :
  schemeAt s = true → ∃ a t, s = String a t ∧ Char.alpha a = true.
Proof. destruct s as [|a t]; [done|]. simpl. intros [H _]%andb_true_iff. eauto. Qed.

Lemma scheme_tail_takeWhile q :
  (∀ c, schemeChar c = true → q c = true) → q ":"%char = true →
  ∀ s, Str.startsWith ":" (Str.dropWhile schemeChar s) = true →
       Str.startsWith ":" (Str.dropWhile schemeChar (Str.takeWhile q s)) = true.
Proof.
  intros Hq Hcolon. induction s as [|x s IH]; [done|]. cbn [Str.dropWhile].
  destruct (schemeChar x) eqn:Hx.
  - intros H. cbn [Str.takeWhile]. rewrite (Hq x Hx). cbn [Str.dropWhile]. rewrite Hx. auto.
  - cbn [Str.startsWith]. intros [Hc _]%andb_true_iff. apply same_true in Hc as <-.
    cbn [Str.takeWhile]. rewrite Hcolon. cbn [Str.dropWhile]. by rewrite Hx.
Qed.

Lemma schemeAt_takeWhile q s :
  (∀ c, schemeChar c = true → q c = true) → q ":"%char = true →
  (∀ c, Char.alpha c = true → q c = true) →
  schemeAt s = true → schemeAt (Str.takeWhile q s) = true.
Proof.
  intros Hq Hcolon Halpha. destruct s as [|a s]; [done|]. cbn [schemeAt].
  intros [Ha Hs]%andb_true_iff. cbn [Str.takeWhile]. rewrite (Halpha a Ha).
  cbn [schemeAt]. rewrite Ha. by apply scheme_tail_takeWhile.
Qed.

Lemma schemeAt_drop_ws p w :
  Str.allChars Char.space w = true → schemeAt (p +:+ w) = true → schemeAt p = true.
Proof.
  intros Hw. assert (w = "" ∨ ∃ c t, w = String c t ∧ Char.space c = true) as Hhead.
  { destruct w as [|c t]; [by left|right]. simpl in Hw.
    apply andb_true_iff in Hw as [Hc _]. eauto. }
  destruct p as [|a p].
  - rewrite sapp_nil_l. destruct Hhead as [->|(c & t & -> & Hc)]; [done|].
    simpl. intros [Ha _]%andb_true_iff. apply alpha_plain in Ha as [Ha _]. congruence.
  - rewrite sapp_cons. cbn [schemeAt]. intros [Ha H]%andb_true_iff. rewrite Ha. simpl.
    rewrite dropWhile_app_marked in H.
    + destruct (Str.dropWhile schemeChar p) as [|x d]; [|by rewrite sapp_cons in H].
      destruct Hhead as [->|(c & t & -> & Hc)]; [done|].
      cbn [Str.startsWith] in H. apply andb_true_iff in H as [H _].
      apply same_true in H as <-. by vm_compute in Hc.
    + destruct Hhead as [->|(c & t & -> & Hc)]; [by left|right].
      exists c, t. split; [done|]. destruct (schemeChar c) eqn:Hs; [|done].
      exfalso. clear -Hc Hs. destruct c as [[] [] [] [] [] [] [] []]; vm_compute in *; congruence.
Qed.

Lemma schemeAt_trimEnd s : schemeAt s = true → schemeAt (Str.trimEnd s) = true.
Proof.
  destruct (wsTail_spec s) as [Hs Hw]. intros H. rewrite Hs in H.
  by eapply schemeAt_drop_ws.
Qed.

Lemma schemeAt_extend base t : schemeAt base = true → schemeAt (base +:+ t) = true.
Proof. rewrite <- !test_scheme. by apply test_extend. Qed.

Lemma scheme_untouched url cur base :
  schemeAt url = true → normalizeDocLink url cur base = url.
Proof.
  intros H. apply normalizeDocLink_untouched. rewrite test_scheme, H.
  by rewrite !orb_true_r.
Qed.

(** *** Normalising twice *)

Lemma indexOf_split c s e :
  Str.indexOf c s = Some e →
  s = Str.take e s +:+ String c (Str.drop (S e) s)
  ∧ free (Char.same c) (Str.take e s) = true.
Proof.
  unfold free. revert e. induction s as [|a s IH]; intros e; [done|]. cbn [Str.indexOf].
  destruct (Char.same c a) eqn:Ha.
  - intros [= <-]. apply same_true in Ha as <-. done.
  - destruct (Str.indexOf c s) as [e'|]; [|done]. intros [= <-].
    destruct (IH e' eq_refl) as [Hs Hf].
    change (Str.take (S e') (String a s)) with (String a (Str.take e' s)).
    change (Str.drop (S (S e')) (String a s)) with (Str.drop (S e') s).
    rewrite sapp_cons, <- Hs. split; [done|].
    cbn [Str.allChars]. unfold Char.non at 1. by rewrite Ha.
Qed.

Lemma drop_past v c z : Str.drop (S (Str.len v)) (v +:+ String c z) = z.
Proof. induction v as [|a v IH]; [done|]. by rewrite sapp_cons. Qed.

Lemma takeWhile_free q s : Str.allChars q s = true → Str.takeWhile q s = s.
Proof.
  induction s as [|a s IH]; [done|]. simpl. intros [Ha Hs]%andb_true_iff.
  by rewrite Ha, IH.
Qed.

(** A text that starts with a character other than white space. *)
Local Abbreviation headed s := (∃ a t, s = String a t ∧ Char.space a = false).

Lemma headed_trimEnd s : headed s → Str.trimEnd s ≠ "".
Proof. intros (a & t & -> & Ha). by rewrite trimEnd_head. Qed.

Lemma scheme_fixes_plain cur base y :
  schemeAt y = true →
  core cur base (Str.trimEnd y) = Str.trimEnd y.
Proof.
  intros Hy. apply schemeAt_trimEnd in Hy.
  destruct (schemeAt_head _ Hy) as (a & t & Heq & Ha).
  destruct (alpha_plain a Ha) as [Hsp Hlt].
  unfold core. rewrite Heq. cbn [Str.startsWith]. rewrite Hlt. cbn [andb].
  rewrite <- Heq. unfold plainCore.
  rewrite scheme_untouched; [apply takeWhile_dropWhile|].
  apply schemeAt_takeWhile; try done.
  - intros c Hc. unfold nonSpace, Char.non. destruct (Char.space c) eqn:Hs; [|done].
    exfalso. clear -Hc Hs. destruct c as [[] [] [] [] [] [] [] []]; vm_compute in *; congruence.
  - intros c Hc. unfold nonSpace, Char.non. by destruct (alpha_plain c Hc) as [-> _].
Qed.

Lemma plain_fixed cur base inner :
  schemeAt base = true →
  Str.trimEnd inner = inner → headed inner →
  core cur base inner = plainCore cur base inner →
  let y := plainCore cur base inner in
  headed y ∧ core cur base (Str.trimEnd y) = Str.trimEnd y.
Proof.
  intros Hbase Htrim Hhead Hcore y. subst y. unfold plainCore in *.
  destruct (normalizeDocLink_cases (Str.takeWhile nonSpace inner) cur base)
    as [Hn|[t Hn]]; rewrite Hn in *.
  - rewrite takeWhile_dropWhile in *. split; [done|]. by rewrite Htrim.
  - pose proof (schemeAt_extend base (t +:+ Str.dropWhile nonSpace inner) Hbase) as Hy.
    rewrite <- sapp_assoc in Hy. split; [|by apply scheme_fixes_plain].
    destruct (schemeAt_head _ Hy) as (a & u & -> & Ha). exists a, u. split; [done|].
    by destruct (alpha_plain a Ha).
Qed.

Lemma angle_fixed cur base s0 e :
  schemeAt base = true →
  Str.trimEnd (String "<" s0) = String "<" s0 →
  Str.indexOf ">" s0 = Some e →
  let y := "<" +:+ normalizeDocLink (Str.take e s0) cur base
             +:+ ">" +:+ Str.drop (S e) s0 in
  headed y ∧ core cur base (Str.trimEnd y) = Str.trimEnd y.
Proof.
  intros Hbase Htrim He y. subst y.
  destruct (indexOf_split _ _ _ He) as [Hs0 Hfree].
  set (url := Str.take e s0) in *. set (rest := Str.drop (S e) s0) in *.
  set (V := normalizeDocLink url cur base).
  set (z := String ">" rest).
  assert (Str.trimEnd z = z) as Hz.
  { rewrite Hs0 in Htrim. fold z in Htrim.
    change (String "<" (url +:+ z)) with (String "<" url +:+ z) in Htrim.
    rewrite trimEnd_app_keep in Htrim by (unfold z; by rewrite trimEnd_head).
    by apply sapp_inv_head in Htrim. }
  assert (("<" +:+ V +:+ ">" +:+ rest) = String "<" V +:+ z) as Hy by done.
  rewrite Hy. split; [by exists "<"%char, (V +:+ z)|].
  rewrite trimEnd_app_keep by (rewrite Hz; done). rewrite Hz.
  (* the first closing bracket of the rewritten destination *)
  set (v1 := Str.takeWhile (Char.non (Char.same ">")) V).
  assert (∃ z2, V +:+ z = v1 +:+ String ">" z2) as [z2 HZ].
  { pose proof (takeWhile_dropWhile (Char.non (Char.same ">")) (V +:+ z)) as H.
    unfold z in H at 1. rewrite takeWhile_app_stop in H by done. fold v1 in H.
    destruct (dropWhile_shape (Char.non (Char.same ">")) (V +:+ z))
      as [Hd|(b & r & Hd & Hb)]; rewrite Hd in H.
    - exfalso. rewrite sapp_nil_r in H.
      pose proof (takeWhile_all (Char.non (Char.same ">")) V) as Hall. fold v1 in Hall.
      rewrite H, allChars_app in Hall. unfold z in Hall. simpl in Hall.
      by rewrite andb_false_r in Hall.
    - apply negb_false_iff, same_true in Hb as <-. by exists r. }
  assert (normalizeDocLink v1 cur base = v1) as Hv1.
  { destruct (normalizeDocLink_cases url cur base) as [Hn|[t Hn]]; fold V in Hn.
    - unfold v1. rewrite Hn. rewrite takeWhile_free by done. exact Hn.
    - apply scheme_untouched. unfold v1. apply schemeAt_takeWhile; try done.
      + intros c Hc. unfold Char.non. destruct (Char.same ">" c) eqn:Hs; [|done].
        apply same_true in Hs as <-. by vm_compute in Hc.
      + intros c Hc. unfold Char.non. destruct (Char.same ">" c) eqn:Hs; [|done].
        apply same_true in Hs as <-. by vm_compute in Hc.
      + rewrite Hn. by apply schemeAt_extend. }
  unfold core. rewrite sapp_cons. cbn [Str.startsWith Str.indexOf].
  rewrite same_refl. replace (Char.same ">" "<") with false by done. cbn [andb].
  rewrite HZ.
  destruct (indexOf_app ">" v1 z2) as [-> _]; [apply takeWhile_all|].
  cbn [fmap option_fmap option_map]. unfold Str.slice, Str.sliceFrom.
  replace (S (Str.len v1) - 1) with (Str.len v1) by lia.
  replace (S (Str.len v1) + 1) with (S (S (Str.len v1))) by lia.
  change (Str.drop 1 (String "<" (v1 +:+ String ">" z2))) with (v1 +:+ String ">" z2).
  change (Str.drop (S (S (Str.len v1))) (String "<" (v1 +:+ String ">" z2)))
    with (Str.drop (S (Str.len v1)) (v1 +:+ String ">" z2)).
  rewrite str_take_app, Hv1, drop_past. by rewrite !sapp_cons, !sapp_nil_l.
Qed.

Lemma core_fixed cur base inner :
  schemeAt base = true →
  Str.trimEnd inner = inner → headed inner →
  let y := core cur base inner in
  headed y ∧ core cur base (Str.trimEnd y) = Str.trimEnd y.
Proof.
  intros Hbase Htrim Hhead.
  destruct (Str.startsWith "<" inner) eqn:Hlt.
  - apply startsWith_app in Hlt as [s0 ->]. rewrite sapp_cons, sapp_nil_l in *.
    destruct (Str.indexOf ">" s0) as [e|] eqn:He.
    + assert (core cur base (String "<" s0)
              = "<" +:+ normalizeDocLink (Str.take e s0) cur base
                  +:+ ">" +:+ Str.drop (S e) s0) as ->.
      { unfold core. cbn [Str.startsWith Str.indexOf]. rewrite same_refl, He.
        replace (Char.same ">" "<") with false by done.
        cbn [andb fmap option_fmap option_map]. unfold Str.slice, Str.sliceFrom.
        replace (S e - 1) with e by lia. replace (S e + 1) with (S (S e)) by lia.
        reflexivity. }
      by apply angle_fixed.
    + assert (core cur base (String "<" s0) = plainCore cur base (String "<" s0)) as Hc.
      { unfold core. cbn [Str.startsWith Str.indexOf]. rewrite same_refl, He.
        by replace (Char.same ">" "<") with false by done. }
      cbv zeta. rewrite Hc. by apply plain_fixed.
  - assert (core cur base inner = plainCore cur base inner) as Hc.
    { unfold core. by rewrite Hlt. }
    cbv zeta. rewrite Hc. by apply plain_fixed.
Qed.

(** X1.  When the base URL carries a scheme, [normalizeLinkDestination] applied
    to its own result changes nothing: the white space around the
    destination, the angle brackets and what follows the URL are kept,
    and the URL written by the first pass starts with the base URL and
    is left alone by the second. *)
Theorem destination_normalization_is_idempotent
    (rawDestination currentFilePath baseUrl : string) :
  test SCHEME_RE baseUrl = true →
  normalizeLinkDestination
    (normalizeLinkDestination rawDestination currentFilePath baseUrl)
    currentFilePath baseUrl
  = normalizeLinkDestination rawDestination currentFilePath baseUrl.
Proof.
  rewrite test_scheme. intros Hbase.
  rewrite (destination_core rawDestination).
  destruct (Str.isEmpty (Str.trim rawDestination)) eqn:He.
  { rewrite destination_core. by rewrite He. }
  set (l := Str.takeWhile Char.space rawDestination).
  set (w := wsTail rawDestination).
  set (inner := Str.trim rawDestination) in *.
  assert (Str.allChars Char.space l = true) as Hl by apply takeWhile_all.
  assert (Str.allChars Char.space w = true) as Hw by apply wsTail_spec.
  assert (headed inner) as Hhead.
  { unfold inner, Str.trim, Str.trimStart in *.
    destruct (dropWhile_shape Char.space rawDestination) as [H|(b & rest & H & Hb)];
      rewrite H in *; [done|].
    rewrite trimEnd_head by done. eauto. }
  destruct (core_fixed currentFilePath baseUrl inner Hbase) as [Hy Hfix];
    [apply trimEnd_idem|done|].
  set (y := core currentFilePath baseUrl inner) in *.
  destruct Hy as (a & t & Hy & Ha).
  assert (Str.trimEnd (y +:+ w) = Str.trimEnd y) as Hyw by (by apply trimEnd_app_ws).
  assert (Str.trimEnd y ≠ "") as Hne by (rewrite Hy, trimEnd_head; done).
  rewrite destination_core.
  assert (Str.trim (l +:+ y +:+ w) = Str.trimEnd y) as ->.
  { unfold Str.trim, Str.trimStart. rewrite dropWhile_app_all by done.
    rewrite Hy, sapp_cons. cbn [Str.dropWhile]. rewrite Ha. by rewrite <- sapp_cons, <- Hy. }
  assert (Str.takeWhile Char.space (l +:+ y +:+ w) = l) as ->.
  { rewrite takeWhile_app_all by done. rewrite Hy, sapp_cons. cbn [Str.takeWhile].
    rewrite Ha. apply sapp_nil_r. }
  assert (wsTail (l +:+ y +:+ w) = wsTail y +:+ w) as ->.
  { destruct (wsTail_spec (l +:+ y +:+ w)) as [Hs _].
    rewrite trimEnd_app_keep in Hs by (by rewrite Hyw). rewrite Hyw in Hs.
    destruct (wsTail_spec y) as [Hsy _]. rewrite Hsy in Hs at 1.
    rewrite !sapp_assoc in Hs. by do 2 apply sapp_inv_head in Hs. }
  destruct (Str.isEmpty (Str.trimEnd y)) eqn:Hey; [by destruct (Str.trimEnd y)|].
  rewrite Hfix. destruct (wsTail_spec y) as [Hsy _]. rewrite Hsy at 3.
  by rewrite !sapp_assoc.
Qed.

Lemma destination_normalization_is_idempotent_witness :
  test SCHEME_RE "https://x/" = true
  ∧ normalizeLinkDestination " <../my docs/a.md#top> title " "guide/intro.md" "https://x/"
    = " <https://x/my docs/a.html#top> title "
  ∧ normalizeLinkDestination
      (normalizeLinkDestination " <../my docs/a.md#top> title " "guide/intro.md" "https://x/")
      "guide/intro.md" "https://x/"
    = normalizeLinkDestination " <../my docs/a.md#top> title " "guide/intro.md" "https://x/".
Proof.
  split; [vm_compute; reflexivity|]. split; [vm_compute; reflexivity|].
  apply destination_normalization_is_idempotent. vm_compute. reflexivity.
Defined.

End DestinationFacts.

(** ** One-line texts *)

Module OneLineFacts.
Import Rx Re Markdown Heading TitleLine Spacing Destination.
Import StrFacts RxFacts LineFacts TitleFacts SummaryFacts DestinationFacts.

(** *** The summary *)

Lemma spaced_suffix u v : spaced (u +:+ v) = true → spaced v = true.
Proof.
  induction u as [|a u IH]; [by rewrite sapp_nil_l|]. rewrite sapp_cons.
  cbn [spaced]. intros [_ H]%andb_true_iff. auto.
Qed.

Lemma spaced_prefix u v : spaced (u +:+ v) = true → spaced u = true.
Proof.
  induction u as [|a u IH]; [done|]. rewrite sapp_cons. cbn [spaced].
  intros [Ha H]%andb_true_iff. rewrite (IH H), andb_true_r.
  destruct (Char.space a); [|done]. apply andb_true_iff in Ha as [-> Ha].
  destruct u as [|b u]; [done|]. by rewrite sapp_cons in Ha.
Qed.

Lemma len_dropWhile q s : Str.len (Str.dropWhile q s) ≤ Str.len s.
Proof. induction s as [|a s IH]; simpl; [done|]. destruct (q a); simpl; lia. Qed.

Lemma collapseSpaces_spaced s : spaced (collapseSpaces s) = true.
Proof.
  destruct collapseSpaces_unfold as [H0 H1].
  remember (Str.len s) as n eqn:Hn. revert s Hn.
  induction n as [n IH] using lt_wf_ind. intros [|a s] Hn; [by rewrite H0|].
  rewrite H1. simpl in Hn. destruct (Char.space a) eqn:Ha.
  - cbn [spaced]. replace (Char.space " ") with true by done.
    rewrite same_refl. cbn [andb].
    pose proof (len_dropWhile Char.space s) as Hlen.
    rewrite (IH (Str.len (Str.dropWhile Char.space s))) by (done || lia).
    rewrite andb_true_r.
    destruct (dropWhile_shape Char.space s) as [->|(b & rest & -> & Hb)]; [by rewrite H0|].
    rewrite H1, Hb. simpl. by rewrite Hb.
  - cbn [spaced]. rewrite Ha. cbn [andb]. apply (IH (Str.len s)); [lia|done].
Qed.

Lemma trim_spaced s : spaced s = true → spaced (Str.trim s) = true.
Proof.
  intros H. unfold Str.trim, Str.trimStart.
  rewrite <- (takeWhile_dropWhile Char.space s) in H. apply spaced_suffix in H.
  destruct (wsTail_spec (Str.dropWhile Char.space s)) as [Hs _].
  rewrite Hs in H. by apply spaced_prefix in H.
Qed.

(** X25.  The summary is one line of words separated by single blanks:
    it has no white space at its ends, and every white-space character
    in it is a blank that is followed by a character other than white
    space. *)
Theorem summary_is_single_spaced (content : string) :
  let summary := extractSummary content in
  Str.trim summary = summary ∧ spaced summary = true.
Proof.
  intros summary. subst summary. unfold extractSummary, cleanSummaryText. cbv zeta.
  split; [apply trim_idem|]. apply trim_spaced, collapseSpaces_spaced.
Qed.

(** *** The title *)

Lemma many_class {R} greedy p (k : cont R) :
  ∀ s lo hi prev c x,
    many greedy p lo hi prev s c k = Some x →
    ∃ prev' s' u, k prev' s' c = Some x ∧ s = u +:+ s' ∧ Str.allChars p u = true.
Proof.
  induction s as [|a s IH]; intros lo hi prev c x H.
  - simpl in H. destruct lo; [|by destruct greedy].
    exists prev, "", "". repeat split.
    destruct greedy; [done|]. by destruct (k prev "" c).
  - cbn [many] in H.
    assert (Hstop : match lo with 0 => k prev (String a s) c | S _ => None end = Some x →
              ∃ prev' s' u, k prev' s' c = Some x ∧ String a s = u +:+ s'
                            ∧ Str.allChars p u = true).
    { destruct lo; [|done]. intros Hk. by exists prev, (String a s), "". }
    destruct (p a && negb (exhausted hi)) eqn:Hpa.
    + assert (Hmore : many greedy p (Nat.pred lo) (Nat.pred <$> hi) (Some a) s c k = Some x →
                ∃ prev' s' u, k prev' s' c = Some x ∧ String a s = u +:+ s'
                              ∧ Str.allChars p u = true).
      { intros Hy. destruct (IH _ _ _ _ _ Hy) as (prev' & s' & u & Hk & -> & Hu).
        exists prev', s', (String a u). repeat split; [done|].
        apply andb_true_iff in Hpa as [Hp _]. simpl. by rewrite Hp. }
      destruct greedy.
      * destruct (many true p _ _ _ s c k) as [y|]; [injection H as ->; by apply Hmore|by apply Hstop].
      * destruct (match lo with 0 => _ | S _ => None end) as [y|];
          [injection H as ->; by apply Hstop|by apply Hmore].
    + apply Hstop. destruct greedy; [done|].
      by destruct (match lo with 0 => _ | S _ => None end).
Qed.

Lemma title_capture line m :
  exec TITLE_RE line = Some m →
  ∃ captured, group 1 (groups m) = Some captured ∧ unbroken captured = true.
Proof.
  unfold TITLE_RE. cbn [seq]. rewrite exec_bol. unfold matchAt.
  cbn [run chr plus star lazyPlus].
  destruct line as [|a s1]; [done|]. destruct (Char.same "#" a); [|done].
  intros H. apply many_class in H as (p2 & s2 & _ & H & _ & _).
  apply many_class in H as (p3 & s3 & u & H & Hs2 & Hu).
  apply many_class in H as (p4 & s4 & _ & H & _ & _).
  apply many_class in H as (p5 & s5 & _ & H & _ & _).
  apply many_class in H as (p6 & s6 & _ & H & _ & _).
  destruct s6; [|done]. injection H as <-. cbn [groups group Nat.eqb].
  exists u. split; [|done]. rewrite Hs2, len_app.
  replace (Str.len u + Str.len s3 - Str.len s3) with (Str.len u) by lia.
  by rewrite str_take_app.
Qed.

Lemma allChars_prefix q u v : Str.allChars q (u +:+ v) = true → Str.allChars q u = true.
Proof. rewrite allChars_app. by intros [? _]%andb_true_iff. Qed.

Lemma allChars_suffix q u v : Str.allChars q (u +:+ v) = true → Str.allChars q v = true.
Proof. rewrite allChars_app. by intros [_ ?]%andb_true_iff. Qed.

Lemma allChars_trim q s : Str.allChars q s = true → Str.allChars q (Str.trim s) = true.
Proof.
  intros H. unfold Str.trim, Str.trimStart.
  rewrite <- (takeWhile_dropWhile Char.space s) in H. apply allChars_suffix in H.
  destruct (wsTail_spec (Str.dropWhile Char.space s)) as [Hs _].
  rewrite Hs in H. by apply allChars_prefix in H.
Qed.

Lemma titleOfLine_unbroken line title :
  titleOfLine line = Some title → unbroken title = true.
Proof.
  unfold titleOfLine. destruct (exec TITLE_RE line) as [m|] eqn:Hm; [|done].
  intros [= <-]. destruct (title_capture _ _ Hm) as (captured & -> & Hc).
  by apply allChars_trim.
Qed.

(** X26.  The title [extractTitle] takes from the content has no line
    feed and no carriage return; the only other title it returns is
    the fallback. *)
Theorem title_is_one_line (content fallback : string) :
  match titleLine outside (Str.lines content) with
  | Some _ => unbroken (extractTitle content fallback) = true
  | None => extractTitle content fallback = fallback
  end.
Proof.
  unfold extractTitle. rewrite titleLoop_titleLine.
  destruct (titleLine outside (Str.lines content)) as [i|] eqn:Hi; [|done].
  destruct (titleLine_spec _ _ _ Hi) as ((line & Hl & [title Ht]) & _).
  rewrite Hl. simpl. rewrite Ht. simpl. by eapply titleOfLine_unbroken.
Qed.

(** A heading line that ends with a carriage return. *)
Example title_before_carriage_return :
  extractTitle (String "#" (String " " (String "T" (String "013" "")))) "fallback" = "T".
Proof. vm_compute. reflexivity. Qed.

End OneLineFacts.

(** ** Include directives in the pages of [build] *)

Module PageFacts.
Import Rx Re Markdown Build Include Needs Heading.
Import StrFacts RxFacts FenceFacts NeedsFacts LineFacts PassThrough BuildFacts.

Lemma directive_line_no_marker line :
  isDirectiveLine line = true → markerOf line = NoMarker.
Proof.
  unfold isDirectiveLine, markerOf.
  intros [[t ->]%startsWith_app|[t ->]%startsWith_app]%orb_true_iff; done.
Qed.

Lemma stripLoop_drops state before line after :
  inFence (fenceAfter state before) = false → isDirectiveLine line = true →
  stripLoop state (before ++ line :: after) = stripLoop state (before ++ after).
Proof.
  intros Hout Hd. rewrite !stripLoop_app. f_equal.
  cbn [stripLoop]. unfold updateFenceState.
  by rewrite (directive_line_no_marker _ Hd), Hout, Hd.
Qed.





(** X27.  [stripVuePressDirectives] drops a line that starts with [:::]
    or [!!!] (white space before it ignored) when the line is outside
    a fence: the result is the one of the content without that line.
    An include directive at the start of a line goes this way. *)
Theorem directive_lines_are_dropped (content : string)
    (before : list string) (line : string) (after : list string) :
  Str.lines content = before ++ line :: after →
  inFence (fenceAfter outside before) = false →
  isDirectiveLine line = true →
  stripVuePressDirectives content = stripVuePressDirectives (Str.unlines (before ++ after)).
Proof.
  intros Hlines Hout Hd. unfold stripVuePressDirectives.
  rewrite Hlines, stripLoop_drops by done.
  destruct (before ++ after) as [|x xs] eqn:Hrest; [by vm_compute|].
  rewrite lines_unlines; [done| |done].
  rewrite <- Hrest. pose proof (splitOn_segments "010" content) as Hseg.
  unfold Str.lines in Hlines. rewrite Hlines in Hseg.
  apply Forall_app in Hseg as [H1 H2]. apply Forall_cons in H2 as [_ H2].
  apply Forall_app. by split.
Qed.

Lemma directive_lines_are_dropped_witness :
  stripVuePressDirectives (raw includeLinePage)
  = stripVuePressDirectives (Str.unlines (["Intro"] ++ ["Outro"])).
Proof.
  apply (directive_lines_are_dropped (raw includeLinePage) ["Intro"]
           "!!!include(c.md)!!!" ["Outro"]); vm_compute; reflexivity.
Defined.

End PageFacts.
